(** * Workflow engine of the Agentic Workflow plugin: embedding and properties

    Shallow embedding of [src/engine/workflowEngine.ts] (class
    [WorkflowEngine]) and [src/engine/nodeExecutor.ts] (class
    [NodeExecutor]) together with the types of [src/types/workflow.ts].

    Conventions of the embedding
    - a JavaScript exception is a value of [Completion]: [Returned v] or
      [Thrown e];
    - a [Map] or [Set] whose iteration order the code relies on is an
      insertion-ordered list; a [Set] used for membership only is a [gset];
      [Record<string, any>] is a [gmap string JSValue];
    - recursive closures ([visit], [hasCycleUtil]) take a fuel argument; the
      entry points supply a fuel that is proved sufficient;
    - everything outside the engine (scripts, model inference, HTTP, the
      cancellation token, timers, uuid generation) is an oracle of the class
      [World]; timestamps and durations are not modelled. *)

From Stdlib Require Import ZArith Lia Ascii.
From stdpp Require Import base option list gmap sets strings relations.

Local Open Scope Z_scope.
Local Open Scope string_scope.
Local Set Warnings "-register-all,-clear-no-such-hyp".

(* ===================================================================== *)
(** ** JavaScript values and completions *)
(* ===================================================================== *)

Inductive JSValue : Type :=
  | JUndefined
  | JNull
  | JBool (b : bool)
  | JNum (n : Z)
  | JStr (s : string)
  | JArr (items : list JSValue)
  | JObj (fields : list (string * JSValue)).

(** [Boolean(v)] and the truthiness test of [v ? a : b] and [v || d]. *)
Definition truthy (v : JSValue) : bool :=
  match v with
  | JUndefined | JNull => false
  | JBool b => b
  | JNum n => negb (Z.eqb n 0)
  | JStr s => negb (String.eqb s EmptyString)
  | JArr _ | JObj _ => true
  end.


(** What a [throw] carries: an [Error] object with its message, or any other
    value, kept as its [String(...)] rendering. *)
Inductive Throwable : Type :=
  | ErrorObj (message : string)
  | NonError (rendered : string).

Inductive Completion (A : Type) : Type :=
  | Returned (a : A)
  | Thrown (e : Throwable).
Arguments Returned {A} a.
Arguments Thrown {A} e.

(** [error instanceof Error ? error : new Error(String(error))]; the result is
    an [Error], represented by its message. *)
Definition toError (e : Throwable) : string :=
  match e with
  | ErrorObj message => message
  | NonError rendered => rendered
  end.

(* ===================================================================== *)
(** ** Insertion-ordered [Map<string, V>] and [Set<string>] *)
(* ===================================================================== *)

Module OrderedMap.

Definition t (V : Type) : Type := list (string * V).

Fixpoint get {V} (m : t V) (k : string) : option V :=
  match m with
  | [] => None
  | (k', v) :: rest => if decide (k' = k) then Some v else get rest k
  end.

Definition has {V} (m : t V) (k : string) : bool :=
  match get m k with Some _ => true | None => false end.

(** [m.set(k, v)]: an existing key keeps its position, a new key goes last. *)
Fixpoint set {V} (m : t V) (k : string) (v : V) : t V :=
  match m with
  | [] => [(k, v)]
  | (k', v') :: rest =>
      if decide (k' = k) then (k', v) :: rest else (k', v') :: set rest k v
  end.

(** [m.keys()] in iteration order. *)
Definition keys {V} (m : t V) : list string := m.*1.

(** [s.add(x)] on a [Set<string>] kept in insertion order. *)
Definition add (s : list string) (x : string) : list string :=
  if decide (x ∈ s) then s else s ++ [x].

End OrderedMap.

(* ===================================================================== *)
(** ** Types of [types/workflow.ts] *)
(* ===================================================================== *)

Inductive NodeStatus : Type := PENDING | RUNNING | SUCCESS | FAILED | SKIPPED.

Global Instance NodeStatus_eq_dec : EqDecision NodeStatus.
Proof. solve_decision. Defined.

Inductive Backoff : Type := linear | exponential.

Record RetryPolicy : Type := {
  maxAttempts : Z;
  backoff : Backoff;
  initialDelay : Z;
}.

(** The discriminated union [NodeConfig], by its [type] tag. The node types
    whose body lives in the executor carry their fields; every other type
    ([model], [download], [script], [api_call], [github_action], [os_command],
    [vector_generation], [custom]) reaches the outside world and is kept
    opaque, with its type tag and its configuration as one value. A tag that
    is not in the enumeration is an [OPAQUE] node too; [execute] rejects it. *)
Inductive NodeKind : Type :=
  | CONDITION (condition : string) (trueBranch falseBranch : list string)
  | LOOP (iterationSource : string) (childNodes : list string)
         (maxIterations : option Z)
  | CONTEXT_INJECTION (injections : list (string * JSValue)) (merge : bool)
  | NESTED_WORKFLOW (workflowId : string)
  | PARALLEL (childNodes : list string) (waitForAll : bool)
  | OPAQUE (type : string) (config : JSValue).

(** [BaseNodeConfig]; [name] and [description] play no part in execution and
    are left out. *)
Record NodeConfig : Type := {
  id : string;
  dependencies : list string;
  retryPolicy : option RetryPolicy;
  timeout : option Z;
  overrides : option (list (string * JSValue));
  kind : NodeKind;
}.

(** [WorkflowDefinition] without [description], [metadata] and the two
    dates. *)
Record WorkflowDefinition : Type := {
  wf_id : string;
  wf_name : string;
  wf_version : string;
  nodes : list NodeConfig;
  entryNodes : list string;
}.

Record WorkflowContext : Type := {
  ctx_workflowId : string;
  executionId : string;
  data : gmap string JSValue;
  variables : gmap string JSValue;
  outputs : gmap string JSValue;
  metadata : gmap string JSValue;
}.

(** [NodeExecutionResult] without [startTime], [endTime] and [duration]. *)
Record NodeExecutionResult : Type := {
  nodeId : string;
  status : NodeStatus;
  output : JSValue;               (* [JUndefined] when the field is absent *)
  error : option string;          (* message of the [Error], when present *)
  attempts : Z;
}.

Inductive WorkflowStatus : Type := success | failed | partial.

Global Instance WorkflowStatus_eq_dec : EqDecision WorkflowStatus.
Proof. solve_decision. Defined.

(** [ExecutionEvent], one constructor per [type], with the part of [data]
    that identifies what happened. *)
Inductive ExecutionEvent : Type :=
  | workflow_start (workflowId : string)
  | node_start (nodeId : string)
  | node_complete (nodeId : string) (output : JSValue)
  | node_error (nodeId : string) (error : string) (attempt : Z)
  | workflow_error (error : string)
  | workflow_complete (status : WorkflowStatus).

Record WorkflowExecutionResult : Type := {
  res_workflowId : string;
  res_executionId : string;
  res_status : WorkflowStatus;
  nodeResults : gmap string NodeExecutionResult;
  context : WorkflowContext;
}.

(* ===================================================================== *)
(** ** [WorkflowEngine.detectCycle] *)
(* ===================================================================== *)

Module DetectCycle.

Record State : Type := { visited : gset string; recStack : gset string }.

(** The [for (const neighbor of neighbors)] loop of [hasCycleUtil]; [rec] is
    the recursive call. *)
Fixpoint neighborsLoop (rec : string → State → option (bool * State))
    (neighbors : list string) (st : State) : option (bool * State) :=
  match neighbors with
  | [] => Some (false, st)
  | neighbor :: rest =>
      if decide (neighbor ∈ visited st) then
        if decide (neighbor ∈ recStack st) then Some (true, st)
        else neighborsLoop rec rest st
      else
        match rec neighbor st with
        | None => None
        | Some (true, st') => Some (true, st')
        | Some (false, st') => neighborsLoop rec rest st'
        end
  end.

Fixpoint hasCycleUtil (fuel : nat) (graph : OrderedMap.t (list string))
    (nodeId : string) (st : State) : option (bool * State) :=
  match fuel with
  | O => None
  | S fuel' =>
      let st1 := {| visited := {[nodeId]} ∪ visited st;
                    recStack := {[nodeId]} ∪ recStack st |} in
      let neighbors := default [] (OrderedMap.get graph nodeId) in
      match neighborsLoop (hasCycleUtil fuel' graph) neighbors st1 with
      | None => None
      | Some (true, st') => Some (true, st')
      | Some (false, st') =>
          Some (false, {| visited := visited st';
                          recStack := recStack st' ∖ {[nodeId]} |})
      end
  end.

(** The [for (const nodeId of graph.keys())] loop of [detectCycle]. *)
Fixpoint keysLoop (fuel : nat) (graph : OrderedMap.t (list string))
    (ks : list string) (st : State) : option bool :=
  match ks with
  | [] => Some false
  | nodeId :: rest =>
      if decide (nodeId ∈ visited st) then keysLoop fuel graph rest st
      else
        match hasCycleUtil fuel graph nodeId st with
        | None => None
        | Some (true, _) => Some true
        | Some (false, st') => keysLoop fuel graph rest st'
        end
  end.

Definition buildGraph (ns : list NodeConfig) : OrderedMap.t (list string) :=
  foldl (λ g node, OrderedMap.set g (id node) (dependencies node)) [] ns.

Definition detectCycle (ns : list NodeConfig) : option bool :=
  let graph := buildGraph ns in
  keysLoop (S (length graph)) graph (OrderedMap.keys graph)
    {| visited := ∅; recStack := ∅ |}.

End DetectCycle.

(* ===================================================================== *)
(** ** [WorkflowEngine.validateWorkflow] *)
(* ===================================================================== *)

(** First loop: duplicate node ids; returns the set of ids. *)
Fixpoint checkDuplicates (ns : list NodeConfig) (nodeIds : gset string)
    : Completion (gset string) :=
  match ns with
  | [] => Returned nodeIds
  | node :: rest =>
      if decide (id node ∈ nodeIds)
      then Thrown (ErrorObj ("Duplicate node ID: " +:+ id node))
      else checkDuplicates rest ({[id node]} ∪ nodeIds)
  end.

Fixpoint checkNodeDependencies (nodeIds : gset string) (nid : string)
    (deps : list string) : Completion unit :=
  match deps with
  | [] => Returned ()
  | depId :: rest =>
      if decide (depId ∈ nodeIds) then checkNodeDependencies nodeIds nid rest
      else Thrown (ErrorObj
             ("Node " +:+ nid +:+ " has invalid dependency: " +:+ depId))
  end.

(** Second loop: dependencies on ids that no node has. *)
Fixpoint checkInvalidDependencies (nodeIds : gset string)
    (ns : list NodeConfig) : Completion unit :=
  match ns with
  | [] => Returned ()
  | node :: rest =>
      match checkNodeDependencies nodeIds (id node) (dependencies node) with
      | Thrown e => Thrown e
      | Returned _ => checkInvalidDependencies nodeIds rest
      end
  end.

(** Last loop: entry nodes. *)
Fixpoint checkEntryNodes (nodeIds : gset string) (entries : list string)
    : Completion unit :=
  match entries with
  | [] => Returned ()
  | entryId :: rest =>
      if decide (entryId ∈ nodeIds) then checkEntryNodes nodeIds rest
      else Thrown (ErrorObj ("Invalid entry node: " +:+ entryId))
  end.

(** [None] only if the cycle search ran out of fuel. *)
Definition validateWorkflow (workflow : WorkflowDefinition)
    : option (Completion unit) :=
  match checkDuplicates (nodes workflow) ∅ with
  | Thrown e => Some (Thrown e)
  | Returned nodeIds =>
      match checkInvalidDependencies nodeIds (nodes workflow) with
      | Thrown e => Some (Thrown e)
      | Returned _ =>
          match DetectCycle.detectCycle (nodes workflow) with
          | None => None
          | Some true =>
              Some (Thrown (ErrorObj "Workflow contains circular dependencies"))
          | Some false => Some (checkEntryNodes nodeIds (entryNodes workflow))
          end
      end
  end.

(* ===================================================================== *)
(** ** [WorkflowEngine.buildDependencyGraph] and [topologicalSort] *)
(* ===================================================================== *)

(** [graph.get(depId)!.add(node.id)] *)
Definition addDependent (graph : OrderedMap.t (list string))
    (depId nid : string) : OrderedMap.t (list string) :=
  match OrderedMap.get graph depId with
  | Some dependents => OrderedMap.set graph depId (OrderedMap.add dependents nid)
  | None => graph
  end.

(** [if (!graph.has(k)) graph.set(k, new Set())] *)
Definition ensureKey (graph : OrderedMap.t (list string)) (k : string)
    : OrderedMap.t (list string) :=
  if OrderedMap.has graph k then graph else OrderedMap.set graph k [].

Definition buildDependencyGraph (ns : list NodeConfig)
    : OrderedMap.t (list string) :=
  foldl (λ graph node,
           foldl (λ g depId, addDependent (ensureKey g depId) depId (id node))
                 (ensureKey graph (id node)) (dependencies node))
        [] ns.

Module TopologicalSort.

Record State : Type := {
  result : list string;
  visited : gset string;
  temp : gset string;
}.

(** The [for (const depId of dependencies)] loop of [visit]. *)
Fixpoint dependentsLoop (rec : string → State → option (Completion State))
    (ds : list string) (st : State) : option (Completion State) :=
  match ds with
  | [] => Some (Returned st)
  | depId :: rest =>
      match rec depId st with
      | None => None
      | Some (Thrown e) => Some (Thrown e)
      | Some (Returned st') => dependentsLoop rec rest st'
      end
  end.

Fixpoint visit (fuel : nat) (graph : OrderedMap.t (list string))
    (nodeId : string) (st : State) : option (Completion State) :=
  match fuel with
  | O => None
  | S fuel' =>
      if decide (nodeId ∈ temp st) then
        Some (Thrown (ErrorObj "Circular dependency detected"))
      else if decide (nodeId ∈ visited st) then Some (Returned st)
      else
        let st1 := {| result := result st; visited := visited st;
                      temp := {[nodeId]} ∪ temp st |} in
        let dependents := default [] (OrderedMap.get graph nodeId) in
        match dependentsLoop (visit fuel' graph) dependents st1 with
        | None => None
        | Some (Thrown e) => Some (Thrown e)
        | Some (Returned st') =>
            Some (Returned {| result := result st' ++ [nodeId];
                              visited := {[nodeId]} ∪ visited st';
                              temp := temp st' ∖ {[nodeId]} |})
        end
  end.

(** The [for (const nodeId of graph.keys())] loop. *)
Fixpoint keysLoop (fuel : nat) (graph : OrderedMap.t (list string))
    (ks : list string) (st : State) : option (Completion State) :=
  match ks with
  | [] => Some (Returned st)
  | nodeId :: rest =>
      if decide (nodeId ∈ visited st) then keysLoop fuel graph rest st
      else
        match visit fuel graph nodeId st with
        | None => None
        | Some (Thrown e) => Some (Thrown e)
        | Some (Returned st') => keysLoop fuel graph rest st'
        end
  end.

Definition topologicalSort (graph : OrderedMap.t (list string))
    : option (Completion (list string)) :=
  match keysLoop (S (length graph)) graph (OrderedMap.keys graph)
          {| result := []; visited := ∅; temp := ∅ |} with
  | None => None
  | Some (Thrown e) => Some (Thrown e)
  | Some (Returned st) => Some (Returned (reverse (result st)))
  end.

End TopologicalSort.

(* ===================================================================== *)
(** ** The outside world *)
(* ===================================================================== *)

(** The object [{context: context.data, outputs: context.outputs, variables:
    context.variables}] an expression is evaluated against. *)
Record EvalContext : Type := {
  ec_context : gmap string JSValue;
  ec_outputs : gmap string JSValue;
  ec_variables : gmap string JSValue;
}.

(** [Ext] is the state of everything the engine does not own: closures of
    scripts, network, file system, pending cancellation requests, clocks.
    - [aborted]: [abortController.signal.aborted], set by the cancellation
      token or by [cancelExecution];
    - [uuidv4]: the generator of execution ids;
    - [evalExpression]: [new Function('ctx', ...)] of [evaluateExpression],
      arbitrary JavaScript run against the three objects of [EvalContext],
      which it may change;
    - [external]: the body of a node type that reaches outside the engine;
    - [sleep]: what happens in the world while the engine awaits a timer;
    - [timerWins]: whether the timer of [executeWithTimeout] settles before
      the node body does. *)
Class World (Ext : Type) : Type := {
  aborted : Ext → bool;
  uuidv4 : Ext → string * Ext;
  evalExpression :
    string → EvalContext → Ext → Completion JSValue * EvalContext * Ext;
  external :
    NodeConfig → WorkflowContext → Ext → Completion JSValue * WorkflowContext * Ext;
  sleep : Z → Ext → Ext;
  timerWins : Z → Ext → bool;
}.

(** The mutable state of one execution: the context object, the outside world
    and the events emitted so far on [executionEvents]. *)
Record Machine (Ext : Type) : Type := {
  ctx : WorkflowContext;
  ext : Ext;
  events : list ExecutionEvent;
}.
Arguments ctx {Ext} _.
Arguments ext {Ext} _.
Arguments events {Ext} _.

Definition emitEvent {Ext} (event : ExecutionEvent) (m : Machine Ext)
    : Machine Ext :=
  {| ctx := ctx m; ext := ext m; events := events m ++ [event] |}.

Definition withCtx {Ext} (c : WorkflowContext) (m : Machine Ext) : Machine Ext :=
  {| ctx := c; ext := ext m; events := events m |}.

Definition withExt {Ext} (e : Ext) (m : Machine Ext) : Machine Ext :=
  {| ctx := ctx m; ext := e; events := events m |}.

Definition withData (d : gmap string JSValue) (c : WorkflowContext)
    : WorkflowContext :=
  {| ctx_workflowId := ctx_workflowId c; executionId := executionId c;
     data := d; variables := variables c; outputs := outputs c;
     metadata := metadata c |}.

Definition withOutputs (o : gmap string JSValue) (c : WorkflowContext)
    : WorkflowContext :=
  {| ctx_workflowId := ctx_workflowId c; executionId := executionId c;
     data := data c; variables := variables c; outputs := o;
     metadata := metadata c |}.

(** The context whose [data], [outputs] and [variables] objects are in the
    state an evaluation left them. *)
Definition withEvalContext (ec : EvalContext) (c : WorkflowContext)
    : WorkflowContext :=
  {| ctx_workflowId := ctx_workflowId c; executionId := executionId c;
     data := ec_context ec; variables := ec_variables ec;
     outputs := ec_outputs ec; metadata := metadata c |}.

(** [Object.assign(target, source)] and [{ ...target, ...source }]. *)
Definition assign (target : gmap string JSValue)
    (source : list (string * JSValue)) : gmap string JSValue :=
  foldl (λ m kv, <[kv.1 := kv.2]> m) target source.

(* ===================================================================== *)
(** ** [NodeExecutor]: path resolution *)
(* ===================================================================== *)

(** [path.split('.')]; [cur] is the part being read. *)
Fixpoint splitDots (path : string) (cur : string) : list string :=
  match path with
  | EmptyString => [cur]
  | String c rest =>
      if Ascii.eqb c "."%char then cur :: splitDots rest EmptyString
      else splitDots rest (cur +:+ String c EmptyString)
  end.

Definition digitOf (c : Ascii.ascii) : option nat :=
  let n := Ascii.nat_of_ascii c in
  if decide (48 ≤ n ∧ n ≤ 57)%nat then Some (n - 48)%nat else None.

Fixpoint parseDigits (s : string) (acc : nat) : option nat :=
  match s with
  | EmptyString => Some acc
  | String c rest =>
      match digitOf c with
      | Some d => parseDigits rest (10 * acc + d)%nat
      | None => None
      end
  end.

(** A property name that is an array index: decimal, no leading zero. *)
Definition parseIndex (s : string) : option nat :=
  match s with
  | EmptyString => None
  | String c rest =>
      if Ascii.eqb c "0"%char
      then (if String.eqb rest EmptyString then Some 0%nat else None)
      else parseDigits s 0
  end.

Fixpoint lookupField (fields : list (string * JSValue)) (k : string) : JSValue :=
  match fields with
  | [] => JUndefined
  | (k', v) :: rest => if String.eqb k' k then v else lookupField rest k
  end.

(** [current[part]] for own properties; inherited ones (methods) are not
    modelled and read as [undefined]. *)
Definition getProp (current : JSValue) (part : string) : JSValue :=
  match current with
  | JObj fields => lookupField fields part
  | JArr items =>
      if String.eqb part "length" then JNum (Z.of_nat (length items))
      else match parseIndex part with
           | Some i => default JUndefined (items !! i)
           | None => JUndefined
           end
  | JStr s =>
      if String.eqb part "length" then JNum (Z.of_nat (String.length s))
      else JUndefined
  | _ => JUndefined
  end.

(** The context object as a value, for property access by name. *)
Definition contextObject (c : WorkflowContext) : JSValue :=
  JObj [("workflowId", JStr (ctx_workflowId c));
        ("executionId", JStr (executionId c));
        ("data", JObj (map_to_list (data c)));
        ("variables", JObj (map_to_list (variables c)));
        ("outputs", JObj (map_to_list (outputs c)));
        ("metadata", JObj (map_to_list (metadata c)))].

Fixpoint resolveParts (parts : list string) (current : JSValue) : JSValue :=
  match parts with
  | [] => current
  | part :: rest =>
      match current with
      | JUndefined | JNull => JUndefined
      | _ => resolveParts rest (getProp current part)
      end
  end.

Definition resolveContextPath (path : string) (c : WorkflowContext) : JSValue :=
  resolveParts (splitDots path EmptyString) (contextObject c).

(** [x || d] on numbers: [0] (and an absent value) gives the default. *)
Definition orDefault (x : option Z) (d : Z) : Z :=
  match x with
  | Some n => if Z.eqb n 0 then d else n
  | None => d
  end.

(* ===================================================================== *)
(** ** [NodeExecutor.execute] *)
(* ===================================================================== *)

Section NodeExecutor.
Context {Ext : Type} `{!World Ext}.

(** [evaluateExpression]: whatever the evaluation throws is replaced by one
    error message. *)
Definition evaluateExpression (expression : string) (m : Machine Ext)
    : Completion JSValue * Machine Ext :=
  let evalContext := {| ec_context := data (ctx m);
                        ec_outputs := outputs (ctx m);
                        ec_variables := variables (ctx m) |} in
  let '(r, evalContext', e') := evalExpression expression evalContext (ext m) in
  let m' := withExt e' (withCtx (withEvalContext evalContext' (ctx m)) m) in
  match r with
  | Returned v => (Returned v, m')
  | Thrown _ =>
      (Thrown (ErrorObj ("Failed to evaluate expression: " +:+ expression)), m')
  end.

Definition executeCondition (condition : string)
    (trueBranch falseBranch : list string) (m : Machine Ext)
    : Completion JSValue * Machine Ext :=
  match evaluateExpression condition m with
  | (Thrown e, m') => (Thrown e, m')
  | (Returned result, m') =>
      (Returned (JObj [("condition", JStr condition);
                       ("result", JBool (truthy result));
                       ("branch", JStr (if truthy result then "true" else "false"))]),
       m')
  end.

(** The object [{iteration: i, item: iterationData[i]}] pushed on [results]. *)
Definition iterationRecord (i : Z) (item : JSValue) : JSValue :=
  JObj [("iteration", JNum i); ("item", item)].

(** The object literal [iterationContext] of [executeLoop]. *)
Definition iterationContext (c : WorkflowContext) (i : Z) (item : JSValue)
    : WorkflowContext :=
  withData (assign (data c) [("$iteration", JNum i); ("$item", item)]) c.

(** The [for (let i = 0; i < iterations; i++)] loop; [items] is what is left
    of [iterationData] from index [i] on. The iteration context is built
    and not used. *)
Fixpoint loopIterations (c : WorkflowContext) (iterations i : Z)
    (items : list JSValue) (results : list JSValue) : list JSValue :=
  match items with
  | [] => results
  | item :: rest =>
      if decide (i < iterations) then
        let _ := iterationContext c i item in
        loopIterations c iterations (i + 1) rest
          (results ++ [iterationRecord i item])
      else results
  end.

Definition executeLoop (iterationSource : string) (childNodes : list string)
    (maxIterations : option Z) (m : Machine Ext)
    : Completion JSValue * Machine Ext :=
  match resolveContextPath iterationSource (ctx m) with
  | JArr iterationData =>
      let len := Z.of_nat (length iterationData) in
      let maxIterations := orDefault maxIterations len in
      let iterations := Z.min len maxIterations in
      let results := loopIterations (ctx m) iterations 0 iterationData [] in
      (Returned (JObj [("iterations", JNum (Z.of_nat (length results)));
                       ("results", JArr results)]), m)
  | _ =>
      (Thrown (ErrorObj ("Loop iteration source must be an array: "
                         +:+ iterationSource)), m)
  end.

Definition executeContextInjection (injections : list (string * JSValue))
    (merge : bool) (m : Machine Ext) : Completion JSValue * Machine Ext :=
  let d := if merge then assign (data (ctx m)) injections
           else assign ∅ injections in
  (Returned (JObj [("injected", JArr (JStr <$> injections.*1))]),
   withCtx (withData d (ctx m)) m).

Definition executeNestedWorkflow (workflowId : string) (m : Machine Ext)
    : Completion JSValue * Machine Ext :=
  (Thrown (ErrorObj "Nested workflows not yet implemented"), m).

Definition executeParallel (childNodes : list string) (waitForAll : bool)
    (m : Machine Ext) : Completion JSValue * Machine Ext :=
  (Returned (JObj [("childNodes", JArr (JStr <$> childNodes));
                   ("waitForAll", JBool waitForAll)]), m).

(** Type tags of [NodeType] whose body is outside the engine. *)
Definition externalTypes : list string :=
  ["model"; "download"; "script"; "api_call"; "github_action"; "os_command";
   "vector_generation"; "custom"].

Definition execute (node : NodeConfig) (m : Machine Ext)
    : Completion JSValue * Machine Ext :=
  match kind node with
  | CONDITION condition trueBranch falseBranch =>
      executeCondition condition trueBranch falseBranch m
  | LOOP iterationSource childNodes maxIterations =>
      executeLoop iterationSource childNodes maxIterations m
  | CONTEXT_INJECTION injections merge =>
      executeContextInjection injections merge m
  | NESTED_WORKFLOW workflowId => executeNestedWorkflow workflowId m
  | PARALLEL childNodes waitForAll => executeParallel childNodes waitForAll m
  | OPAQUE type _ =>
      if decide (type ∈ externalTypes) then
        let '(r, c', e') := external node (ctx m) (ext m) in
        (r, withExt e' (withCtx c' m))
      else (Thrown (ErrorObj ("Unknown node type: " +:+ type)), m)
  end.

End NodeExecutor.

(* ===================================================================== *)
(** ** [WorkflowEngine]: one node with retries *)
(* ===================================================================== *)

(** [calculateBackoff]; [Math.pow(2, attempt - 1)] for [attempt >= 1]. *)
Definition calculateBackoff (attempt initialDelay : Z) (backoff : Backoff) : Z :=
  match backoff with
  | exponential => initialDelay * 2 ^ (attempt - 1)
  | linear => initialDelay * attempt
  end.

(** [applyOverrides] *)
Definition applyOverrides (c : WorkflowContext)
    (overrides : option (list (string * JSValue))) : WorkflowContext :=
  match overrides with
  | None => c
  | Some o => withData (assign (data c) o) c
  end.

(** What the shared context object holds after the node ran on
    [nodeContext]: without overrides the two are one object; with overrides
    [nodeContext] is a copy with a [data] object of its own, and shares
    [variables], [outputs] and [metadata] with the context. (Objects nested
    inside [data] are shared too; that aliasing is not modelled.) *)
Definition sharedAfter (c : WorkflowContext)
    (overrides : option (list (string * JSValue)))
    (nodeContext' : WorkflowContext) : WorkflowContext :=
  match overrides with
  | None => nodeContext'
  | Some _ =>
      {| ctx_workflowId := ctx_workflowId c; executionId := executionId c;
         data := data c; variables := variables nodeContext';
         outputs := outputs nodeContext'; metadata := metadata nodeContext' |}
  end.

Section Engine.
Context {Ext : Type} `{!World Ext}.

(** [executeWithTimeout(() => this.nodeExecutor.execute(node, nodeContext),
    node.timeout)]: the body runs in any case; with a timeout set the race
    is lost when the timer settles first. *)
Definition executeWithTimeout (node : NodeConfig) (m : Machine Ext)
    : Completion JSValue * Machine Ext :=
  match timeout node with
  | None => execute node m
  | Some t =>
      if Z.eqb t 0 then execute node m
      else
        let lost := timerWins t (ext m) in
        let '(r, m') := execute node m in
        if lost then (Thrown (ErrorObj "Execution timeout"), m') else (r, m')
  end.

(** The body of the [try] in the attempt loop: the abort check, then the
    node itself. *)
Definition attempt (node : NodeConfig) (m : Machine Ext)
    : Completion JSValue * Machine Ext :=
  if aborted (ext m) then (Thrown (ErrorObj "Execution aborted"), m)
  else executeWithTimeout node m.

Definition failedResult (node : NodeConfig) (lastError : option string)
    (attempts : Z) : NodeExecutionResult :=
  {| nodeId := id node; status := FAILED; output := JUndefined;
     error := lastError; attempts := attempts |}.

(** The [while (attempts < maxAttempts)] loop of [executeNode]; the machine
    holds [nodeContext]. [None] when the fuel runs out. *)
Fixpoint attemptLoop (fuel : nat) (node : NodeConfig)
    (maxAttempts initialDelay : Z) (backoff : Backoff)
    (attempts : Z) (lastError : option string) (m : Machine Ext)
    : option (NodeExecutionResult * Machine Ext) :=
  if decide (attempts < maxAttempts) then
    match fuel with
    | O => None
    | S fuel' =>
        let attempts := attempts + 1 in
        let '(r, m1) := attempt node m in
        match r with
        | Returned output =>
            Some ({| nodeId := id node; status := SUCCESS; output := output;
                     error := None; attempts := attempts |},
                  emitEvent (node_complete (id node) output) m1)
        | Thrown e =>
            let lastError := Some (toError e) in
            let m2 := emitEvent (node_error (id node) (toError e) attempts) m1 in
            if decide (attempts < maxAttempts) then
              let delay := calculateBackoff attempts initialDelay backoff in
              attemptLoop fuel' node maxAttempts initialDelay backoff
                attempts lastError (withExt (sleep delay (ext m2)) m2)
            else Some (failedResult node lastError attempts, m2)
        end
    end
  else Some (failedResult node lastError attempts, m).

Definition executeNode (node : NodeConfig) (m : Machine Ext)
    : option (NodeExecutionResult * Machine Ext) :=
  let m0 := emitEvent (node_start (id node)) m in
  let context := ctx m0 in
  let nodeContext := applyOverrides context (overrides node) in
  let maxAttempts := orDefault (maxAttempts <$> retryPolicy node) 1 in
  let initialDelay := orDefault (initialDelay <$> retryPolicy node) 1000 in
  let backoff := default linear (backoff <$> retryPolicy node) in
  match attemptLoop (Z.to_nat maxAttempts) node maxAttempts initialDelay
          backoff 0 None (withCtx nodeContext m0) with
  | None => None
  | Some (result, m') =>
      Some (result, withCtx (sharedAfter context (overrides node) (ctx m')) m')
  end.

(* =================================================================== *)
(** ** [WorkflowEngine.executeWorkflow] *)
(* =================================================================== *)

Fixpoint checkDependenciesLoop (deps : list string)
    (results : gmap string NodeExecutionResult) : bool :=
  match deps with
  | [] => true
  | depId :: rest =>
      match results !! depId with
      | None => false
      | Some depResult =>
          if decide (status depResult = SUCCESS)
          then checkDependenciesLoop rest results
          else false
      end
  end.

Definition checkDependencies (node : NodeConfig)
    (results : gmap string NodeExecutionResult) : bool :=
  checkDependenciesLoop (dependencies node) results.

(** The local variables [nodeResults] and [status] of [executeWorkflow],
    and the machine with the context. *)
Record RunState : Type := {
  run_results : gmap string NodeExecutionResult;
  run_status : WorkflowStatus;
  machine : Machine Ext;
}.

Definition skippedResult (nodeId : string) : NodeExecutionResult :=
  {| nodeId := nodeId; status := SKIPPED; output := JUndefined;
     error := None; attempts := 0 |}.

(** [workflow.nodes.find(n => n.id === nodeId)] *)
Definition findNode (workflow : WorkflowDefinition) (nodeId : string)
    : option NodeConfig :=
  List.find (λ n, bool_decide (id n = nodeId)) (nodes workflow).

(** The [for (const nodeId of executionOrder)] loop. *)
Fixpoint nodeLoop (workflow : WorkflowDefinition) (order : list string)
    (st : RunState) : option RunState :=
  match order with
  | [] => Some st
  | nodeId :: rest =>
      if aborted (ext (machine st)) then
        Some {| run_results := run_results st; run_status := partial;
                machine := machine st |}
      else
        match findNode workflow nodeId with
        | None => nodeLoop workflow rest st
        | Some node =>
            if negb (checkDependencies node (run_results st)) then
              nodeLoop workflow rest
                {| run_results := <[nodeId := skippedResult nodeId]> (run_results st);
                   run_status := run_status st; machine := machine st |}
            else
              match executeNode node (machine st) with
              | None => None
              | Some (result, m') =>
                  let m'' :=
                    match output result with
                    | JUndefined => m'
                    | o => withCtx (withOutputs (<[nodeId := o]> (outputs (ctx m')))
                                                (ctx m')) m'
                    end in
                  nodeLoop workflow rest
                    {| run_results := <[nodeId := result]> (run_results st);
                       run_status := if decide (status result = FAILED)
                                     then failed else run_status st;
                       machine := m'' |}
              end
        end
  end.

(** The [try] block: its completion and the state it leaves. *)
Definition tryBlock (workflow : WorkflowDefinition) (st : RunState)
    : option (Completion unit * RunState) :=
  match validateWorkflow workflow with
  | None => None
  | Some (Thrown e) => Some (Thrown e, st)
  | Some (Returned _) =>
      let dependencyGraph := buildDependencyGraph (nodes workflow) in
      match TopologicalSort.topologicalSort dependencyGraph with
      | None => None
      | Some (Thrown e) => Some (Thrown e, st)
      | Some (Returned executionOrder) =>
          match nodeLoop workflow executionOrder st with
          | None => None
          | Some st' => Some (Returned (), st')
          end
      end
  end.

(** The state on entry of the [try] block: the fresh context, the
    [workflow_start] event, empty [nodeResults], status [success]. *)
Definition initialState (workflow : WorkflowDefinition)
    (initialContext : gmap string JSValue) (e0 : Ext) : RunState :=
  let '(executionId, e1) := uuidv4 e0 in
  let context :=
    {| ctx_workflowId := wf_id workflow; executionId := executionId;
       data := initialContext; variables := ∅; outputs := ∅;
       metadata := {[ "workflowName" := JStr (wf_name workflow);
                      "workflowVersion" := JStr (wf_version workflow) ]} |} in
  {| run_results := ∅; run_status := success;
     machine := emitEvent (workflow_start (wf_id workflow))
                  {| ctx := context; ext := e1; events := [] |} |}.

(** [executeWorkflow]; the registry [activeExecutions] is not modelled. The
    result comes with the final machine, for its events. *)
Definition executeWorkflow (workflow : WorkflowDefinition)
    (initialContext : gmap string JSValue) (e0 : Ext)
    : option (Completion WorkflowExecutionResult * Machine Ext) :=
  let st := initialState workflow initialContext e0 in
  match tryBlock workflow st with
  | None => None
  | Some (completion, st') =>
      let st'' :=
        match completion with
        | Returned _ => st'
        | Thrown e =>
            {| run_results := run_results st'; run_status := failed;
               machine := emitEvent (workflow_error (toError e)) (machine st') |}
        end in
      let m' := emitEvent (workflow_complete (run_status st'')) (machine st'') in
      Some (Returned {| res_workflowId := wf_id workflow;
                        res_executionId := (uuidv4 e0).1;
                        res_status := run_status st'';
                        nodeResults := run_results st'';
                        context := ctx m' |}, m')
  end.

End Engine.

Arguments RunState Ext : clear implicits.

(* ===================================================================== *)
(** ** Notions the statements use *)
(* ===================================================================== *)

(** [dependsOn ns b a]: some node with id [b] lists [a] as a dependency. *)
Definition dependsOn (ns : list NodeConfig) (b a : string) : Prop :=
  ∃ node, node ∈ ns ∧ id node = b ∧ a ∈ dependencies node.

(** The dependency graph contains a cycle. *)
Definition hasCycle (ns : list NodeConfig) : Prop :=
  ∃ x, tc (dependsOn ns) x x.

(** The edges of a graph kept as an ordered map of successor lists. *)
Definition edge (g : OrderedMap.t (list string)) (x y : string) : Prop :=
  y ∈ default [] (OrderedMap.get g x).

(** [a] occurs strictly before [b] in [order]. *)
Definition precedes (a b : string) (order : list string) : Prop :=
  ∃ l1 l2 l3, order = (l1 ++ a :: l2 ++ b :: l3)%list.

(** Every element is followed by all its successors in [g]. *)
Fixpoint topoSorted (g : OrderedMap.t (list string)) (order : list string)
    : Prop :=
  match order with
  | [] => True
  | x :: rest => (∀ y, edge g x y → y ∈ rest) ∧ topoSorted g rest
  end.

(** A workflow that [validateWorkflow] accepts. *)
Definition valid (workflow : WorkflowDefinition) : Prop :=
  validateWorkflow workflow = Some (Returned ()).

(** Node bodies and expressions that leave [context.outputs[k]] alone. *)
Definition bodiesKeepOutput {Ext} `{!World Ext} (k : string) : Prop :=
  (∀ node c e, outputs (external node c e).1.2 !! k = outputs c !! k)
  ∧ (∀ expression ec e, ec_outputs (evalExpression expression ec e).1.2 !! k
                        = ec_outputs ec !! k).

(** The node an event is about. *)
Definition eventNode (event : ExecutionEvent) : option string :=
  match event with
  | node_start n | node_complete n _ | node_error n _ _ => Some n
  | _ => None
  end.

(** Two nodes with no ordering constraint between them, and the tie-break
    the specification words: such nodes keep their declaration order. *)
Definition unrelated (ns : list NodeConfig) (a b : string) : Prop :=
  ¬ tc (dependsOn ns) a b ∧ ¬ tc (dependsOn ns) b a.

Definition declarationOrderTies (ns : list NodeConfig) (order : list string)
    : Prop :=
  ∀ a b, precedes a b (id <$> ns) → unrelated ns a b → precedes a b order.

(* ===================================================================== *)
(** ** Invariants of the two traversals *)
(* ===================================================================== *)

Definition keySet (g : OrderedMap.t (list string)) : gset string :=
  list_to_set (OrderedMap.keys g).

Module CycleInv.
Import DetectCycle.

(** Finished vertices (visited, off the recursion stack) are closed under
    edges and lie on no cycle. *)
Record Inv (g : OrderedMap.t (list string)) (st : State) : Prop := {
  inv_stack : recStack st ⊆ visited st;
  inv_closed : ∀ x y, x ∈ visited st → x ∉ recStack st → edge g x y →
                      y ∈ visited st ∧ y ∉ recStack st;
  inv_acyclic : ∀ x, x ∈ visited st → x ∉ recStack st → ¬ tc (edge g) x x;
}.

Definition finished (st : State) (x : string) : Prop :=
  x ∈ visited st ∧ x ∉ recStack st.

(** What a call of [hasCycleUtil] that answers [false] guarantees. *)
Definition post (g : OrderedMap.t (list string)) (nodeId : string)
    (st st' : State) : Prop :=
  Inv g st' ∧ visited st ⊆ visited st' ∧ nodeId ∈ visited st'
  ∧ recStack st' = recStack st.
End CycleInv.

Module SortInv.
Import TopologicalSort.

Record Inv (g : OrderedMap.t (list string)) (st : State) : Prop := {
  inv_members : ∀ x, x ∈ visited st ↔ x ∈ result st;
  inv_nodup : NoDup (result st);
  inv_disjoint : temp st ## visited st;
  inv_sorted : topoSorted g (reverse (result st));
  inv_keys : visited st ⊆ keySet g;
}.

(** What a call of [visit] on [nodeId] guarantees. *)
Definition post (g : OrderedMap.t (list string)) (nodeId : string)
    (st st' : State) : Prop :=
  Inv g st' ∧ temp st' = temp st ∧ visited st ⊆ visited st'
  ∧ nodeId ∈ visited st'.
End SortInv.

(* ===================================================================== *)
(** ** The specification's reading of condition, parallel and loop nodes *)
(* ===================================================================== *)

(** These definitions follow the words of the specification (section 4.3),
    not the source; they exist to be compared with [executeCondition],
    [executeParallel] and [executeLoop]. [nodes] are the nodes of the running
    workflow, for the lookup by id. *)
Module SpecReading.
Section SpecReading.
Context {Ext : Type} `{!World Ext}.
Variable nodes : list NodeConfig.










End SpecReading.
End SpecReading.

(* ===================================================================== *)
(** ** A concrete world and concrete workflows *)
(* ===================================================================== *)

(** A small world for witnesses and counterexamples: a cancellation flag and
    the log of the node bodies that ran. A script configured with
    [{throws: msg}] throws, any other body returns its configuration; the
    expressions ["true"] and ["false"] evaluate to themselves. *)
Record TestExt : Type := { cancelled : bool; calls : list string }.

Definition testBody (node : NodeConfig) : Completion JSValue :=
  match kind node with
  | OPAQUE _ (JObj [("throws", JStr msg)]) => Thrown (ErrorObj msg)
  | OPAQUE _ config => Returned config
  | _ => Returned JUndefined
  end.

Global Instance TestWorld : World TestExt := {|
  aborted e := cancelled e;
  uuidv4 e := ("execution-1", e);
  evalExpression expression ec e :=
    (if String.eqb expression "true" then Returned (JBool true)
     else if String.eqb expression "false" then Returned (JBool false)
     else Thrown (ErrorObj "unsupported expression"), ec, e);
  external node c e :=
    (testBody node, c, {| cancelled := cancelled e; calls := (calls e ++ [id node])%list |});
  sleep _ e := e;
  timerWins _ _ := false;
|}.

Definition quiet : TestExt := {| cancelled := false; calls := [] |}.
Definition cancelledWorld : TestExt := {| cancelled := true; calls := [] |}.

Definition mkNode (i : string) (deps : list string) (k : NodeKind) : NodeConfig :=
  {| id := i; dependencies := deps; retryPolicy := None; timeout := None;
     overrides := None; kind := k |}.

Definition okScript : NodeKind := OPAQUE "script" (JObj [("ok", JBool true)]).
Definition failingScript : NodeKind :=
  OPAQUE "script" (JObj [("throws", JStr "Test error")]).

Definition mkWorkflow (ns : list NodeConfig) (entries : list string)
    : WorkflowDefinition :=
  {| wf_id := "test-workflow"; wf_name := "Test Workflow";
     wf_version := "1.0.0"; nodes := ns; entryNodes := entries |}.

Definition emptyContext : WorkflowContext :=
  {| ctx_workflowId := "test-workflow"; executionId := "execution-1";
     data := ∅; variables := ∅; outputs := ∅; metadata := ∅ |}.

Definition startMachine (d : gmap string JSValue) : Machine TestExt :=
  {| ctx := withData d emptyContext; ext := quiet; events := [] |}.

(** Workflows after those of the engine's unit tests. *)
Definition cyclicWorkflow : WorkflowDefinition :=
  mkWorkflow [mkNode "node-1" ["node-2"] okScript;
              mkNode "node-2" ["node-1"] okScript] ["node-1"].

Definition duplicateWorkflow : WorkflowDefinition :=
  mkWorkflow [mkNode "node-1" [] okScript; mkNode "node-1" [] okScript]
             ["node-1"].

Definition chainWorkflow : WorkflowDefinition :=
  mkWorkflow [mkNode "node-1" [] okScript; mkNode "node-2" ["node-1"] okScript;
              mkNode "node-3" ["node-2"] okScript] ["node-1"].

Definition cascadeWorkflow : WorkflowDefinition :=
  mkWorkflow [mkNode "node-1" [] failingScript;
              mkNode "node-2" ["node-1"] okScript] ["node-1"].

Definition independentWorkflow : WorkflowDefinition :=
  mkWorkflow [mkNode "a" [] okScript; mkNode "b" [] okScript] ["a"].

Definition singleWorkflow : WorkflowDefinition :=
  mkWorkflow [mkNode "a" [] okScript] ["a"].

Definition withRetry (attempts : Z) (node : NodeConfig) : NodeConfig :=
  {| id := id node; dependencies := dependencies node;
     retryPolicy := Some {| maxAttempts := attempts; backoff := linear;
                            initialDelay := 100 |};
     timeout := timeout node; overrides := overrides node; kind := kind node |}.







(** The reading of the specification for a cancelled run: every node still
    to run has an entry with status [skipped]. *)
Definition remainingMarkedSkipped (r : WorkflowExecutionResult)
    (remaining : list string) : Prop :=
  ∀ n, n ∈ remaining →
       ∃ res, nodeResults r !! n = Some res ∧ status res = SKIPPED.

(* ===================================================================== *)
(** * Notions used by the further properties *)
(* ===================================================================== *)

(** The [node_error] events of failed attempts numbered from [first]. *)
Definition errorEvents (nid : string) (first : Z) (errs : list string)
    : list ExecutionEvent :=
  imap (λ i e, node_error nid e (first + Z.of_nat i)) errs.

(** What [if (result.output !== undefined) context.outputs[nodeId] =
    result.output] stores for an output. *)
Definition recorded (o : JSValue) : option JSValue :=
  match o with JUndefined => None | _ => Some o end.

(** The result [r] recorded for [x] came out of [executeNode] on the node of
    the workflow with that id. *)
Definition producedBy {Ext} `{!World Ext} (workflow : WorkflowDefinition)
    (x : string) (r : NodeExecutionResult) : Prop :=
  ∃ node (m m' : Machine Ext),
    node ∈ nodes workflow ∧ id node = x ∧ executeNode node m = Some (r, m').

(** The ids of the [node_start] events of a log, in the order of the log. *)
Definition startedNodes (log : list ExecutionEvent) : list string :=
  omap (λ ev, match ev with node_start x => Some x | _ => None end) log.

(** In the log, every [node_start] comes after a [node_complete] of each
    dependency of the node the engine runs under that id. *)
Definition startsAfterDependencies (workflow : WorkflowDefinition)
    (log : list ExecutionEvent) : Prop :=
  ∀ l1 b l2 node a,
    log = (l1 ++ node_start b :: l2)%list →
    findNode workflow b = Some node → a ∈ dependencies node →
    ∃ o, node_complete a o ∈ l1.

(** The state of the node loop once it has gone through the ids [done]
    without being cancelled. *)
Record RunInv {Ext} `{!World Ext} (workflow : WorkflowDefinition)
    (done : list string) (st : RunState Ext) : Prop := {
  ri_keys : ∀ x, is_Some (run_results st !! x) ↔ x ∈ done;
  ri_result : ∀ x r, run_results st !! x = Some r →
      r = skippedResult x ∨ producedBy workflow x r;
  ri_skip : ∀ x r, run_results st !! x = Some r → status r = SKIPPED →
      ∃ f rf, tc (dependsOn (nodes workflow)) x f
              ∧ run_results st !! f = Some rf ∧ status rf = FAILED;
  ri_status :
      (run_status st = success
       ∧ ∀ x r, run_results st !! x = Some r → status r = SUCCESS)
      ∨ (run_status st = failed
         ∧ ∃ x r, run_results st !! x = Some r ∧ status r = FAILED);
  ri_started : ∀ x, node_start x ∈ events (machine st)
      ↔ ∃ r, run_results st !! x = Some r ∧ status r ≠ SKIPPED;
  ri_once : NoDup (startedNodes (events (machine st)));
  ri_outputs : ∀ x, bodiesKeepOutput x →
      outputs (ctx (machine st)) !! x
      = run_results st !! x ≫= λ r, recorded (output r);
}.

(** The loop was cancelled when it reached [n]: the state is the one after
    the ids before [n], with the status [partial]. *)
Definition stoppedAt {Ext} `{!World Ext} (workflow : WorkflowDefinition)
    (order : list string) (st' : RunState Ext) : Prop :=
  ∃ l1 n l2 st1,
    order = (l1 ++ n :: l2)%list ∧ RunInv workflow l1 st1
    ∧ aborted (ext (machine st1)) = true
    ∧ st' = {| run_results := run_results st1; run_status := partial;
               machine := machine st1 |}.

(** The machine after [if (result.output !== undefined)
    context.outputs[nodeId] = result.output]. *)
Definition storeOutput {Ext} (nodeId : string) (r : NodeExecutionResult)
    (m : Machine Ext) : Machine Ext :=
  match output r with
  | JUndefined => m
  | o => withCtx (withOutputs (<[nodeId := o]> (outputs (ctx m))) (ctx m)) m
  end.

(** A workflow of the unit tests: a dependency on an id no node has. *)
Definition danglingWorkflow : WorkflowDefinition :=
  mkWorkflow [mkNode "node-1" ["non-existent"] okScript] ["node-1"].

(** Successful results have their [node_complete] in the log. *)
Definition completionsLogged {Ext} (st : RunState Ext) : Prop :=
  ∀ x r, run_results st !! x = Some r → status r = SUCCESS →
         ∃ o, node_complete x o ∈ events (machine st).

(** The ids a list of nodes mentions, in the order [buildDependencyGraph]
    meets them: each node's id, then its dependencies. *)
Definition mentionedIds (ns : list NodeConfig) : list string :=
  concat ((λ node, id node :: dependencies node) <$> ns).

(** No [.] in a property name. *)
Fixpoint noDot (s : string) : bool :=
  match s with
  | EmptyString => true
  | String c rest => negb (Ascii.eqb c "."%char) && noDot rest
  end.

(** Every set of dependents of a graph is duplicate-free. *)
Definition setsNoDup (g : OrderedMap.t (list string)) : Prop :=
  ∀ x ds, OrderedMap.get g x = Some ds → NoDup ds.

(* ===================================================================== *)
(** ** [ModelManager]: the choice of a model by tags *)
(* ===================================================================== *)

(** [ModelInfo], with the fields the selection reads. *)
Record ModelInfo : Type := {
  model_id : string;
  model_name : string;
  model_tags : list string;
}.

(** [s.includes(t)] *)
Fixpoint includes (s t : string) : bool :=
  String.prefix t s
  || match s with
     | EmptyString => false
     | String _ rest => includes rest t
     end.

Section SelectModel.
(** [String.prototype.toLowerCase] is left open. *)
Variable toLowerCase : string → string.

(** [model.tags.some(modelTag =>
      modelTag.toLowerCase().includes(tag.toLowerCase()))] *)
Definition hasTag (model : ModelInfo) (tag : string) : bool :=
  existsb (λ modelTag, includes (toLowerCase modelTag) (toLowerCase tag))
          (model_tags model).

(** [tags.filter(tag => ...).length] *)
Definition matchCount (tags : list string) (model : ModelInfo) : nat :=
  length (List.filter (hasTag model) tags).

(** The second loop: the model with the most matching tags so far. *)
Definition bestMatchLoop (tags : list string) (models : list ModelInfo)
    : option ModelInfo * nat :=
  foldl (λ '(bestMatch, maxMatches) model,
           let matches := matchCount tags model in
           if (maxMatches <? matches)%nat then (Some model, matches)
           else (bestMatch, maxMatches))
        (None, 0%nat) models.

(** [selectModelByTags(tags)]; [models] is [Array.from(this.models.values())],
    the registered models in insertion order. *)
Definition selectModelByTags (models : list ModelInfo) (tags : list string)
    : option ModelInfo :=
  match List.find (λ model, forallb (hasTag model) tags) models with
  | Some model => Some model
  | None => (bestMatchLoop tags models).1
  end.

End SelectModel.

(* ===================================================================== *)
(** ** [ExtensionManager] *)
(* ===================================================================== *)

(** [CustomNodeType]; the schema and the executor are not read by the
    manager. *)
Record CustomNodeType : Type := {
  nt_type : string;
  nt_name : string;
  nt_description : string;
}.

(** [PluginExtension]. The callbacks [initialize] and [dispose] are kept as
    their outcome ([None]: no callback); they are taken not to call back
    into the manager. *)
Record PluginExtension : Type := {
  ext_id : string;
  ext_name : string;
  ext_version : string;
  nodeTypes : option (list CustomNodeType);
  initialize : option (Completion unit);
  dispose : option (Completion unit);
}.

(** The two maps of the manager. *)
Record ExtensionManager : Type := {
  extensions : gmap string PluginExtension;
  customNodeTypes : gmap string CustomNodeType;
}.

Definition registerCustomNodeType (nodeType : CustomNodeType)
    (s : ExtensionManager) : Completion unit * ExtensionManager :=
  match customNodeTypes s !! nt_type nodeType with
  | Some _ =>
      (Thrown (ErrorObj ("Custom node type already registered: "
                         +:+ nt_type nodeType)), s)
  | None =>
      (Returned (),
       {| extensions := extensions s;
          customNodeTypes := <[nt_type nodeType := nodeType]> (customNodeTypes s) |})
  end.

(** [for (const nodeType of extension.nodeTypes)
       this.registerCustomNodeType(nodeType)] *)
Fixpoint registerNodeTypes (nts : list CustomNodeType) (s : ExtensionManager)
    : Completion unit * ExtensionManager :=
  match nts with
  | [] => (Returned (), s)
  | nodeType :: rest =>
      match registerCustomNodeType nodeType s with
      | (Thrown e, s') => (Thrown e, s')
      | (Returned _, s') => registerNodeTypes rest s'
      end
  end.

Definition registerExtension (extension : PluginExtension)
    (s : ExtensionManager) : Completion unit * ExtensionManager :=
  match extensions s !! ext_id extension with
  | Some _ =>
      (Thrown (ErrorObj ("Extension already registered: "
                         +:+ ext_id extension)), s)
  | None =>
      match initialize extension with
      | Some (Thrown e) => (Thrown e, s)
      | _ =>
          match registerNodeTypes (default [] (nodeTypes extension)) s with
          | (Thrown e, s') => (Thrown e, s')
          | (Returned _, s') =>
              (Returned (),
               {| extensions := <[ext_id extension := extension]> (extensions s');
                  customNodeTypes := customNodeTypes s' |})
          end
      end
  end.

Definition unregisterExtension (extensionId : string) (s : ExtensionManager)
    : Completion unit * ExtensionManager :=
  match extensions s !! extensionId with
  | None => (Returned (), s)
  | Some extension =>
      match dispose extension with
      | Some (Thrown e) => (Thrown e, s)
      | _ =>
          (Returned (),
           {| extensions := delete extensionId (extensions s);
              customNodeTypes :=
                foldl (λ m nodeType, delete (nt_type nodeType) m)
                      (customNodeTypes s) (default [] (nodeTypes extension)) |})
      end
  end.

Definition getCustomNode (type : string) (s : ExtensionManager)
    : option CustomNodeType :=
  customNodeTypes s !! type.

Definition isCustomNodeType (type : string) (s : ExtensionManager) : bool :=
  bool_decide (is_Some (customNodeTypes s !! type)).

(** [model] is the first model of the list with the greatest count. *)
Definition firstGreatest {A} (count : A → nat) (l : list A) (model : A) : Prop :=
  ∃ l1 l2, l = (l1 ++ model :: l2)%list
    ∧ (∀ m, m ∈ l1 → (count m < count model)%nat)
    ∧ (∀ m, m ∈ l2 → (count m ≤ count model)%nat).

(** What the second loop of [selectModelByTags] holds after the models
    [seen]. *)
Definition bestSoFar {A} (count : A → nat) (seen : list A)
    (best : option A * nat) : Prop :=
  match best.1 with
  | None => best.2 = 0%nat ∧ ∀ m, m ∈ seen → count m = 0%nat
  | Some b => best.2 = count b ∧ (0 < count b)%nat ∧ firstGreatest count seen b
  end.

(** An extension of the examples, and the empty manager. *)
Definition mkNodeType (t : string) : CustomNodeType :=
  {| nt_type := t; nt_name := t; nt_description := EmptyString |}.

Definition mkExtension (i : string) (nts : list CustomNodeType)
    : PluginExtension :=
  {| ext_id := i; ext_name := i; ext_version := "1.0.0";
     nodeTypes := Some nts; initialize := None; dispose := None |}.

Definition emptyManager : ExtensionManager :=
  {| extensions := ∅; customNodeTypes := ∅ |}.

(** What a call of [visit] gives on any graph: the guarantee of [SortInv.post]
    or the one error it throws. *)
Definition visitOutcome (g : OrderedMap.t (list string)) (nodeId : string)
    (st : TopologicalSort.State) (c : Completion TopologicalSort.State) : Prop :=
  match c with
  | Returned st' => SortInv.post g nodeId st st'
  | Thrown e => e = ErrorObj "Circular dependency detected"
  end.


(** A world where nothing is ever cancelled, no timer wins and every
    outside body returns [undefined]. *)
Definition CalmWorld : World unit := {|
  aborted _ := false;
  uuidv4 e := ("execution-1", e);
  evalExpression _ ec e := (Returned (JBool true), ec, e);
  external _ c e := (Returned JUndefined, c, e);
  sleep _ e := e;
  timerWins _ _ := false;
|}.

(* ===================================================================== *)
(** * Properties *)
(* ===================================================================== *)

(** ** Ordered maps, lists and closures *)

Section OrderedMapFacts.
Context {V : Type}.
Implicit Types (m : OrderedMap.t V) (k x : string) (v : V).

Lemma get_set m k v x :
  OrderedMap.get (OrderedMap.set m k v) x
  = if decide (k = x) then Some v else OrderedMap.get m x.
Proof.
  induction m as [|[k' v'] m IH]; simpl.
  - repeat case_decide; congruence.
  - destruct (decide (k' = k)) as [->|Hne]; simpl.
    + repeat case_decide; congruence.
    + rewrite IH. repeat case_decide; congruence.
Qed.

Lemma keys_set m k v x :
  x ∈ OrderedMap.keys (OrderedMap.set m k v) ↔ x = k ∨ x ∈ OrderedMap.keys m.
Proof.
  unfold OrderedMap.keys. induction m as [|[k' v'] m IH]; simpl.
  - set_solver.
  - destruct (decide (k' = k)) as [->|Hne]; simpl; set_solver.
Qed.

Lemma get_None m k : OrderedMap.get m k = None ↔ k ∉ OrderedMap.keys m.
Proof.
  unfold OrderedMap.keys. induction m as [|[k' v'] m IH]; simpl.
  - set_solver.
  - case_decide; subst; [|rewrite IH]; set_solver.
Qed.

Lemma get_Some_keys m k v : OrderedMap.get m k = Some v → k ∈ OrderedMap.keys m.
Proof.
  intros Hget. destruct (decide (k ∈ OrderedMap.keys m)) as [|Hn]; [done|].
  apply get_None in Hn. congruence.
Qed.

Lemma length_set_keys m : length (OrderedMap.keys m) = length m.
Proof. unfold OrderedMap.keys. by rewrite length_fmap. Qed.
End OrderedMapFacts.

Lemma size_list_to_set_le (l : list string) :
  (size (list_to_set (C := gset string) l) ≤ length l)%nat.
Proof.
  induction l as [|x l IH].
  - by rewrite list_to_set_nil, size_empty.
  - rewrite list_to_set_cons, size_union_alt, size_singleton. simpl.
    assert (size (list_to_set (C := gset string) l ∖ {[x]})
            ≤ size (list_to_set (C := gset string) l))%nat as Hle
      by (apply subseteq_size; set_solver).
    lia.
Qed.

Lemma edge_key g x y : edge g x y → x ∈ OrderedMap.keys g.
Proof.
  unfold edge. destruct (OrderedMap.get g x) eqn:Hg; simpl.
  - intros _. by eapply get_Some_keys.
  - set_solver.
Qed.

Lemma NoDup_reverse {A} (l : list A) : NoDup l → NoDup (reverse l).
Proof.
  induction l as [|x l IH]; [done|].
  intros [Hx Hl]%NoDup_cons. rewrite reverse_cons.
  apply NoDup_app. split_and!; [by apply IH| |apply NoDup_singleton].
  intros y Hy Hy'%list_elem_of_singleton. subst. apply Hx. by rewrite <- elem_of_reverse.
Qed.

Lemma find_app {A} (f : A → bool) (l1 l2 : list A) :
  List.find f (l1 ++ l2)
  = match List.find f l1 with Some x => Some x | None => List.find f l2 end.
Proof. induction l1 as [|x l1 IH]; simpl; [done|]. by destruct (f x). Qed.

(** ** [detectCycle] finds every cycle *)

Lemma tc_first_step {A} (R : relation A) x z :
  tc R x z → ∃ y, R x y ∧ rtc R y z.
Proof.
  destruct 1 as [x z Hxz|x y z Hxy Hyz].
  - exists z. split; [done|]. apply rtc_refl.
  - exists y. split; [done|]. by apply tc_rtc.
Qed.

Module DetectCycleFacts.
Import DetectCycle CycleInv.

Section Graph.
Variable g : OrderedMap.t (list string).

Lemma finished_reach st x y :
  Inv g st → finished st x → rtc (edge g) x y → finished st y.
Proof.
  intros HI Hx Hxy. induction Hxy as [|x y z Hxy _ IH]; [done|].
  apply IH. destruct Hx. by eapply inv_closed.
Qed.

Lemma neighborsLoop_spec rec base ns st :
  (∀ n s, n ∈ ns → Inv g s → base ⊆ visited s → n ∉ visited s →
          ∃ b s', rec n s = Some (b, s') ∧ (b = false → post g n s s')) →
  Inv g st → base ⊆ visited st →
  ∃ b st', neighborsLoop rec ns st = Some (b, st')
    ∧ (b = false →
       Inv g st' ∧ visited st ⊆ visited st' ∧ recStack st' = recStack st
       ∧ ∀ n, n ∈ ns → finished st' n).
Proof.
  revert st. induction ns as [|n ns IH]; intros st Hrec HI Hbase; simpl.
  - eexists _, _. split; [done|]. intros _. split_and!; try done.
    intros n Hn. by apply elem_of_nil in Hn.
  - destruct (decide (n ∈ visited st)) as [Hv|Hv].
    + destruct (decide (n ∈ recStack st)) as [Hr|Hr].
      * eexists _, _. split; [done|]. done.
      * destruct (IH st) as (b & st' & Heq & Hpost); [|done..|].
        { intros m s Hm. apply Hrec. apply elem_of_cons. by right. }
        exists b, st'. split; [done|]. intros ->.
        destruct (Hpost eq_refl) as (HI' & Hsub & Hrs & Hfin).
        split_and!; try done.
        intros m [->|Hm]%elem_of_cons; [|by apply Hfin].
        split; [set_solver|]. rewrite Hrs. done.
    + destruct (Hrec n st) as (b & s' & Heq & Hpost);
        [apply elem_of_cons; by left|done..|].
      rewrite Heq. destruct b.
      * eexists _, _. split; [done|]. done.
      * destruct (Hpost eq_refl) as (HI' & Hsub & Hn & Hrs).
        destruct (IH s') as (b & st' & Heq' & Hpost'); [|done|set_solver|].
        { intros m s Hm. apply Hrec. apply elem_of_cons. by right. }
        exists b, st'. split; [done|]. intros ->.
        destruct (Hpost' eq_refl) as (HI'' & Hsub' & Hrs' & Hfin).
        split_and!; [done|set_solver|congruence|].
        intros m [->|Hm]%elem_of_cons; [|by apply Hfin].
        split; [set_solver|]. rewrite Hrs', Hrs.
        pose proof (inv_stack _ _ HI). set_solver.
Qed.

Lemma hasCycleUtil_spec fuel nodeId st :
  (size (keySet g ∖ visited st) < fuel)%nat → Inv g st → nodeId ∉ visited st →
  ∃ b st', hasCycleUtil fuel g nodeId st = Some (b, st')
    ∧ (b = false → post g nodeId st st').
Proof.
  revert nodeId st. induction fuel as [|fuel IH]; intros nodeId st Hfuel HI Hnv;
    [lia|]. simpl.
  set (st1 := {| visited := {[nodeId]} ∪ visited st;
                 recStack := {[nodeId]} ∪ recStack st |}).
  assert (Inv g st1) as HI1.
  { pose proof (inv_stack _ _ HI). split; simpl.
    - set_solver.
    - intros x y Hx Hxr Hxy.
      destruct (inv_closed _ _ HI x y) as [Hy Hyr]; [set_solver..|done|].
      split; set_solver.
    - intros x Hx Hxr. apply (inv_acyclic _ _ HI); set_solver. }
  destruct (neighborsLoop_spec (hasCycleUtil fuel g) (visited st1)
              (default [] (OrderedMap.get g nodeId)) st1)
    as (b & st' & Heq & Hpost); [|done|done|].
  { intros n s Hn HIs Hbase Hns. apply IH; [|done..].
    assert (nodeId ∈ keySet g) as HK.
    { unfold keySet. rewrite elem_of_list_to_set. eapply edge_key. exact Hn. }
    assert (keySet g ∖ visited s ⊂ keySet g ∖ visited st) as Hsub.
    { simpl in Hbase. apply strict_spec_alt. split; [set_solver|].
      intros Heq. assert (nodeId ∈ keySet g ∖ visited st) as Hin by set_solver.
      rewrite <- Heq in Hin. set_solver. }
    apply subset_size in Hsub. lia. }
  rewrite Heq. destruct b.
  - eexists _, _. split; [done|]. done.
  - destruct (Hpost eq_refl) as (HI' & Hsub & Hrs & Hfin).
    eexists _, _. split; [done|]. intros _.
    pose proof (inv_stack _ _ HI) as Hst. pose proof (inv_stack _ _ HI') as Hst'.
    assert (nodeId ∈ visited st') as Hid by (simpl in Hsub; set_solver).
    assert (nodeId ∈ recStack st') as Hidr by (rewrite Hrs; simpl; set_solver).
    unfold post. split_and!; simpl.
    + split; simpl.
      * set_solver.
      * intros x y Hx Hxr Hxy. destruct (decide (x = nodeId)) as [->|Hne].
        -- destruct (Hfin y Hxy). set_solver.
        -- destruct (inv_closed _ _ HI' x y); [set_solver..|done|]. set_solver.
      * intros x Hx Hxr. destruct (decide (x = nodeId)) as [->|Hne].
        -- intros (y & Hxy & Hback)%tc_first_step.
           assert (finished st' nodeId) as [_ Hbad]; [|done].
           eapply finished_reach; [done|by apply Hfin|done].
        -- apply (inv_acyclic _ _ HI'); set_solver.
    + simpl in Hsub. set_solver.
    + done.
    + rewrite Hrs. simpl. set_solver.
Qed.

Lemma cycle_keysLoop_spec fuel ks st :
  (size (keySet g) < fuel)%nat → Inv g st → recStack st = ∅ →
  ∃ b, keysLoop fuel g ks st = Some b
    ∧ (b = false → ∀ x, x ∈ ks → ¬ tc (edge g) x x).
Proof.
  intros Hfuel. revert st. induction ks as [|k ks IH]; intros st HI Hrs; simpl.
  - exists false. split; [done|]. set_solver.
  - destruct (decide (k ∈ visited st)) as [Hv|Hv].
    + destruct (IH st) as (b & Heq & Hpost); [done..|].
      exists b. split; [done|]. intros -> x [->|Hx]%elem_of_cons.
      * apply (inv_acyclic _ _ HI); set_solver.
      * by apply Hpost.
    + destruct (hasCycleUtil_spec fuel k st) as (b & st' & Heq & Hpost);
        [|done..|].
      { assert (size (keySet g ∖ visited st) ≤ size (keySet g))%nat
          by (apply subseteq_size; set_solver). lia. }
      rewrite Heq. destruct b; [by exists true|].
      destruct (Hpost eq_refl) as (HI' & Hsub & Hk & Hrs').
      destruct (IH st') as (b & Heq' & Hpost'); [done|congruence|].
      exists b. split; [done|]. intros -> x [->|Hx]%elem_of_cons.
      * apply (inv_acyclic _ _ HI'); [done|]. rewrite Hrs', Hrs. set_solver.
      * by apply Hpost'.
Qed.
End Graph.

Lemma detect_spec (g : OrderedMap.t (list string)) :
  ∃ b, keysLoop (S (length g)) g (OrderedMap.keys g)
         {| visited := ∅; recStack := ∅ |} = Some b
    ∧ (b = false → ∀ x, ¬ tc (edge g) x x).
Proof.
  destruct (cycle_keysLoop_spec g (S (length g)) (OrderedMap.keys g)
              {| visited := ∅; recStack := ∅ |}) as (b & Heq & Hpost).
  - unfold keySet. pose proof (size_list_to_set_le (OrderedMap.keys g)).
    rewrite length_set_keys in *. lia.
  - split; simpl; set_solver.
  - done.
  - exists b. split; [done|]. intros -> x Hcyc.
    apply (Hpost eq_refl x); [|done].
    inversion Hcyc; subst; by eapply edge_key.
Qed.
End DetectCycleFacts.

(** ** [topologicalSort] on an acyclic graph *)

Module SortFacts.
Import TopologicalSort SortInv.

Section Graph.
Variable g : OrderedMap.t (list string).
Hypothesis acyclic : ∀ x, ¬ tc (edge g) x x.
Hypothesis closed : ∀ x y, edge g x y → y ∈ keySet g.

Lemma dependentsLoop_spec rec ds st :
  (∀ d s, d ∈ ds → Inv g s → temp s = temp st →
          ∃ s', rec d s = Some (Returned s') ∧ post g d s s') →
  Inv g st →
  ∃ st', dependentsLoop rec ds st = Some (Returned st')
    ∧ Inv g st' ∧ temp st' = temp st ∧ visited st ⊆ visited st'
    ∧ ∀ d, d ∈ ds → d ∈ visited st'.
Proof.
  revert st. induction ds as [|d ds IH]; intros st Hrec HI; simpl.
  - exists st. split_and!; try done. intros d Hd. by apply elem_of_nil in Hd.
  - destruct (Hrec d st) as (s' & Heq & HI' & Ht & Hsub & Hd);
      [apply elem_of_cons; by left|done..|].
    rewrite Heq.
    destruct (IH s') as (st' & Heq' & HI'' & Ht' & Hsub' & Hds); [|done|].
    { intros d' s Hd' HIs Hts. apply Hrec; [|done|congruence].
      apply elem_of_cons. by right. }
    exists st'. split_and!; [done|done|congruence|set_solver|].
    intros d' [->|Hd']%elem_of_cons; [set_solver|by apply Hds].
Qed.

Lemma visit_spec fuel nodeId st :
  (size (keySet g ∖ temp st) < fuel)%nat → Inv g st → nodeId ∈ keySet g →
  (∀ t, t ∈ temp st → tc (edge g) t nodeId) →
  ∃ st', visit fuel g nodeId st = Some (Returned st') ∧ post g nodeId st st'.
Proof.
  revert nodeId st.
  induction fuel as [|fuel IH]; intros nodeId st Hfuel HI HK Hpath; [lia|].
  simpl. destruct (decide (nodeId ∈ temp st)) as [Ht|Ht].
  { destruct (acyclic nodeId). by apply Hpath. }
  destruct (decide (nodeId ∈ visited st)) as [Hv|Hv].
  { exists st. split; [done|]. by split_and!. }
  set (st1 := {| result := result st; visited := visited st;
                 temp := {[nodeId]} ∪ temp st |}).
  assert (Inv g st1) as HI1.
  { destruct HI. split; simpl; try done. set_solver. }
  destruct (dependentsLoop_spec (visit fuel g)
              (default [] (OrderedMap.get g nodeId)) st1)
    as (st' & Heq & HI' & Ht' & Hsub & Hds); [|done|].
  { intros d s Hd HIs Hts. apply IH; [|done|by eapply closed|].
    - assert (keySet g ∖ temp s ⊂ keySet g ∖ temp st) as Hlt.
      { rewrite Hts. simpl. apply strict_spec_alt. split; [set_solver|].
        intros Heq. assert (nodeId ∈ keySet g ∖ temp st) as Hin by set_solver.
        rewrite <- Heq in Hin. set_solver. }
      apply subset_size in Hlt. lia.
    - intros t. rewrite Hts. simpl.
      intros [->%elem_of_singleton|Hin]%elem_of_union.
      + by apply tc_once.
      + eapply tc_r; [by apply Hpath|done]. }
  rewrite Heq. eexists. split; [done|]. simpl in Ht', Hsub.
  destruct HI' as [Hmem Hnd Hdisj Hsort Hkeys].
  assert (nodeId ∉ result st') as Hfresh.
  { rewrite <- Hmem. set_solver. }
  unfold post. split_and!; simpl.
  - split; simpl.
    + intros x. rewrite elem_of_app, elem_of_union, Hmem. set_solver.
    + apply NoDup_app. split_and!; [done| |apply NoDup_singleton].
      intros x Hx ->%list_elem_of_singleton. done.
    + set_solver.
    + rewrite reverse_snoc. simpl. split; [|done].
      intros y Hy. apply elem_of_reverse, Hmem. by apply Hds.
    + set_solver.
  - rewrite Ht'. set_solver.
  - set_solver.
  - set_solver.
Qed.

Lemma sort_keysLoop_spec fuel ks st :
  (size (keySet g) < fuel)%nat → (∀ k, k ∈ ks → k ∈ keySet g) →
  Inv g st → temp st = ∅ →
  ∃ st', keysLoop fuel g ks st = Some (Returned st')
    ∧ Inv g st' ∧ temp st' = ∅ ∧ visited st ⊆ visited st'
    ∧ ∀ k, k ∈ ks → k ∈ visited st'.
Proof.
  intros Hfuel. revert st.
  induction ks as [|k ks IH]; intros st Hks HI Ht; simpl.
  - exists st. split_and!; try done. intros k Hk. by apply elem_of_nil in Hk.
  - assert (∀ k', k' ∈ ks → k' ∈ keySet g) as Hks'.
    { intros k' Hk'. apply Hks, elem_of_cons. by right. }
    destruct (decide (k ∈ visited st)) as [Hv|Hv].
    + destruct (IH st) as (st' & Heq & HI' & Ht' & Hsub & Hall); [done..|].
      exists st'. split_and!; try done.
      intros k' [->|Hk']%elem_of_cons; [set_solver|by apply Hall].
    + destruct (visit_spec fuel k st) as (s' & Heq & HI' & Ht' & Hsub & Hk);
        [|done| |rewrite Ht; set_solver|].
      { assert (size (keySet g ∖ temp st) ≤ size (keySet g))%nat
          by (apply subseteq_size; set_solver). lia. }
      { apply Hks, elem_of_cons. by left. }
      rewrite Heq.
      destruct (IH s') as (st' & Heq' & HI'' & Ht'' & Hsub' & Hall);
        [done|done|congruence|].
      exists st'. split_and!; [done|done|done|set_solver|].
      intros k' [->|Hk']%elem_of_cons; [set_solver|by apply Hall].
Qed.

Lemma topologicalSort_spec :
  ∃ order, topologicalSort g = Some (Returned order)
    ∧ NoDup order ∧ topoSorted g order
    ∧ ∀ x, x ∈ order ↔ x ∈ OrderedMap.keys g.
Proof.
  unfold topologicalSort.
  destruct (sort_keysLoop_spec (S (length g)) (OrderedMap.keys g)
              {| result := []; visited := ∅; temp := ∅ |})
    as (st' & Heq & [Hmem Hnd Hdisj Hsort Hkeys] & Ht & _ & Hall).
  - unfold keySet. pose proof (size_list_to_set_le (OrderedMap.keys g)).
    rewrite length_set_keys in *. lia.
  - intros k Hk. unfold keySet. by apply elem_of_list_to_set.
  - split; simpl; try done; [set_solver|apply NoDup_nil_2].
  - done.
  - rewrite Heq. eexists. split_and!; [done|by apply NoDup_reverse|done|].
    intros x. rewrite elem_of_reverse, <- Hmem. split.
    + intros Hx. apply Hkeys in Hx. unfold keySet in Hx.
      by apply elem_of_list_to_set in Hx.
    + apply Hall.
Qed.
End Graph.

Lemma topoSorted_precedes g order x y :
  topoSorted g order → x ∈ order → edge g x y → precedes x y order.
Proof.
  induction order as [|z rest IH]; simpl.
  { intros _ Hx. by apply elem_of_nil in Hx. }
  intros [Hz Hrest] Hx Hxy.
  destruct (decide (x = z)) as [->|Hne].
  - destruct (list_elem_of_split _ _ (Hz _ Hxy)) as (l2 & l3 & Heq).
    exists [], l2, l3. by rewrite Heq.
  - apply elem_of_cons in Hx as [->|Hx]; [done|].
    destruct (IH Hrest Hx Hxy) as (l1 & l2 & l3 & Heq).
    exists (z :: l1), l2, l3. by rewrite Heq.
Qed.
End SortFacts.

(** ** The graphs the engine builds *)

Section GraphBuilding.
Implicit Types (g : OrderedMap.t (list string)) (ns : list NodeConfig).

Lemma edge_nil x y : ¬ edge [] x y.
Proof. unfold edge. simpl. by intros ?%elem_of_nil. Qed.

Lemma edge_ensureKey g k x y : edge (ensureKey g k) x y ↔ edge g x y.
Proof.
  unfold ensureKey, OrderedMap.has, edge.
  destruct (OrderedMap.get g k) eqn:Hk; [done|].
  rewrite get_set. case_decide; [subst; rewrite Hk|done].
  simpl. split; by intros ?%elem_of_nil.
Qed.

Lemma keys_ensureKey g k x :
  x ∈ OrderedMap.keys (ensureKey g k) ↔ x = k ∨ x ∈ OrderedMap.keys g.
Proof.
  unfold ensureKey, OrderedMap.has.
  destruct (OrderedMap.get g k) eqn:Hk; [|apply keys_set].
  apply get_Some_keys in Hk. split; [by right|]. by intros [->|?].
Qed.

Lemma elem_of_add (s : list string) n y :
  y ∈ OrderedMap.add s n ↔ y ∈ s ∨ y = n.
Proof.
  unfold OrderedMap.add. case_decide.
  - split; [by left|]. by intros [?| ->].
  - by rewrite elem_of_app, list_elem_of_singleton.
Qed.

Lemma edge_addDependent g d n x y :
  d ∈ OrderedMap.keys g →
  edge (addDependent g d n) x y ↔ edge g x y ∨ (x = d ∧ y = n).
Proof.
  intros Hd. unfold addDependent, edge.
  destruct (OrderedMap.get g d) as [ds|] eqn:Hg.
  - rewrite get_set. case_decide; subst.
    + rewrite Hg. simpl. rewrite elem_of_add. naive_solver.
    + naive_solver.
  - by apply get_None in Hg.
Qed.

Lemma keys_addDependent g d n x :
  x ∈ OrderedMap.keys (addDependent g d n) ↔ x ∈ OrderedMap.keys g.
Proof.
  unfold addDependent. destruct (OrderedMap.get g d) as [ds|] eqn:Hg; [|done].
  rewrite keys_set. apply get_Some_keys in Hg. naive_solver.
Qed.

(** The inner loop of [buildDependencyGraph], over the dependencies of one
    node with id [n]. *)
Lemma dependencies_fold n deps g x y :
  let g' := foldl (λ g depId, addDependent (ensureKey g depId) depId n) g deps in
  (x ∈ OrderedMap.keys g' ↔ x ∈ OrderedMap.keys g ∨ x ∈ deps)
  ∧ (edge g' x y ↔ edge g x y ∨ (x ∈ deps ∧ y = n)).
Proof.
  revert g. induction deps as [|d deps IH]; intros g; simpl.
  - split; [rewrite elem_of_nil|rewrite elem_of_nil]; naive_solver.
  - destruct (IH (addDependent (ensureKey g d) d n)) as [Hk He].
    split.
    + rewrite Hk, keys_addDependent, keys_ensureKey, elem_of_cons. naive_solver.
    + rewrite He, edge_addDependent, edge_ensureKey, elem_of_cons;
        [naive_solver|].
      apply keys_ensureKey. by left.
Qed.

Lemma nodes_fold ns g x y :
  let g' := foldl (λ graph node,
              foldl (λ g depId, addDependent (ensureKey g depId) depId (id node))
                    (ensureKey graph (id node)) (dependencies node)) g ns in
  (x ∈ OrderedMap.keys g' ↔
     x ∈ OrderedMap.keys g
     ∨ ∃ node, node ∈ ns ∧ (x = id node ∨ x ∈ dependencies node))
  ∧ (edge g' x y ↔ edge g x y ∨ dependsOn ns y x).
Proof.
  revert g. induction ns as [|node ns IH]; intros g; simpl.
  - split; [|unfold dependsOn]; setoid_rewrite elem_of_nil; naive_solver.
  - match goal with |- context [foldl _ ?acc ns] => destruct (IH acc) as [Hk He] end.
    destruct (dependencies_fold (id node) (dependencies node)
                (ensureKey g (id node)) x y) as [Hk' He'].
    split.
    + rewrite Hk, Hk', keys_ensureKey. setoid_rewrite elem_of_cons. naive_solver.
    + rewrite He, He', edge_ensureKey. unfold dependsOn.
      setoid_rewrite elem_of_cons. naive_solver.
Qed.

Lemma buildDependencyGraph_edge ns x y :
  edge (buildDependencyGraph ns) x y ↔ dependsOn ns y x.
Proof.
  destruct (nodes_fold ns [] x y) as [_ He]. unfold buildDependencyGraph.
  rewrite He. pose proof (edge_nil x y). naive_solver.
Qed.

Lemma buildDependencyGraph_keys ns x :
  x ∈ OrderedMap.keys (buildDependencyGraph ns) ↔
  ∃ node, node ∈ ns ∧ (x = id node ∨ x ∈ dependencies node).
Proof.
  destruct (nodes_fold ns [] x x) as [Hk _]. unfold buildDependencyGraph.
  rewrite Hk. unfold OrderedMap.keys. simpl. rewrite elem_of_nil. naive_solver.
Qed.

(** The map of [detectCycle]: the last node with a given id wins. *)
Lemma buildGraph_fold ns g x :
  OrderedMap.get
    (foldl (λ g node, OrderedMap.set g (id node) (dependencies node)) g ns) x
  = match List.find (λ n, bool_decide (id n = x)) (reverse ns) with
    | Some node => Some (dependencies node)
    | None => OrderedMap.get g x
    end.
Proof.
  revert g. induction ns as [|node ns IH]; intros g; simpl; [done|].
  rewrite IH, reverse_cons, find_app.
  destruct (List.find _ (reverse ns)); [done|]. simpl.
  rewrite get_set. case_bool_decide; case_decide; congruence.
Qed.

Lemma find_unique ns node :
  NoDup (id <$> ns) → node ∈ ns →
  List.find (λ n, bool_decide (id n = id node)) ns = Some node.
Proof.
  induction ns as [|n ns IH]; simpl; [by intros _ ?%elem_of_nil|].
  intros [Hn Hnd]%NoDup_cons [->|Hin]%elem_of_cons.
  - by rewrite bool_decide_eq_true_2.
  - rewrite bool_decide_eq_false_2; [by apply IH|].
    intros Heq. apply Hn. rewrite Heq. by apply list_elem_of_fmap_2.
Qed.

Lemma buildGraph_edge ns x y :
  NoDup (id <$> ns) → dependsOn ns x y → edge (DetectCycle.buildGraph ns) x y.
Proof.
  intros Hnd (node & Hin & <- & Hy). unfold edge, DetectCycle.buildGraph.
  rewrite buildGraph_fold, (find_unique (reverse ns) node).
  - done.
  - rewrite fmap_reverse. by apply NoDup_reverse.
  - by apply elem_of_reverse.
Qed.
End GraphBuilding.

(** ** Validation *)

Lemma tc_flip {A} (R : relation A) x y : tc (flip R) x y → tc R y x.
Proof.
  induction 1 as [x y Hxy|x y z Hxy _ IH]; [by apply tc_once|].
  eapply tc_r; [exact IH|exact Hxy].
Qed.

Lemma checkDuplicates_Returned ns (seen seen' : gset string) :
  checkDuplicates ns seen = Returned seen' →
  NoDup (id <$> ns) ∧ (∀ x, x ∈ id <$> ns → x ∉ seen)
  ∧ (∀ x, x ∈ seen' ↔ x ∈ seen ∨ x ∈ id <$> ns).
Proof.
  revert seen. induction ns as [|node ns IH]; intros seen; simpl.
  - intros [= <-]. split_and!; [constructor| |].
    + by intros x ?%elem_of_nil.
    + intros x. rewrite elem_of_nil. naive_solver.
  - case_decide as Hin; [done|]. intros Heq.
    destruct (IH _ Heq) as (Hnd & Hfresh & Hseen). split_and!.
    + apply NoDup_cons. split; [|done]. intros Hid.
      apply (Hfresh _ Hid). set_solver.
    + intros x [->|Hx]%elem_of_cons; [done|].
      specialize (Hfresh _ Hx). set_solver.
    + intros x. rewrite Hseen, elem_of_cons. set_solver.
Qed.

Lemma checkNodeDependencies_Returned (nodeIds : gset string) nid deps :
  checkNodeDependencies nodeIds nid deps = Returned () →
  ∀ d, d ∈ deps → d ∈ nodeIds.
Proof.
  induction deps as [|d deps IH]; simpl.
  - by intros _ d ?%elem_of_nil.
  - case_decide; [|done]. intros Heq d' [->|Hd]%elem_of_cons; [done|].
    by apply IH.
Qed.

Lemma checkInvalidDependencies_Returned (nodeIds : gset string) ns :
  checkInvalidDependencies nodeIds ns = Returned () →
  ∀ node d, node ∈ ns → d ∈ dependencies node → d ∈ nodeIds.
Proof.
  induction ns as [|n ns IH]; simpl.
  - by intros _ node d ?%elem_of_nil.
  - destruct (checkNodeDependencies nodeIds (id n) (dependencies n)) as [[]|]
      eqn:Hdeps; [|done].
    intros Heq node d [->|Hin]%elem_of_cons Hd.
    + by eapply checkNodeDependencies_Returned.
    + by eapply IH.
Qed.

Lemma detectCycle_total ns :
  ∃ b, DetectCycle.detectCycle ns = Some b
    ∧ (b = false → ∀ x, ¬ tc (edge (DetectCycle.buildGraph ns)) x x).
Proof. apply DetectCycleFacts.detect_spec. Qed.

Lemma validateWorkflow_total workflow : ∃ c, validateWorkflow workflow = Some c.
Proof.
  unfold validateWorkflow.
  destruct (checkDuplicates _ _); [|by eexists].
  destruct (checkInvalidDependencies _ _); [|by eexists].
  destruct (detectCycle_total (nodes workflow)) as (b & -> & _).
  destruct b; by eexists.
Qed.

Lemma dependsOn_cycle_edge ns x :
  NoDup (id <$> ns) → tc (dependsOn ns) x x →
  tc (edge (DetectCycle.buildGraph ns)) x x.
Proof.
  intros Hnd. apply tc_congruence with (f := λ x, x).
  intros a b. by apply buildGraph_edge.
Qed.

(** A workflow with a cycle never passes validation. *)
Lemma validateWorkflow_cycle workflow :
  hasCycle (nodes workflow) → ∃ e, validateWorkflow workflow = Some (Thrown e).
Proof.
  intros [x Hcyc]. unfold validateWorkflow.
  destruct (checkDuplicates _ _) as [nodeIds|] eqn:Hdup; [|by eexists].
  apply checkDuplicates_Returned in Hdup as (Hnd & _ & _).
  destruct (checkInvalidDependencies _ _); [|by eexists].
  destruct (detectCycle_total (nodes workflow)) as (b & -> & Hacyc).
  destruct b; [by eexists|].
  destruct (Hacyc eq_refl x). by apply dependsOn_cycle_edge.
Qed.

Lemma valid_inv workflow :
  valid workflow →
  NoDup (id <$> nodes workflow)
  ∧ (∀ node d, node ∈ nodes workflow → d ∈ dependencies node →
               d ∈ id <$> nodes workflow)
  ∧ ¬ hasCycle (nodes workflow).
Proof.
  intros Hvalid. split_and!.
  - unfold valid, validateWorkflow in Hvalid.
    destruct (checkDuplicates _ _) as [nodeIds|] eqn:Hdup; [|done].
    by apply checkDuplicates_Returned in Hdup as (Hnd & _ & _).
  - unfold valid, validateWorkflow in Hvalid.
    destruct (checkDuplicates _ _) as [nodeIds|] eqn:Hdup; [|done].
    apply checkDuplicates_Returned in Hdup as (_ & _ & Hids).
    destruct (checkInvalidDependencies _ _) as [[]|] eqn:Hdeps; [|done].
    intros node d Hnode Hd.
    pose proof (checkInvalidDependencies_Returned _ _ Hdeps node d Hnode Hd) as Hin.
    apply Hids in Hin as [Hin|Hin]; [set_solver|done].
  - intros Hcyc. apply validateWorkflow_cycle in Hcyc as [e He].
    unfold valid in Hvalid. congruence.
Qed.

(** The order [executeWorkflow] computes for a workflow that passed
    validation. *)
Lemma executionOrder_spec workflow :
  valid workflow →
  ∃ order,
    TopologicalSort.topologicalSort (buildDependencyGraph (nodes workflow))
    = Some (Returned order)
    ∧ NoDup order
    ∧ (∀ x, x ∈ order ↔ x ∈ id <$> nodes workflow)
    ∧ (∀ node dep, node ∈ nodes workflow → dep ∈ dependencies node →
                   precedes dep (id node) order).
Proof.
  intros (Hnd & Hdeps & Hacyc)%valid_inv.
  set (g := buildDependencyGraph (nodes workflow)).
  assert (∀ x, x ∈ OrderedMap.keys g ↔ x ∈ id <$> nodes workflow) as Hkeys.
  { intros x. unfold g. rewrite buildDependencyGraph_keys. split.
    - intros (node & Hnode & [->|Hd]); [by apply list_elem_of_fmap_2|].
      by eapply Hdeps.
    - intros (node & -> & Hnode)%list_elem_of_fmap. eauto. }
  destruct (SortFacts.topologicalSort_spec g) as (order & Heq & Hnd' & Hsorted & Hmem).
  - intros x Hcyc. apply Hacyc. exists x. apply tc_flip.
    eapply tc_congruence with (f := λ x, x); [|exact Hcyc].
    intros a b Hab. by apply buildDependencyGraph_edge.
  - intros x y (node & Hnode & <- & _)%buildDependencyGraph_edge.
    unfold keySet. apply elem_of_list_to_set, Hkeys.
    by apply list_elem_of_fmap_2.
  - exists order. split_and!; [done|done| |].
    + intros x. by rewrite Hmem.
    + intros node dep Hnode Hdep.
      apply (SortFacts.topoSorted_precedes g); [done| |].
      * apply Hmem, Hkeys. by eapply Hdeps.
      * apply buildDependencyGraph_edge. by exists node.
Qed.

(** ** One node: attempts, events, outputs *)

Section NodeFacts.
Context {Ext : Type} `{!World Ext}.
Implicit Types (m : Machine Ext) (node : NodeConfig).

Lemma execute_events node m : events (execute node m).2 = events m.
Proof.
  unfold execute. destruct (kind node); simpl; try done.
  - unfold executeCondition, evaluateExpression.
    destruct (evalExpression _ _ _) as [[[v|e] ec'] e']; done.
  - unfold executeLoop. by destruct (resolveContextPath _ _).
  - case_decide; [|done]. by destruct (external _ _ _) as [[r c'] e'].
Qed.

Lemma executeWithTimeout_events node m :
  events (executeWithTimeout node m).2 = events m.
Proof.
  unfold executeWithTimeout. pose proof (execute_events node m) as He.
  destruct (timeout node) as [t|]; [|done].
  destruct (Z.eqb t 0); [done|].
  destruct (execute node m) as [r m']. by destruct (timerWins _ _).
Qed.

Lemma attempt_events node m : events (attempt node m).2 = events m.
Proof.
  unfold attempt. destruct (aborted _); [done|]. apply executeWithTimeout_events.
Qed.

Lemma execute_outputs k node m :
  bodiesKeepOutput k →
  outputs (ctx (execute node m).2) !! k = outputs (ctx m) !! k.
Proof.
  intros [Hbody Hexpr]. unfold execute. destruct (kind node); simpl; try done.
  - unfold executeCondition, evaluateExpression.
    match goal with |- context [evalExpression ?x ?ec ?e] =>
      specialize (Hexpr x ec e); destruct (evalExpression x ec e)
        as [[[v|err] ec'] e'] end; done.
  - unfold executeLoop. by destruct (resolveContextPath _ _).
  - case_decide; [|done]. specialize (Hbody node (ctx m) (ext m)).
    by destruct (external _ _ _) as [[r c'] e'].
Qed.

Lemma attempt_outputs k node m :
  bodiesKeepOutput k →
  outputs (ctx (attempt node m).2) !! k = outputs (ctx m) !! k.
Proof.
  intros Hk. unfold attempt. destruct (aborted _); [done|].
  unfold executeWithTimeout. pose proof (execute_outputs k node m Hk) as He.
  destruct (timeout node) as [t|]; [|done].
  destruct (Z.eqb t 0); [done|].
  destruct (execute node m) as [r m']. by destruct (timerWins _ _).
Qed.

Lemma attemptLoop_total fuel node maxA delay b attempts err m :
  (Z.to_nat (maxA - attempts) ≤ fuel)%nat →
  ∃ r m', attemptLoop fuel node maxA delay b attempts err m = Some (r, m').
Proof.
  revert attempts err m.
  induction fuel as [|fuel IH]; intros attempts err m Hfuel; simpl.
  - case_decide; [lia|]. by eexists _, _.
  - case_decide; [|by eexists _, _].
    destruct (attempt node m) as [[output|e] m1]; [by eexists _, _|].
    case_decide; [|by eexists _, _]. apply IH. lia.
Qed.

(** Every event of the attempt loop is about the node. *)
Lemma attemptLoop_events fuel node maxA delay b attempts err m r m' :
  attemptLoop fuel node maxA delay b attempts err m = Some (r, m') →
  ∃ evs, events m' = (events m ++ evs)%list
    ∧ Forall (λ ev, eventNode ev = Some (id node)) evs.
Proof.
  revert attempts err m.
  induction fuel as [|fuel IH]; intros attempts err m; simpl.
  - case_decide; [done|]. intros [= <- <-]. exists []. by rewrite app_nil_r.
  - case_decide; [|intros [= <- <-]; exists []; by rewrite app_nil_r].
    pose proof (attempt_events node m) as Hev.
    destruct (attempt node m) as [[output|e] m1]; simpl in Hev.
    + intros [= <- <-]. eexists [_]. simpl. rewrite Hev. split; [done|].
      by repeat constructor.
    + case_decide.
      * intros (evs & Heq & Hall)%IH. simpl in Heq. rewrite Hev in Heq.
        eexists (_ :: evs). rewrite Heq, <- app_assoc. split; [done|].
        by constructor.
      * intros [= <- <-]. eexists [_]. simpl. rewrite Hev. split; [done|].
        by repeat constructor.
Qed.

Lemma attemptLoop_outputs k fuel node maxA delay b attempts err m r m' :
  bodiesKeepOutput k →
  attemptLoop fuel node maxA delay b attempts err m = Some (r, m') →
  outputs (ctx m') !! k = outputs (ctx m) !! k.
Proof.
  intros Hk. revert attempts err m.
  induction fuel as [|fuel IH]; intros attempts err m; simpl.
  - case_decide; [done|]. by intros [= <- <-].
  - case_decide; [|by intros [= <- <-]].
    pose proof (attempt_outputs k node m Hk) as Hout.
    destruct (attempt node m) as [[output|e] m1]; simpl in Hout.
    + by intros [= <- <-].
    + case_decide; [|by intros [= <- <-]].
      intros ->%IH. done.
Qed.

Lemma executeNode_total node m : ∃ r m', executeNode node m = Some (r, m').
Proof.
  unfold executeNode.
  destruct (attemptLoop_total (Z.to_nat (orDefault (maxAttempts <$> retryPolicy node) 1))
              node (orDefault (maxAttempts <$> retryPolicy node) 1)
              (orDefault (initialDelay <$> retryPolicy node) 1000)
              (default linear (backoff <$> retryPolicy node)) 0 None
              (withCtx (applyOverrides (ctx (emitEvent (node_start (id node)) m))
                                       (overrides node))
                       (emitEvent (node_start (id node)) m)))
    as (r & m' & ->); [lia|]. by eexists _, _.
Qed.

Lemma executeNode_events node m r m' :
  executeNode node m = Some (r, m') →
  ∃ evs, events m' = (events m ++ evs)%list
    ∧ Forall (λ ev, eventNode ev = Some (id node)) evs.
Proof.
  unfold executeNode.
  destruct (attemptLoop _ _ _ _ _ _ _ _) as [[r0 m0]|] eqn:Hloop; [|done].
  intros [= <- <-]. apply attemptLoop_events in Hloop as (evs & Heq & Hall).
  simpl in *. eexists (_ :: evs). rewrite Heq, <- app_assoc. split; [done|].
  by constructor.
Qed.

Lemma executeNode_outputs k node m r m' :
  bodiesKeepOutput k → executeNode node m = Some (r, m') →
  outputs (ctx m') !! k = outputs (ctx m) !! k.
Proof.
  intros Hk. unfold executeNode.
  destruct (attemptLoop _ _ _ _ _ _ _ _) as [[r0 m0]|] eqn:Hloop; [|done].
  intros [= <- <-]. apply (attemptLoop_outputs k) in Hloop; [|done].
  simpl in *. unfold sharedAfter, applyOverrides in *.
  destruct (overrides node); simpl in *; done.
Qed.

End NodeFacts.

(** ** The node loop *)

Section LoopFacts.
Context {Ext : Type} `{!World Ext}.
Implicit Types (st : RunState Ext) (workflow : WorkflowDefinition).

Lemma findNode_Some workflow n node :
  findNode workflow n = Some node → id node = n ∧ node ∈ nodes workflow.
Proof.
  unfold findNode. intros [Hin Hid]%List.find_some.
  apply bool_decide_eq_true in Hid. by apply list_elem_of_In in Hin.
Qed.

Lemma findNode_unique workflow node :
  NoDup (id <$> nodes workflow) → node ∈ nodes workflow →
  findNode workflow (id node) = Some node.
Proof. apply find_unique. Qed.

Lemma nodeLoop_total workflow order st :
  ∃ st', nodeLoop workflow order st = Some st'.
Proof.
  revert st. induction order as [|n order IH]; intros st; simpl; [by eexists|].
  destruct (aborted _); [by eexists|].
  destruct (findNode workflow n) as [node|]; [|apply IH].
  destruct (negb _); [apply IH|].
  destruct (executeNode_total node (machine st)) as (r & m' & ->). apply IH.
Qed.

(** Running the loop over [l1 ++ l2] is running it over [l1], then over
    [l2]: once the loop has stopped on cancellation, it stops again at once. *)
Lemma nodeLoop_app workflow l1 l2 st :
  nodeLoop workflow (l1 ++ l2) st
  = nodeLoop workflow l1 st ≫= nodeLoop workflow l2.
Proof.
  revert st. induction l1 as [|n l1 IH]; intros st; simpl; [done|].
  destruct (aborted (ext (machine st))) eqn:Hab.
  - simpl. destruct l2 as [|n2 l2]; simpl; [done|]. by rewrite Hab.
  - destruct (findNode workflow n) as [node|]; [|apply IH].
    destruct (negb _); [apply IH|].
    destruct (executeNode node (machine st)) as [[r m']|]; [apply IH|done].
Qed.

(** The loop writes [nodeResults] only at the ids it iterates over. *)
Lemma nodeLoop_results_frame workflow order st st' x :
  nodeLoop workflow order st = Some st' → x ∉ order →
  run_results st' !! x = run_results st !! x.
Proof.
  revert st. induction order as [|n order IH]; intros st; simpl.
  - by intros [= <-].
  - intros Hloop [Hne Hx]%not_elem_of_cons.
    destruct (aborted _); [by injection Hloop as <-|].
    destruct (findNode workflow n) as [node|]; [|by apply IH].
    destruct (negb _).
    + rewrite (IH _ Hloop Hx). simpl. by rewrite lookup_insert_ne.
    + destruct (executeNode node (machine st)) as [[r m']|]; [|done].
      rewrite (IH _ Hloop Hx). simpl. by rewrite lookup_insert_ne.
Qed.

(** Every event of the loop is about a node it iterates over. *)
Lemma nodeLoop_events workflow order st st' :
  nodeLoop workflow order st = Some st' →
  ∃ evs, events (machine st') = (events (machine st) ++ evs)%list
    ∧ Forall (λ ev, ∃ n, eventNode ev = Some n ∧ n ∈ order) evs.
Proof.
  revert st. induction order as [|n order IH]; intros st; simpl.
  - intros [= <-]. exists []. by rewrite app_nil_r.
  - assert (∀ evs, Forall (λ ev, ∃ k, eventNode ev = Some k ∧ k ∈ order) evs →
                   Forall (λ ev, ∃ k, eventNode ev = Some k ∧ k ∈ n :: order) evs)
      as Hweak.
    { intros evs Hall. eapply Forall_impl; [exact Hall|].
      intros ev (k & Hk & Hin). exists k.
      split; [done|]. apply elem_of_cons. by right. }
    destruct (aborted _).
    { intros [= <-]. exists []. by rewrite app_nil_r. }
    destruct (findNode workflow n) as [node|] eqn:Hfind.
    2:{ intros (evs & Heq & Hall)%IH. exists evs. split; [done|by apply Hweak]. }
    apply findNode_Some in Hfind as [Hid _].
    destruct (negb _).
    { intros (evs & Heq & Hall)%IH. exists evs. split; [done|by apply Hweak]. }
    destruct (executeNode node (machine st)) as [[r m']|] eqn:Hexec; [|done].
    apply executeNode_events in Hexec as (evs1 & Heq1 & Hall1).
    intros (evs & Heq & Hall)%IH. simpl in Heq.
    exists (evs1 ++ evs)%list. split.
    + rewrite Heq, app_assoc. f_equal. by destruct (output r).
    + apply Forall_app. split; [|by apply Hweak].
      eapply Forall_impl; [exact Hall1|]. intros ev Hev. exists n.
      rewrite Hev, Hid. split; [done|]. apply elem_of_cons. by left.
Qed.


Lemma tryBlock_total workflow st : ∃ c st', tryBlock workflow st = Some (c, st').
Proof.
  unfold tryBlock.
  destruct (validateWorkflow workflow) as [[[]|e]|] eqn:Hvalid.
  - destruct (executionOrder_spec workflow Hvalid) as (order & -> & _).
    destruct (nodeLoop_total workflow order st) as [st' ->]. by eexists _, _.
  - by eexists _, _.
  - destruct (validateWorkflow_total workflow) as [c Hc]. congruence.
Qed.

(** [executeWorkflow] always returns a result: nothing is thrown to the
    caller and no fuel runs out. *)
Lemma executeWorkflow_total workflow initialContext e0 :
  ∃ r m, executeWorkflow workflow initialContext e0 = Some (Returned r, m).
Proof.
  unfold executeWorkflow.
  destruct (tryBlock_total workflow (initialState workflow initialContext e0))
    as (c & st' & ->). by eexists _, _.
Qed.

(** A workflow that fails validation: the error is caught, no node runs. *)
Lemma executeWorkflow_invalid workflow initialContext e0 e :
  validateWorkflow workflow = Some (Thrown e) →
  let st := initialState workflow initialContext e0 in
  executeWorkflow workflow initialContext e0
  = Some (Returned {| res_workflowId := wf_id workflow;
                      res_executionId := (uuidv4 e0).1;
                      res_status := failed;
                      nodeResults := ∅;
                      context := ctx (machine st) |},
          emitEvent (workflow_complete failed)
            (emitEvent (workflow_error (toError e)) (machine st))).
Proof.
  intros Hvalid. unfold executeWorkflow, tryBlock. rewrite Hvalid. simpl.
  unfold initialState. by destruct (uuidv4 e0).
Qed.

End LoopFacts.

(** ** The order of nodes without dependencies *)

Lemma set_absent {V} (m : OrderedMap.t V) k v :
  k ∉ OrderedMap.keys m → OrderedMap.set m k v = (m ++ [(k, v)])%list.
Proof.
  unfold OrderedMap.keys. induction m as [|[k' v'] m IH]; simpl; [done|].
  intros [Hne Hk]%not_elem_of_cons. case_decide; [congruence|].
  by rewrite IH.
Qed.

Lemma buildDependencyGraph_nodeps (ns : list NodeConfig) (g : OrderedMap.t (list string)) :
  (∀ node, node ∈ ns → dependencies node = []) →
  NoDup (OrderedMap.keys g ++ (id <$> ns)) →
  foldl (λ graph node,
           foldl (λ g depId, addDependent (ensureKey g depId) depId (id node))
                 (ensureKey graph (id node)) (dependencies node)) g ns
  = (g ++ ((λ node, (id node, [])) <$> ns))%list.
Proof.
  revert g. induction ns as [|node ns IH]; intros g Hdeps Hnd; simpl.
  - by rewrite app_nil_r.
  - rewrite (Hdeps node) by (apply elem_of_cons; by left). simpl.
    assert (id node ∉ OrderedMap.keys g) as Hfresh.
    { apply NoDup_app in Hnd as (_ & Hdisj & _). intros Hin.
      apply (Hdisj _ Hin). simpl. apply elem_of_cons. by left. }
    unfold ensureKey, OrderedMap.has.
    rewrite (proj2 (get_None g (id node)) Hfresh), set_absent by done.
    rewrite IH.
    + by rewrite <- app_assoc.
    + intros n Hn. apply Hdeps, elem_of_cons. by right.
    + unfold OrderedMap.keys in *. rewrite fmap_app, <- app_assoc. done.
Qed.

Lemma get_nodeps (ns : list NodeConfig) k :
  k ∈ id <$> ns →
  OrderedMap.get (V := list string)
    ((λ node : NodeConfig, (id node, @nil string)) <$> ns) k = Some [].
Proof.
  induction ns as [|node ns IH]; simpl; [by intros ?%elem_of_nil|].
  intros Hk. case_decide; [done|].
  apply elem_of_cons in Hk as [->|Hk]; [done|by apply IH].
Qed.

Lemma visit_leaf fuel (g : OrderedMap.t (list string)) k
    (st : TopologicalSort.State) :
  OrderedMap.get g k = Some [] →
  k ∉ TopologicalSort.visited st →
  TopologicalSort.temp st = ∅ →
  TopologicalSort.visit (S fuel) g k st
  = Some (Returned {| TopologicalSort.result := TopologicalSort.result st ++ [k];
                      TopologicalSort.visited := {[k]} ∪ TopologicalSort.visited st;
                      TopologicalSort.temp :=
                        ({[k]} ∪ TopologicalSort.temp st) ∖ {[k]} |}).
Proof.
  intros Hget Hk Htemp. simpl.
  rewrite decide_False by (rewrite Htemp; set_solver).
  rewrite decide_False by done. by rewrite Hget.
Qed.

Lemma sort_keysLoop_cons fuel (g : OrderedMap.t (list string)) k ks
    (st : TopologicalSort.State) :
  TopologicalSort.keysLoop fuel g (k :: ks) st
  = if decide (k ∈ TopologicalSort.visited st)
    then TopologicalSort.keysLoop fuel g ks st
    else match TopologicalSort.visit fuel g k st with
         | None => None
         | Some (Thrown e) => Some (Thrown e)
         | Some (Returned st') => TopologicalSort.keysLoop fuel g ks st'
         end.
Proof. done. Qed.

Lemma keysLoop_nodeps fuel (g : OrderedMap.t (list string)) ks
    (st : TopologicalSort.State) :
  (∀ k, k ∈ ks → OrderedMap.get g k = Some []) →
  NoDup ks →
  (∀ k, k ∈ ks → k ∉ TopologicalSort.visited st) →
  TopologicalSort.temp st = ∅ →
  ∃ st', TopologicalSort.keysLoop (S fuel) g ks st = Some (Returned st')
    ∧ TopologicalSort.result st' = (TopologicalSort.result st ++ ks)%list.
Proof.
  revert st. induction ks as [|k ks IH]; intros st Hget Hnd Hfresh Htemp.
  - exists st. by rewrite app_nil_r.
  - apply NoDup_cons in Hnd as [Hk Hnd].
    assert (k ∉ TopologicalSort.visited st) as Hkv
      by (apply Hfresh, elem_of_cons; by left).
    rewrite sort_keysLoop_cons, decide_False by done.
    rewrite visit_leaf; [|apply Hget, elem_of_cons; by left|done..].
    match goal with |- context [TopologicalSort.keysLoop _ _ ks ?s] =>
      destruct (IH s) as (st' & Heq & Hres) end.
    + intros k' Hk'. apply Hget, elem_of_cons. by right.
    + done.
    + intros k' Hk'. simpl. apply not_elem_of_union. split.
      * intros ->%elem_of_singleton. done.
      * apply Hfresh, elem_of_cons. by right.
    + simpl. rewrite Htemp. set_solver.
    + exists st'. split; [exact Heq|]. rewrite Hres. simpl.
      by rewrite <- app_assoc.
Qed.

(** Nodes without any dependency are ordered last-declared first. *)
Lemma sort_without_dependencies (ns : list NodeConfig) :
  NoDup (id <$> ns) →
  (∀ node, node ∈ ns → dependencies node = []) →
  TopologicalSort.topologicalSort (buildDependencyGraph ns)
  = Some (Returned (reverse (id <$> ns))).
Proof.
  intros Hnd Hdeps. unfold buildDependencyGraph.
  rewrite buildDependencyGraph_nodeps by done. simpl.
  unfold TopologicalSort.topologicalSort.
  assert (OrderedMap.keys ((λ node : NodeConfig, (id node, @nil string)) <$> ns)
          = id <$> ns) as Hkeys.
  { unfold OrderedMap.keys. rewrite <- list_fmap_compose. done. }
  rewrite Hkeys.
  destruct (keysLoop_nodeps
              (length ((λ node : NodeConfig, (id node, @nil string)) <$> ns))
              ((λ node : NodeConfig, (id node, @nil string)) <$> ns) (id <$> ns)
              {| TopologicalSort.result := []; TopologicalSort.visited := ∅;
                 TopologicalSort.temp := ∅ |})
    as (st' & -> & ->); try done.
  intros k Hk. by apply get_nodeps.
Qed.

(* ===================================================================== *)
(** * The claims *)
(* ===================================================================== *)

(** ** Validation and ordering *)

(** C4. A workflow whose dependency graph contains a cycle is rejected by
    validation before any node executes: [executeWorkflow] returns a result
    with an empty [nodeResults] map and a status that is not [success] (it is
    [failed]); no event about a node was emitted and the world was not
    touched beyond drawing the execution id. *)
Theorem C4_cycle_rejected_before_any_node {Ext : Type} `{!World Ext}
    (workflow : WorkflowDefinition) (initialContext : gmap string JSValue)
    (e0 : Ext) :
  hasCycle (nodes workflow) →
  ∃ r m, executeWorkflow workflow initialContext e0 = Some (Returned r, m)
    ∧ nodeResults r = ∅
    ∧ res_status r ≠ success
    ∧ res_status r = failed
    ∧ (∀ ev, ev ∈ events m → eventNode ev = None)
    ∧ ext m = (uuidv4 e0).2.
Proof.
  intros [e He]%validateWorkflow_cycle.
  eexists _, _. split; [by apply executeWorkflow_invalid|]. simpl.
  split_and!; try done.
  - unfold initialState. destruct (uuidv4 e0). simpl.
    intros ev Hev. repeat (apply elem_of_cons in Hev as [->|Hev]; [done|]).
    by apply elem_of_nil in Hev.
  - unfold initialState. by destruct (uuidv4 e0).
Qed.

Lemma C4_witness :
  hasCycle (nodes cyclicWorkflow)
  ∧ ∃ r m, executeWorkflow cyclicWorkflow ∅ quiet = Some (Returned r, m)
      ∧ nodeResults r = ∅
      ∧ res_status r ≠ success
      ∧ res_status r = failed
      ∧ (∀ ev, ev ∈ events m → eventNode ev = None)
      ∧ ext m = (uuidv4 quiet).2.
Proof.
  assert (hasCycle (nodes cyclicWorkflow)) as Hcycle.
  { exists "node-1". apply tc_l with "node-2"; [|apply tc_once].
    - exists (mkNode "node-1" ["node-2"] okScript). simpl.
      split_and!; [apply elem_of_cons; by left|reflexivity|
                   apply elem_of_cons; by left].
    - exists (mkNode "node-2" ["node-1"] okScript). simpl.
      split_and!; [apply elem_of_cons; right; apply elem_of_cons; by left|
                   reflexivity|apply elem_of_cons; by left]. }
  split; [exact Hcycle|].
  exact (C4_cycle_rejected_before_any_node cyclicWorkflow ∅ quiet Hcycle).
Defined.

(** C5, as the code has it. For every valid workflow the computed execution
    order lists every node id exactly once and places every node after all of
    its dependencies. Nodes with no ordering constraint between them are not
    kept in declaration order: when no node declares a dependency, the order
    is the declaration order reversed. *)
Theorem C5_execution_order_topological (workflow : WorkflowDefinition) :
  valid workflow →
  ∃ order,
    TopologicalSort.topologicalSort (buildDependencyGraph (nodes workflow))
    = Some (Returned order)
    ∧ NoDup order
    ∧ (∀ x, x ∈ order ↔ x ∈ id <$> nodes workflow)
    ∧ (∀ node dep, node ∈ nodes workflow → dep ∈ dependencies node →
                   precedes dep (id node) order)
    ∧ ((∀ node, node ∈ nodes workflow → dependencies node = []) →
       order = reverse (id <$> nodes workflow)).
Proof.
  intros Hvalid.
  destruct (executionOrder_spec workflow Hvalid)
    as (order & Heq & Hnd & Hmem & Hprec).
  exists order. split_and!; try done.
  intros Hdeps. pose proof (valid_inv workflow Hvalid) as (Hids & _).
  rewrite sort_without_dependencies in Heq by done. by injection Heq.
Qed.

Lemma C5_witness :
  valid chainWorkflow
  ∧ ∃ order,
      TopologicalSort.topologicalSort (buildDependencyGraph (nodes chainWorkflow))
      = Some (Returned order)
      ∧ NoDup order
      ∧ (∀ x, x ∈ order ↔ x ∈ id <$> nodes chainWorkflow)
      ∧ (∀ node dep, node ∈ nodes chainWorkflow → dep ∈ dependencies node →
                     precedes dep (id node) order)
      ∧ ((∀ node, node ∈ nodes chainWorkflow → dependencies node = []) →
         order = reverse (id <$> nodes chainWorkflow)).
Proof.
  split; [vm_compute; reflexivity|].
  apply (C5_execution_order_topological chainWorkflow). vm_compute. reflexivity.
Defined.

(** C5, as stated, fails: two independent nodes declared in the order [a],
    [b] are scheduled [b] first. *)
Lemma C5_counterexample :
  valid independentWorkflow
  ∧ TopologicalSort.topologicalSort
      (buildDependencyGraph (nodes independentWorkflow))
    = Some (Returned ["b"; "a"])
  ∧ ¬ declarationOrderTies (nodes independentWorkflow) ["b"; "a"].
Proof.
  split_and!; [vm_compute; reflexivity..|].
  intros Hties. destruct (Hties "a" "b") as (l1 & l2 & l3 & Heq).
  - by exists [], [], [].
  - assert (∀ x y, ¬ tc (dependsOn (nodes independentWorkflow)) x y) as Hnone.
    { intros x y (z & (node & Hin & _ & Hdep) & _)%tc_first_step.
      simpl in Hin.
      repeat (apply elem_of_cons in Hin as [->|Hin];
              [by apply elem_of_nil in Hdep|]).
      by apply elem_of_nil in Hin. }
    split; apply Hnone.
  - destruct l1 as [|x1 [|x2 l1]]; simplify_eq/=.
    + destruct l2; simplify_eq/=.
    + destruct l1; simplify_eq/=.
Qed.

(** ** Retries *)



(** C10. A node whose retry policy has [maxAttempts = 0], and likewise a
    node without a retry policy, is attempted exactly once: the result
    reports [attempts = 1] and exactly one attempt event follows
    [node_start]. *)
Theorem C10_falsy_maxAttempts_runs_once {Ext : Type} `{!World Ext}
    (node : NodeConfig) (m : Machine Ext) :
  (retryPolicy node = None
   ∨ ∃ policy, retryPolicy node = Some policy ∧ maxAttempts policy = 0) →
  orDefault (maxAttempts <$> retryPolicy node) 1 = 1
  ∧ ∃ r m' ev,
      executeNode node m = Some (r, m')
      ∧ attempts r = 1
      ∧ events m' = (events m ++ [node_start (id node); ev])%list
      ∧ ((status r = SUCCESS ∧ ev = node_complete (id node) (output r))
         ∨ (∃ e, status r = FAILED ∧ error r = Some e
                 ∧ ev = node_error (id node) e 1)).
Proof.
  intros Hpolicy.
  assert (orDefault (maxAttempts <$> retryPolicy node) 1 = 1) as Hone.
  { destruct Hpolicy as [->|(policy & -> & Hzero)]; simpl; [done|].
    by rewrite Hzero. }
  split; [done|]. unfold executeNode. rewrite Hone. simpl.
  match goal with |- context [attempt node ?x] =>
    pose proof (attempt_events node x) as Hev;
    destruct (attempt node x) as [[o|e] m1] end; simpl in Hev.
  - eexists _, _, _. split; [done|]. simpl. rewrite Hev, <- app_assoc.
    split_and!; [done|done|]. by left.
  - eexists _, _, _. split; [done|]. simpl. rewrite Hev, <- app_assoc.
    split_and!; [done|done|]. right. by eexists.
Qed.

Lemma C10_witness :
  orDefault (maxAttempts <$> retryPolicy (withRetry 0 (mkNode "node-1" [] okScript))) 1 = 1
  ∧ ∃ r m' ev,
      executeNode (withRetry 0 (mkNode "node-1" [] okScript)) (startMachine ∅)
      = Some (r, m')
      ∧ attempts r = 1
      ∧ events m' = (events (startMachine ∅) ++ [node_start "node-1"; ev])%list
      ∧ ((status r = SUCCESS ∧ ev = node_complete "node-1" (output r))
         ∨ (∃ e, status r = FAILED ∧ error r = Some e
                 ∧ ev = node_error "node-1" e 1)).
Proof.
  apply (C10_falsy_maxAttempts_runs_once
           (withRetry 0 (mkNode "node-1" [] okScript)) (startMachine ∅)).
  right. eexists. split; reflexivity.
Defined.

(** ** What [executeWorkflow] throws *)

(** C9, on the input of the unit test "should reject workflow with duplicate
    node IDs": the validation error is caught inside [executeWorkflow], which
    returns a [failed] result instead of throwing. *)
Theorem C9_duplicate_ids_returned_not_thrown :
  validateWorkflow duplicateWorkflow
  = Some (Thrown (ErrorObj "Duplicate node ID: node-1"))
  ∧ ∃ r m, executeWorkflow duplicateWorkflow ∅ quiet = Some (Returned r, m)
      ∧ res_status r = failed
      ∧ nodeResults r = ∅
      ∧ events m = [workflow_start "test-workflow";
                    workflow_error "Duplicate node ID: node-1";
                    workflow_complete failed].
Proof.
  split; [vm_compute; reflexivity|].
  eexists _, _.
  split; [apply executeWorkflow_invalid; vm_compute; reflexivity|].
  split_and!; reflexivity.
Qed.

(** ** Cancellation and cascading skips *)

Section SchedulerFacts.
Context {Ext : Type} `{!World Ext}.

Lemma initialState_results workflow initialContext (e0 : Ext) :
  run_results (initialState workflow initialContext e0) = ∅.
Proof. unfold initialState. by destruct (uuidv4 e0). Qed.

Lemma initialState_events workflow initialContext (e0 : Ext) :
  events (machine (initialState workflow initialContext e0))
  = [workflow_start (wf_id workflow)].
Proof. unfold initialState. by destruct (uuidv4 e0). Qed.

Lemma initialState_outputs workflow initialContext (e0 : Ext) :
  outputs (ctx (machine (initialState workflow initialContext e0))) = ∅.
Proof. unfold initialState. by destruct (uuidv4 e0). Qed.

(** What [executeWorkflow] returns for a workflow that passed validation, in
    terms of the node loop over the execution order. *)
Lemma executeWorkflow_valid workflow initialContext (e0 : Ext) order :
  valid workflow →
  TopologicalSort.topologicalSort (buildDependencyGraph (nodes workflow))
  = Some (Returned order) →
  ∃ st', nodeLoop workflow order (initialState workflow initialContext e0)
         = Some st'
    ∧ executeWorkflow workflow initialContext e0
      = Some (Returned {| res_workflowId := wf_id workflow;
                          res_executionId := (uuidv4 e0).1;
                          res_status := run_status st';
                          nodeResults := run_results st';
                          context := ctx (machine st') |},
              emitEvent (workflow_complete (run_status st')) (machine st')).
Proof.
  intros Hvalid Horder.
  destruct (nodeLoop_total workflow order
              (initialState workflow initialContext e0)) as [st' Hloop].
  exists st'. split; [done|].
  unfold executeWorkflow, tryBlock. unfold valid in Hvalid.
  by rewrite Hvalid, Horder, Hloop.
Qed.


End SchedulerFacts.

(** C6, as the code has it. If the cancellation signal is already set when
    the scheduler reaches a node-loop iteration, the loop stops there: the
    returned status is [partial], [nodeResults] is what it was at that point,
    and the nodes still to run have no entry in it. *)
Theorem C6_cancellation_stops_loop {Ext : Type} `{!World Ext}
    (workflow : WorkflowDefinition) (initialContext : gmap string JSValue)
    (e0 : Ext) (ran : list string) (n : string) (rest : list string)
    (st1 : RunState Ext) :
  valid workflow →
  TopologicalSort.topologicalSort (buildDependencyGraph (nodes workflow))
  = Some (Returned (ran ++ n :: rest)%list) →
  nodeLoop workflow ran (initialState workflow initialContext e0) = Some st1 →
  aborted (ext (machine st1)) = true →
  ∃ r m, executeWorkflow workflow initialContext e0 = Some (Returned r, m)
    ∧ res_status r = partial
    ∧ nodeResults r = run_results st1
    ∧ (∀ x, x ∈ n :: rest → nodeResults r !! x = None)
    ∧ events m = (events (machine st1) ++ [workflow_complete partial])%list.
Proof.
  intros Hvalid Horder Hran Haborted.
  destruct (executeWorkflow_valid workflow initialContext e0 _ Hvalid Horder)
    as (st' & Hloop & ->).
  rewrite nodeLoop_app, Hran in Hloop. simpl in Hloop.
  rewrite Haborted in Hloop. injection Hloop as <-. simpl.
  eexists _, _. split; [done|]. simpl. split_and!; try done.
  intros x Hx.
  destruct (executionOrder_spec workflow Hvalid) as (order & Heq & Hnd & _).
  rewrite Horder in Heq. injection Heq as <-.
  apply NoDup_app in Hnd as (_ & Hdisj & _).
  rewrite (nodeLoop_results_frame _ _ _ _ x Hran).
  - by rewrite initialState_results.
  - intros Hin. by apply (Hdisj x).
Qed.

Lemma C6_witness :
  ∃ r m, executeWorkflow singleWorkflow ∅ cancelledWorld = Some (Returned r, m)
    ∧ res_status r = partial
    ∧ nodeResults r = run_results (initialState singleWorkflow ∅ cancelledWorld)
    ∧ (∀ x, x ∈ ["a"] → nodeResults r !! x = None)
    ∧ events m = (events (machine (initialState singleWorkflow ∅ cancelledWorld))
                  ++ [workflow_complete partial])%list.
Proof.
  apply (C6_cancellation_stops_loop singleWorkflow ∅ cancelledWorld [] "a" []).
  - vm_compute. reflexivity.
  - vm_compute. reflexivity.
  - reflexivity.
  - reflexivity.
Defined.

(** C6, as stated, fails: with the signal set before the first iteration of
    a one-node workflow, the run is [partial] and the node that did not run
    has no entry in [nodeResults], so it is not recorded as skipped. *)
Lemma C6_counterexample :
  valid singleWorkflow
  ∧ aborted (ext (machine (initialState singleWorkflow ∅ cancelledWorld))) = true
  ∧ ∃ r m, executeWorkflow singleWorkflow ∅ cancelledWorld = Some (Returned r, m)
      ∧ res_status r = partial
      ∧ nodeResults r !! "a" = None
      ∧ ¬ remainingMarkedSkipped r ["a"].
Proof.
  split; [vm_compute; reflexivity|]. split; [reflexivity|].
  eexists _, _. split; [vm_compute; reflexivity|].
  split; [reflexivity|]. split; [reflexivity|].
  intros Hmarked. destruct (Hmarked "a") as (res & Hres & _).
  - apply elem_of_cons. by left.
  - vm_compute in Hres. discriminate.
Qed.



(** ** Condition, parallel and loop nodes *)











(** ** Scenarios of the engine's unit tests, run on the model *)

(** "should execute workflow with dependencies in correct order": the three
    nodes of the chain run in the order of their dependencies and succeed. *)
Example scenario_linear_chain :
  ∃ r m, executeWorkflow chainWorkflow ∅ quiet = Some (Returned r, m)
    ∧ res_status r = success
    ∧ status <$> nodeResults r !! "node-1" = Some SUCCESS
    ∧ status <$> nodeResults r !! "node-2" = Some SUCCESS
    ∧ status <$> nodeResults r !! "node-3" = Some SUCCESS
    ∧ calls (ext m) = ["node-1"; "node-2"; "node-3"].
Proof.
  eexists _, _. split; [vm_compute; reflexivity|].
  split_and!; vm_compute; reflexivity.
Qed.

(** "should skip nodes when dependencies fail": the first node fails, its
    dependent is skipped and never called, the run is [failed]. *)
Example scenario_failure_cascade :
  ∃ r m, executeWorkflow cascadeWorkflow ∅ quiet = Some (Returned r, m)
    ∧ res_status r = failed
    ∧ status <$> nodeResults r !! "node-1" = Some FAILED
    ∧ status <$> nodeResults r !! "node-2" = Some SKIPPED
    ∧ calls (ext m) = ["node-1"]
    ∧ events m = [workflow_start "test-workflow"; node_start "node-1";
                  node_error "node-1" "Test error" 1; workflow_complete failed].
Proof.
  eexists _, _. split; [vm_compute; reflexivity|].
  split_and!; vm_compute; reflexivity.
Qed.

(* ===================================================================== *)
(** * Further properties of the engine and the executor *)
(* ===================================================================== *)

(** ** Backoff delays *)



(** ** Dependency check *)

(** X2. [checkDependencies] answers [true] exactly when every declared
    dependency has a recorded result with status [success]; a missing result
    counts like a failed one, and a node without dependencies passes. *)
Theorem X2_checkDependencies_iff {Ext : Type} `{!World Ext}
    (node : NodeConfig) (results : gmap string NodeExecutionResult) :
  checkDependencies node results = true
  ↔ ∀ depId, depId ∈ dependencies node →
       ∃ depResult, results !! depId = Some depResult
                    ∧ status depResult = SUCCESS.
Proof.
  unfold checkDependencies. induction (dependencies node) as [|d deps IH]; simpl.
  - split; [|done]. by intros _ depId ?%elem_of_nil.
  - destruct (results !! d) as [res|] eqn:Hd.
    + case_decide as Hs.
      * rewrite IH. split.
        -- intros Hall depId [->|Hin]%elem_of_cons; [by exists res|by apply Hall].
        -- intros Hall depId Hin. apply Hall, elem_of_cons. by right.
      * split; [done|]. intros Hall.
        destruct (Hall d) as (res' & Hres' & Hs'); [apply elem_of_cons; by left|].
        congruence.
    + split; [done|]. intros Hall.
      destruct (Hall d) as (res' & Hres' & _); [apply elem_of_cons; by left|].
      congruence.
Qed.

(** ** Object spread and [Object.assign] *)

Lemma assign_lookup_absent (target : gmap string JSValue) source k :
  k ∉ source.*1 → assign target source !! k = target !! k.
Proof.
  unfold assign. revert target.
  induction source as [|[k' v'] source IH]; intros target Hk; simpl; [done|].
  simpl in Hk. apply not_elem_of_cons in Hk as [Hne Hk].
  rewrite IH by done. by rewrite lookup_insert_ne.
Qed.

Lemma assign_lookup_last (target : gmap string JSValue) l1 l2 k v :
  k ∉ l2.*1 → assign target (l1 ++ (k, v) :: l2) !! k = Some v.
Proof.
  intros Hk. unfold assign. rewrite foldl_app. simpl.
  change (foldl (λ m kv, <[kv.1:=kv.2]> m) ?t l2) with (assign t l2).
  rewrite assign_lookup_absent by done. by rewrite lookup_insert_eq.
Qed.

(** X3. [applyOverrides]: without overrides the node runs on the context
    itself; with overrides, [nodeContext.data] holds every override (the last
    one given for a key wins) over the data of the context, keys that are not
    overridden keep their value, and [variables], [outputs] and [metadata]
    are those of the context. *)
Theorem X3_applyOverrides_precedence (c : WorkflowContext)
    (o : list (string * JSValue)) :
  applyOverrides c None = c
  ∧ (∀ l1 l2 k v, o = (l1 ++ (k, v) :: l2)%list → k ∉ l2.*1 →
       data (applyOverrides c (Some o)) !! k = Some v)
  ∧ (∀ k, k ∉ o.*1 → data (applyOverrides c (Some o)) !! k = data c !! k)
  ∧ variables (applyOverrides c (Some o)) = variables c
  ∧ outputs (applyOverrides c (Some o)) = outputs c
  ∧ metadata (applyOverrides c (Some o)) = metadata c.
Proof.
  split_and!; try done.
  - intros l1 l2 k v -> Hk. simpl. by apply assign_lookup_last.
  - intros k Hk. simpl. by apply assign_lookup_absent.
Qed.


(** ** The attempts of one node *)

Section AttemptFacts.
Context {Ext : Type} `{!World Ext}.
Implicit Types (m : Machine Ext) (node : NodeConfig).

Lemma errorEvents_cons nid first e errs :
  errorEvents nid first (e :: errs)
  = node_error nid e first :: errorEvents nid (first + 1) errs.
Proof.
  unfold errorEvents. simpl. rewrite Z.add_0_r. f_equal.
  apply imap_ext. intros i x _. simpl. f_equal. lia.
Qed.

Lemma attemptLoop_log fuel node n delay b a err m r m' :
  attemptLoop fuel node n delay b a err m = Some (r, m') →
  ∃ errs,
    (status r = SUCCESS ∧ error r = None
     ∧ attempts r = a + Z.of_nat (length errs) + 1 ∧ (attempts r ≤ n)%Z
     ∧ events m' = (events m ++ errorEvents (id node) (a + 1) errs
                    ++ [node_complete (id node) (output r)])%list)
    ∨ (status r = FAILED ∧ output r = JUndefined
       ∧ attempts r = a + Z.of_nat (length errs) ∧ attempts r = Z.max a n
       ∧ error r = from_option Some err (last errs)
       ∧ events m' = (events m ++ errorEvents (id node) (a + 1) errs)%list).
Proof.
  revert a err m. induction fuel as [|fuel IH]; intros a err m; simpl.
  - case_decide; [done|]. intros [= <- <-]. exists []. right. simpl.
    rewrite app_nil_r. split_and!; try done; lia.
  - case_decide as Hlt.
    2:{ intros [= <- <-]. exists []. right. simpl.
        rewrite app_nil_r. split_and!; try done; lia. }
    pose proof (attempt_events node m) as Hev.
    destruct (attempt node m) as [[o|e] m1]; simpl in Hev.
    + intros [= <- <-]. exists []. left. simpl. rewrite Hev.
      split_and!; try done; lia.
    + case_decide as Hlt'.
      * intros (errs & Hcases)%IH. exists (toError e :: errs).
        rewrite errorEvents_cons. simpl in Hcases. rewrite Hev in Hcases.
        destruct Hcases as [(Hs & He & Ha & Hn & Hevs)|(Hs & Ho & Ha & Hmax & He & Hevs)].
        -- left. split_and!; try done.
           ++ rewrite Ha. simpl length. lia.
           ++ rewrite Hevs, <- !app_assoc. done.
        -- right. split_and!; try done.
           ++ rewrite Ha. simpl length. lia.
           ++ lia.
           ++ rewrite He. rewrite last_cons. by destruct (last errs).
           ++ rewrite Hevs, <- !app_assoc. done.
      * intros [= <- <-]. exists [toError e]. right. simpl. rewrite Hev.
        split_and!; try done; try lia.
        unfold errorEvents. simpl. by rewrite Z.add_0_r.
Qed.

End AttemptFacts.

(** X5. The attempt log of [executeNode], whatever the node does. The node
    is tried until an attempt succeeds or [maxAttempts] attempts have been
    made ([maxAttempts || 1]). It ends [success] at the first successful
    attempt, with at most [maxAttempts] attempts and no error, or [failed]
    after exactly [max(0, maxAttempts)] attempts, with no output and the
    error of the last attempt. The events are [node_start], one [node_error]
    per failed attempt numbered from 1, and [node_complete] on success. *)
Theorem X5_attempt_log {Ext : Type} `{!World Ext}
    (node : NodeConfig) (m : Machine Ext) :
  let n := orDefault (maxAttempts <$> retryPolicy node) 1 in
  ∃ r m' errs,
    executeNode node m = Some (r, m')
    ∧ nodeId r = id node
    ∧ ((status r = SUCCESS ∧ error r = None
        ∧ attempts r = Z.of_nat (length errs) + 1 ∧ (attempts r ≤ n)%Z
        ∧ events m' = (events m ++ node_start (id node)
                         :: errorEvents (id node) 1 errs
                         ++ [node_complete (id node) (output r)])%list)
       ∨ (status r = FAILED ∧ output r = JUndefined
          ∧ attempts r = Z.of_nat (length errs) ∧ attempts r = Z.max 0 n
          ∧ error r = last errs
          ∧ events m' = (events m ++ node_start (id node)
                           :: errorEvents (id node) 1 errs)%list)).
Proof.
  intros n. destruct (executeNode_total node m) as (r & m' & Hexec).
  pose proof Hexec as Hrun. unfold executeNode in Hexec.
  destruct (attemptLoop _ _ _ _ _ _ _ _) as [[r0 m0]|] eqn:Hloop; [|done].
  injection Hexec as <- <-.
  assert (nodeId r0 = id node) as Hid.
  { clear -Hloop. revert Hloop.
    generalize (Z.to_nat (orDefault (maxAttempts <$> retryPolicy node) 1)).
    generalize 0 at 1. generalize (@None string).
    generalize (withCtx (applyOverrides (ctx (emitEvent (node_start (id node)) m))
                           (overrides node)) (emitEvent (node_start (id node)) m)).
    intros m1 err a fuel. revert m1 err a.
    induction fuel as [|fuel IH]; intros m1 err a; simpl.
    - case_decide; [done|]. by intros [= <- <-].
    - case_decide; [|by intros [= <- <-]].
      destruct (attempt node m1) as [[o|e] m2]; [by intros [= <- <-]|].
      case_decide; [apply IH|by intros [= <- <-]]. }
  apply attemptLoop_log in Hloop as (errs & Hcases).
  eexists r0, _, errs. split; [exact Hrun|]. split; [exact Hid|].
  simpl in Hcases. simpl.
  destruct Hcases as [(Hs & He & Ha & Hn & Hevs)|(Hs & Ho & Ha & Hmax & He & Hevs)].
  - left. split_and!; try done. rewrite Hevs, <- app_assoc. done.
  - right. split_and!; try done.
    + rewrite He. by destruct (last errs).
    + rewrite Hevs, <- app_assoc. done.
Qed.

Section AttemptEdgeFacts.
Context {Ext : Type} `{!World Ext}.
Implicit Types (m : Machine Ext) (node : NodeConfig).

(** The shared context is what it was when the node context comes back as
    it went in. *)
Lemma sharedAfter_applyOverrides (c : WorkflowContext) o :
  sharedAfter c o (applyOverrides c o) = c.
Proof. destruct o; [|done]. by destruct c. Qed.

Lemma attemptLoop_aborted fuel node n delay b a err m r m' :
  (∀ d e, aborted e = true → aborted (sleep d e) = true) →
  aborted (ext m) = true →
  attemptLoop fuel node n delay b a err m = Some (r, m') →
  status r = FAILED ∧ ctx m' = ctx m ∧ attempts r = Z.max a n
  ∧ error r = (if decide (a < n)%Z then Some "Execution aborted" else err).
Proof.
  intros Hsleep. revert a err m.
  induction fuel as [|fuel IH]; intros a err m Hab; simpl.
  - case_decide; [done|]. intros [= <- <-]. simpl. split_and!; try done; lia.
  - case_decide as Hlt.
    2:{ intros [= <- <-]. simpl. split_and!; try done; lia. }
    unfold attempt. rewrite Hab. case_decide as Hlt'.
    + intros (Hs & Hctx & Ha & He)%IH; [|by apply Hsleep].
      split_and!; try done; [lia|]. rewrite He. by rewrite decide_True.
    + intros [= <- <-]. simpl. split_and!; try done; lia.
Qed.



End AttemptEdgeFacts.

(** X6. A negative [maxAttempts] is not replaced by the default (it is
    truthy): the node is never tried. [executeNode] emits [node_start] and
    reports [failed] with zero attempts and no error, and nothing else
    changes. *)
Theorem X6_negative_maxAttempts_never_runs {Ext : Type} `{!World Ext}
    (node : NodeConfig) (policy : RetryPolicy) (m : Machine Ext) :
  retryPolicy node = Some policy → (maxAttempts policy < 0)%Z →
  executeNode node m
  = Some ({| nodeId := id node; status := FAILED; output := JUndefined;
             error := None; attempts := 0 |},
          emitEvent (node_start (id node)) m).
Proof.
  intros Hpolicy Hneg.
  assert (orDefault (maxAttempts <$> retryPolicy node) 1 = maxAttempts policy)
    as Hn.
  { rewrite Hpolicy. simpl.
    destruct (Z.eqb_spec (maxAttempts policy) 0); [lia|done]. }
  unfold executeNode. rewrite Hn.
  replace (Z.to_nat (maxAttempts policy)) with 0%nat by lia. simpl.
  rewrite decide_False by lia. simpl. rewrite sharedAfter_applyOverrides.
  done.
Qed.

Lemma X6_witness :
  executeNode (withRetry (-1) (mkNode "node-1" [] okScript)) (startMachine ∅)
  = Some ({| nodeId := "node-1"; status := FAILED; output := JUndefined;
             error := None; attempts := 0 |},
          emitEvent (node_start "node-1") (startMachine ∅)).
Proof.
  apply (X6_negative_maxAttempts_never_runs
           (withRetry (-1) (mkNode "node-1" [] okScript))
           {| maxAttempts := -1; backoff := linear; initialDelay := 100 |}).
  - reflexivity.
  - reflexivity.
Defined.

(** X7. Cancellation inside [executeNode]. With the signal set (and staying
    set), the body of the node is never run: the context is left as it was
    and every attempt fails with "Execution aborted". The retry loop is not
    cut short: all [maxAttempts] attempts are counted. *)
Theorem X7_aborted_node_never_runs {Ext : Type} `{!World Ext}
    (node : NodeConfig) (m : Machine Ext) :
  (∀ d e, aborted e = true → aborted (sleep d e) = true) →
  aborted (ext m) = true →
  let n := orDefault (maxAttempts <$> retryPolicy node) 1 in
  ∃ r m',
    executeNode node m = Some (r, m')
    ∧ status r = FAILED
    ∧ ctx m' = ctx m
    ∧ attempts r = Z.max 0 n
    ∧ error r = (if decide (0 < n)%Z then Some "Execution aborted" else None).
Proof.
  intros Hsleep Hab n. destruct (executeNode_total node m) as (r & m' & Hexec).
  exists r, m'. split; [exact Hexec|]. unfold executeNode in Hexec.
  destruct (attemptLoop _ _ _ _ _ _ _ _) as [[r0 m0]|] eqn:Hloop; [|done].
  injection Hexec as <- <-.
  apply attemptLoop_aborted in Hloop as (Hs & Hctx & Ha & He); [|done..].
  split_and!; try done. simpl in *. rewrite Hctx.
  apply sharedAfter_applyOverrides.
Qed.

Lemma X7_witness :
  let node := withRetry 2 (mkNode "node-1" [] okScript) in
  let m := {| ctx := emptyContext; ext := cancelledWorld; events := [] |} in
  let n := orDefault (maxAttempts <$> retryPolicy node) 1 in
  ∃ r m',
    executeNode node m = Some (r, m')
    ∧ status r = FAILED
    ∧ ctx m' = ctx m
    ∧ attempts r = Z.max 0 n
    ∧ error r = (if decide (0 < n)%Z then Some "Execution aborted" else None).
Proof.
  apply (X7_aborted_node_never_runs
           (withRetry 2 (mkNode "node-1" [] okScript))
           {| ctx := emptyContext; ext := cancelledWorld; events := [] |}).
  - intros d e He. exact He.
  - reflexivity.
Defined.



(** ** [detectCycle] reports only real cycles *)

Module DetectCycleSound.
Import DetectCycle CycleInv.

Section Graph.
Variable g : OrderedMap.t (list string).

Lemma neighborsLoop_sound rec base nodeId ns st st' :
  (∀ n s, n ∈ ns → Inv g s → base ⊆ visited s → n ∉ visited s →
          ∃ b s', rec n s = Some (b, s') ∧ (b = false → post g n s s')) →
  (∀ n s s', n ∈ ns → Inv g s → base ⊆ visited s → n ∉ visited s →
             (∀ t, t ∈ recStack s → rtc (edge g) t n) →
             rec n s = Some (true, s') → ∃ x, tc (edge g) x x) →
  Inv g st → base ⊆ visited st →
  (∀ n, n ∈ ns → edge g nodeId n) →
  (∀ t, t ∈ recStack st → rtc (edge g) t nodeId) →
  neighborsLoop rec ns st = Some (true, st') →
  ∃ x, tc (edge g) x x.
Proof.
  revert st. induction ns as [|n ns IH];
    intros st Hpost Hsound HI Hbase Hedges Hpath; simpl; [done|].
  assert (edge g nodeId n) as Hn by (apply Hedges, elem_of_cons; by left).
  assert (∀ k, k ∈ ns → k ∈ n :: ns) as Hweak
    by (intros k Hk; apply elem_of_cons; by right).
  destruct (decide (n ∈ visited st)) as [Hv|Hv].
  - destruct (decide (n ∈ recStack st)) as [Hr|Hr].
    + intros _. exists n. eapply tc_rtc_l; [by apply Hpath|by apply tc_once].
    + apply IH; [intros; apply Hpost; auto|intros; eapply Hsound; eauto|done..|auto|done].
  - destruct (rec n st) as [[[] s']|] eqn:Hrec; [| |done].
    + intros _. eapply (Hsound n st s'); auto.
      * apply elem_of_cons. by left.
      * intros t Ht. eapply rtc_r; [by apply Hpath|done].
    + destruct (Hpost n st) as (b & s'' & Heq & Hp);
        [apply elem_of_cons; by left|done..|].
      rewrite Hrec in Heq. injection Heq as <- <-.
      destruct (Hp eq_refl) as (HI' & Hsub & _ & Hrs).
      apply IH; [intros; apply Hpost; auto|intros; eapply Hsound; eauto|done| |auto|].
      * set_solver.
      * intros t Ht. apply Hpath. by rewrite <- Hrs.
Qed.

Lemma hasCycleUtil_sound fuel nodeId st st' :
  (size (keySet g ∖ visited st) < fuel)%nat → Inv g st → nodeId ∉ visited st →
  (∀ t, t ∈ recStack st → rtc (edge g) t nodeId) →
  hasCycleUtil fuel g nodeId st = Some (true, st') →
  ∃ x, tc (edge g) x x.
Proof.
  revert nodeId st st'.
  induction fuel as [|fuel IH]; intros nodeId st st' Hfuel HI Hnv Hpath; [lia|].
  simpl.
  set (st1 := {| visited := {[nodeId]} ∪ visited st;
                 recStack := {[nodeId]} ∪ recStack st |}).
  assert (Inv g st1) as HI1.
  { pose proof (inv_stack _ _ HI). split; simpl.
    - set_solver.
    - intros x y Hx Hxr Hxy.
      destruct (inv_closed _ _ HI x y) as [Hy Hyr]; [set_solver..|done|].
      split; set_solver.
    - intros x Hx Hxr. apply (inv_acyclic _ _ HI); set_solver. }
  assert (∀ n s, n ∈ default [] (OrderedMap.get g nodeId) →
                 visited st1 ⊆ visited s →
                 (size (keySet g ∖ visited s) < fuel)%nat) as Hmeasure.
  { intros n s Hn Hbase.
    assert (nodeId ∈ keySet g) as HK.
    { unfold keySet. rewrite elem_of_list_to_set. eapply edge_key. exact Hn. }
    assert (keySet g ∖ visited s ⊂ keySet g ∖ visited st) as Hsub.
    { simpl in Hbase. apply strict_spec_alt. split; [set_solver|].
      intros Heq. assert (nodeId ∈ keySet g ∖ visited st) as Hin by set_solver.
      rewrite <- Heq in Hin. set_solver. }
    apply subset_size in Hsub. lia. }
  destruct (neighborsLoop (hasCycleUtil fuel g) _ st1) as [[[] s']|] eqn:Hloop;
    [|done..].
  intros _.
  eapply (neighborsLoop_sound (hasCycleUtil fuel g) (visited st1) nodeId);
    [| | | | | |exact Hloop]; try done.
  - intros n s Hn HIs Hbase Hns.
    apply DetectCycleFacts.hasCycleUtil_spec; [by eapply Hmeasure|done..].
  - intros n s s0 Hn HIs Hbase Hns Hp Heq.
    eapply (IH n s s0); [by eapply Hmeasure|done..].
  - intros t. simpl. intros [->%elem_of_singleton|Ht]%elem_of_union;
      [apply rtc_refl|by apply Hpath].
Qed.

Lemma cycle_keysLoop_sound fuel ks st :
  (size (keySet g) < fuel)%nat → Inv g st → recStack st = ∅ →
  keysLoop fuel g ks st = Some true → ∃ x, tc (edge g) x x.
Proof.
  intros Hfuel. revert st. induction ks as [|k ks IH]; intros st HI Hrs; simpl;
    [done|].
  assert (size (keySet g ∖ visited st) < fuel)%nat as Hm.
  { assert (size (keySet g ∖ visited st) ≤ size (keySet g))%nat
      by (apply subseteq_size; set_solver). lia. }
  destruct (decide (k ∈ visited st)) as [Hv|Hv]; [by apply IH|].
  destruct (hasCycleUtil fuel g k st) as [[[] st']|] eqn:Hcall; [| |done].
  - intros _. eapply hasCycleUtil_sound; [exact Hm|done..| |exact Hcall].
    intros t. rewrite Hrs. set_solver.
  - destruct (DetectCycleFacts.hasCycleUtil_spec g fuel k st Hm HI Hv)
      as (b & s & Heq & Hp).
    rewrite Hcall in Heq. injection Heq as <- <-.
    destruct (Hp eq_refl) as (HI' & _ & _ & Hrs').
    apply IH; [done|congruence].
Qed.

End Graph.
End DetectCycleSound.

Lemma buildGraph_edge_sound (ns : list NodeConfig) x y :
  edge (DetectCycle.buildGraph ns) x y → dependsOn ns x y.
Proof.
  unfold edge, DetectCycle.buildGraph. rewrite buildGraph_fold.
  destruct (List.find _ (reverse ns)) as [node|] eqn:Hfind; simpl.
  - apply List.find_some in Hfind as [Hin Hid].
    apply bool_decide_eq_true in Hid. apply list_elem_of_In in Hin.
    rewrite elem_of_reverse in Hin.
    intros Hy. exists node. split_and!; done.
  - by intros ?%elem_of_nil.
Qed.

Lemma detectCycle_sound (ns : list NodeConfig) :
  DetectCycle.detectCycle ns = Some true → hasCycle ns.
Proof.
  intros Hdet.
  destruct (DetectCycleSound.cycle_keysLoop_sound (DetectCycle.buildGraph ns)
              (S (length (DetectCycle.buildGraph ns)))
              (OrderedMap.keys (DetectCycle.buildGraph ns))
              {| DetectCycle.visited := ∅; DetectCycle.recStack := ∅ |})
    as [x Hx]; [| |done|exact Hdet|].
  - unfold keySet.
    pose proof (size_list_to_set_le (OrderedMap.keys (DetectCycle.buildGraph ns))).
    rewrite length_set_keys in *. lia.
  - split; simpl; set_solver.
  - exists x. eapply tc_congruence with (f := λ x, x); [|exact Hx].
    intros a b. apply buildGraph_edge_sound.
Qed.

(** X9. [detectCycle] always answers, and answers [true] only for a graph
    with a cycle; when the node ids are distinct (what [validateWorkflow] has
    checked before calling it) it answers [true] exactly for the graphs with
    a cycle. *)
Theorem X9_detectCycle_exact (ns : list NodeConfig) :
  (∃ b, DetectCycle.detectCycle ns = Some b)
  ∧ (DetectCycle.detectCycle ns = Some true → hasCycle ns)
  ∧ (NoDup (id <$> ns) →
     (DetectCycle.detectCycle ns = Some true ↔ hasCycle ns)).
Proof.
  split_and!.
  - destruct (detectCycle_total ns) as (b & Hb & _). by exists b.
  - apply detectCycle_sound.
  - intros Hnd. split; [apply detectCycle_sound|].
    intros [x Hx]. destruct (detectCycle_total ns) as (b & Hb & Hacyc).
    destruct b; [done|].
    destruct (Hacyc eq_refl x). by apply dependsOn_cycle_edge.
Qed.

(** ** The run of a valid workflow *)

Lemma NoDup_split_unique {A} (a a' b b' : list A) x :
  NoDup (a ++ x :: b) → (a ++ x :: b = a' ++ x :: b')%list → a = a' ∧ b = b'.
Proof.
  revert a'. induction a as [|y a IH]; intros a' Hnd Heq.
  - destruct a' as [|z a']; simpl in *.
    + by injection Heq as <-.
    + injection Heq as <- ->. apply NoDup_cons in Hnd as [Hx _].
      destruct Hx. apply elem_of_app. right. apply elem_of_cons. by left.
  - destruct a' as [|z a']; simpl in *.
    + injection Heq as -> <-. apply NoDup_cons in Hnd as [Hx _].
      destruct Hx. apply elem_of_app. right. apply elem_of_cons. by left.
    + injection Heq as <- Heq. apply NoDup_cons in Hnd as [_ Hnd].
      destruct (IH a' Hnd Heq) as [-> ->]. done.
Qed.

Section RunFacts.
Context {Ext : Type} `{!World Ext}.
Implicit Types (st : RunState Ext) (workflow : WorkflowDefinition).
Implicit Types (m : Machine Ext) (node : NodeConfig).

Lemma attemptLoop_shape fuel node n delay b a err m r m' :
  attemptLoop fuel node n delay b a err m = Some (r, m') →
  nodeId r = id node
  ∧ (status r = SUCCESS ∨ status r = FAILED ∧ output r = JUndefined)
  ∧ ∃ evs, events m' = (events m ++ evs)%list
           ∧ Forall (λ ev, ∀ x, ev ≠ node_start x) evs
           ∧ (status r = SUCCESS → node_complete (id node) (output r) ∈ evs).
Proof.
  revert a err m.
  induction fuel as [|fuel IH]; intros a err m; simpl.
  - case_decide; [done|]. intros [= <- <-]. simpl.
    split_and!; [done|by right|]. exists []. by rewrite app_nil_r.
  - case_decide.
    2:{ intros [= <- <-]. simpl.
        split_and!; [done|by right|]. exists []. by rewrite app_nil_r. }
    pose proof (attempt_events node m) as Hev.
    destruct (attempt node m) as [[o|e] m1]; simpl in Hev.
    + intros [= <- <-]. simpl. split_and!; [done|by left|].
      exists [node_complete (id node) o]. rewrite Hev. split_and!; [done| |].
      * by repeat constructor.
      * intros _. apply elem_of_cons. by left.
    + case_decide.
      * intros (Hid & Hst & evs & Heq & Hall & Hdone)%IH. split_and!; [done..|].
        exists (node_error (id node) (toError e) (a + 1) :: evs).
        rewrite Heq. simpl. rewrite Hev, <- app_assoc. split_and!; [done| |].
        -- by constructor.
        -- intros Hs. apply elem_of_cons. right. by apply Hdone.
      * intros [= <- <-]. simpl. split_and!; [done|by right|].
        exists [node_error (id node) (toError e) (a + 1)]. rewrite Hev.
        split_and!; [done| |done]. by repeat constructor.
Qed.

Lemma executeNode_shape node m r m' :
  executeNode node m = Some (r, m') →
  nodeId r = id node
  ∧ (status r = SUCCESS ∨ status r = FAILED ∧ output r = JUndefined)
  ∧ ∃ evs, events m' = (events m ++ node_start (id node) :: evs)%list
           ∧ Forall (λ ev, ∀ x, ev ≠ node_start x) evs
           ∧ (status r = SUCCESS → node_complete (id node) (output r) ∈ evs).
Proof.
  unfold executeNode.
  destruct (attemptLoop _ _ _ _ _ _ _ _) as [[r0 m0]|] eqn:Hloop; [|done].
  intros [= <- <-].
  apply attemptLoop_shape in Hloop as (Hid & Hst & evs & Heq & Hall & Hdone).
  split_and!; [done..|]. exists evs. simpl in *.
  by rewrite Heq, <- app_assoc.
Qed.

Lemma startedNodes_app (l1 l2 : list ExecutionEvent) :
  startedNodes (l1 ++ l2) = (startedNodes l1 ++ startedNodes l2)%list.
Proof. apply omap_app. Qed.

Lemma startedNodes_none (evs : list ExecutionEvent) :
  Forall (λ ev, ∀ x, ev ≠ node_start x) evs → startedNodes evs = [].
Proof.
  induction 1 as [|ev evs Hev _ IH]; [done|].
  unfold startedNodes in *.
  destruct ev as [|x| | | |]; simpl; try exact IH. by destruct (Hev x).
Qed.

Lemma elem_of_startedNodes (log : list ExecutionEvent) x :
  x ∈ startedNodes log ↔ node_start x ∈ log.
Proof.
  unfold startedNodes. rewrite list_elem_of_omap. split.
  - intros (ev & Hin & Hev). destruct ev; try done. by injection Hev as <-.
  - intros Hin. by exists (node_start x).
Qed.

Lemma producedBy_shape workflow x r :
  producedBy workflow x r →
  x ∈ id <$> nodes workflow ∧ nodeId r = x
  ∧ (status r = SUCCESS ∨ status r = FAILED ∧ output r = JUndefined).
Proof.
  intros (node & m & m' & Hin & <- & Hexec).
  apply executeNode_shape in Hexec as (Hid & Hst & _).
  split_and!; [by apply list_elem_of_fmap_2|done..].
Qed.

Lemma storeOutput_events nodeId r m :
  events (storeOutput nodeId r m) = events m.
Proof. unfold storeOutput. by destruct (output r). Qed.

Lemma storeOutput_outputs nodeId r m :
  outputs (ctx (storeOutput nodeId r m))
  = match recorded (output r) with
    | None => outputs (ctx m)
    | Some o => <[nodeId := o]> (outputs (ctx m))
    end.
Proof. unfold storeOutput. by destruct (output r). Qed.

Lemma checkDependenciesLoop_failing deps (results : gmap string NodeExecutionResult) :
  checkDependenciesLoop deps results = false →
  ∃ d, d ∈ deps ∧ ∀ rd, results !! d = Some rd → status rd ≠ SUCCESS.
Proof.
  induction deps as [|d deps IH]; simpl; [done|].
  destruct (results !! d) as [rd|] eqn:Hd.
  - case_decide as Hs.
    + intros (d' & Hin & Hd')%IH. exists d'. split; [|done].
      apply elem_of_cons. by right.
    + intros _. exists d. split; [apply elem_of_cons; by left|].
      intros rd'. rewrite Hd. by intros [= <-].
  - intros _. exists d. split; [apply elem_of_cons; by left|].
    rewrite Hd. done.
Qed.

Lemma RunInv_initial workflow initialContext (e0 : Ext) :
  RunInv workflow [] (initialState workflow initialContext e0).
Proof.
  split.
  - intros x. rewrite initialState_results, lookup_empty.
    split; [by intros []|by intros ?%elem_of_nil].
  - intros x r. by rewrite initialState_results, lookup_empty.
  - intros x r. by rewrite initialState_results, lookup_empty.
  - left. split.
    + unfold initialState. by destruct (uuidv4 e0).
    + intros x r. by rewrite initialState_results, lookup_empty.
  - intros x. rewrite initialState_events, initialState_results. split.
    + intros [?|?%elem_of_nil]%elem_of_cons; done.
    + intros (r & Hr & _). by rewrite lookup_empty in Hr.
  - rewrite initialState_events. apply NoDup_nil_2.
  - intros x _. by rewrite initialState_outputs, initialState_results,
      !lookup_empty.
Qed.

Section Loop.
Variables (workflow : WorkflowDefinition) (total : list string).
Hypothesis Hnd : NoDup total.
Hypothesis Hfind : ∀ x, x ∈ total → ∃ node, findNode workflow x = Some node.
Hypothesis Hdeps : ∀ l1 x l2 node d,
  total = (l1 ++ x :: l2)%list → findNode workflow x = Some node →
  d ∈ dependencies node → d ∈ l1.

Lemma RunInv_skip done n rest node st :
  total = (done ++ n :: rest)%list → RunInv workflow done st →
  findNode workflow n = Some node →
  checkDependencies node (run_results st) = false →
  RunInv workflow (done ++ [n])
    {| run_results := <[n := skippedResult n]> (run_results st);
       run_status := run_status st; machine := machine st |}.
Proof.
  intros Htotal HI Hnode Hcheck.
  assert (n ∉ done) as Hn.
  { rewrite Htotal in Hnd. apply NoDup_app in Hnd as (_ & Hdisj & _).
    intros Hin. apply (Hdisj n Hin), elem_of_cons. by left. }
  assert (run_results st !! n = None) as Hnone.
  { apply eq_None_not_Some. by rewrite (ri_keys _ _ _ HI). }
  assert (∀ f rf, run_results st !! f = Some rf → f ≠ n) as Hother
    by (intros f rf Hf ->; congruence).
  destruct (findNode_Some _ _ _ Hnode) as [Hid Hin].
  assert (∃ f rf, tc (dependsOn (nodes workflow)) n f
                  ∧ run_results st !! f = Some rf ∧ status rf = FAILED)
    as (f & rf & Hnf & Hf & Hfailed).
  { apply checkDependenciesLoop_failing in Hcheck as (d & Hd & Hbad).
    assert (d ∈ done) as Hdone by (by eapply Hdeps).
    apply (ri_keys _ _ _ HI) in Hdone as [rd Hrd].
    assert (dependsOn (nodes workflow) n d) as Hnd' by (by exists node).
    destruct (ri_result _ _ _ HI d rd Hrd) as [->|Hp].
    - destruct (ri_skip _ _ _ HI d _ Hrd eq_refl) as (f & rf & Hdf & Hf & Hs).
      exists f, rf. split_and!; [|done..]. by eapply tc_l.
    - apply producedBy_shape in Hp as (_ & _ & [Hs|[Hs _]]).
      + by destruct (Hbad rd Hrd).
      + exists d, rd. split_and!; [|done..]. by apply tc_once. }
  split; simpl.
  - intros x. rewrite elem_of_app, list_elem_of_singleton.
    destruct (decide (x = n)) as [->|Hne].
    + rewrite lookup_insert_eq. split; [by right|by eexists].
    + rewrite lookup_insert_ne by done. rewrite (ri_keys _ _ _ HI). tauto.
  - intros x r. destruct (decide (x = n)) as [->|Hne].
    + rewrite lookup_insert_eq. intros [= <-]. by left.
    + rewrite lookup_insert_ne by done. apply (ri_result _ _ _ HI).
  - intros x r. destruct (decide (x = n)) as [->|Hne].
    + rewrite lookup_insert_eq. intros _ _. exists f, rf.
      rewrite lookup_insert_ne by (symmetry; by eapply Hother). done.
    + rewrite lookup_insert_ne by done. intros Hx Hs.
      destruct (ri_skip _ _ _ HI x r Hx Hs) as (f' & rf' & Hxf & Hf' & Hs').
      exists f', rf'.
      rewrite lookup_insert_ne by (symmetry; by eapply Hother). done.
  - destruct (ri_status _ _ _ HI) as [[_ Hall]|[Hst (x & r & Hx & Hs)]].
    + specialize (Hall f rf Hf). congruence.
    + right. split; [done|]. exists x, r.
      rewrite lookup_insert_ne by (symmetry; by eapply Hother). done.
  - intros x. rewrite (ri_started _ _ _ HI). destruct (decide (x = n)) as [->|Hne].
    + rewrite lookup_insert_eq, Hnone. split.
      * by intros (r & ? & _).
      * intros (r & [= <-] & Hs). by destruct Hs.
    + by rewrite lookup_insert_ne.
  - apply (ri_once _ _ _ HI).
  - intros x Hx. rewrite (ri_outputs _ _ _ HI x Hx).
    destruct (decide (x = n)) as [->|Hne].
    + by rewrite lookup_insert_eq, Hnone.
    + by rewrite lookup_insert_ne.
Qed.

Lemma RunInv_run done n rest node st r m' :
  total = (done ++ n :: rest)%list → RunInv workflow done st →
  findNode workflow n = Some node →
  executeNode node (machine st) = Some (r, m') →
  RunInv workflow (done ++ [n])
    {| run_results := <[n := r]> (run_results st);
       run_status := if decide (status r = FAILED) then failed
                     else run_status st;
       machine := storeOutput n r m' |}.
Proof.
  intros Htotal HI Hnode Hexec.
  assert (n ∉ done) as Hn.
  { rewrite Htotal in Hnd. apply NoDup_app in Hnd as (_ & Hdisj & _).
    intros Hin. apply (Hdisj n Hin), elem_of_cons. by left. }
  assert (run_results st !! n = None) as Hnone.
  { apply eq_None_not_Some. by rewrite (ri_keys _ _ _ HI). }
  assert (∀ f rf, run_results st !! f = Some rf → f ≠ n) as Hother
    by (intros f rf Hf ->; congruence).
  destruct (findNode_Some _ _ _ Hnode) as [Hid Hin].
  destruct (executeNode_shape _ _ _ _ Hexec) as (Hrid & Hst & evs & Hevs & Hall & _).
  assert (status r ≠ SKIPPED) as Hns by (destruct Hst as [->|[-> _]]; done).
  split; simpl.
  - intros x. rewrite elem_of_app, list_elem_of_singleton.
    destruct (decide (x = n)) as [->|Hne].
    + rewrite lookup_insert_eq. split; [by right|by eexists].
    + rewrite lookup_insert_ne by done. rewrite (ri_keys _ _ _ HI). tauto.
  - intros x r'. destruct (decide (x = n)) as [->|Hne].
    + rewrite lookup_insert_eq. intros [= <-]. right.
      by exists node, (machine st), m'.
    + rewrite lookup_insert_ne by done. apply (ri_result _ _ _ HI).
  - intros x r'. destruct (decide (x = n)) as [->|Hne].
    + rewrite lookup_insert_eq. by intros [= <-] ?.
    + rewrite lookup_insert_ne by done. intros Hx Hs.
      destruct (ri_skip _ _ _ HI x r' Hx Hs) as (f' & rf' & Hxf & Hf' & Hs').
      exists f', rf'.
      rewrite lookup_insert_ne by (symmetry; by eapply Hother). done.
  - case_decide as Hfailed.
    + right. split; [done|]. exists n, r. by rewrite lookup_insert_eq.
    + destruct (ri_status _ _ _ HI) as [[Hs Hsucc]|[Hs (x & r' & Hx & Hf)]].
      * left. split; [done|]. intros x r'.
        destruct (decide (x = n)) as [->|Hne].
        -- rewrite lookup_insert_eq. intros [= <-]. by destruct Hst as [?|[? _]].
        -- rewrite lookup_insert_ne by done. apply Hsucc.
      * right. split; [done|]. exists x, r'.
        rewrite lookup_insert_ne by (symmetry; by eapply Hother). done.
  - intros x. rewrite storeOutput_events, Hevs.
    rewrite elem_of_app, elem_of_cons, (ri_started _ _ _ HI).
    destruct (decide (x = n)) as [->|Hne].
    + rewrite lookup_insert_eq. split; [by exists r|].
      intros _. right. left. by rewrite Hid.
    + rewrite lookup_insert_ne by done. split; [|by left].
      intros [?|[[= Heq]|Hin']]; [done|congruence|].
      rewrite Forall_forall in Hall. by destruct (Hall _ Hin' x).
  - rewrite storeOutput_events, Hevs.
    change (node_start (id node) :: evs) with ([node_start (id node)] ++ evs)%list.
    rewrite !startedNodes_app, (startedNodes_none evs Hall), app_nil_r.
    apply NoDup_app. split_and!; [apply (ri_once _ _ _ HI)| |apply NoDup_singleton].
    intros x Hx [= ->]%list_elem_of_singleton.
    apply elem_of_startedNodes, (ri_started _ _ _ HI) in Hx as (r' & Hr' & _).
    congruence.
  - intros x Hx. rewrite storeOutput_outputs.
    pose proof (executeNode_outputs x _ _ _ _ Hx Hexec) as Hout.
    destruct (decide (x = n)) as [->|Hne].
    + rewrite lookup_insert_eq. simpl.
      destruct (recorded (output r)) as [o|].
      * by rewrite lookup_insert_eq.
      * by rewrite Hout, (ri_outputs _ _ _ HI n Hx), Hnone.
    + rewrite lookup_insert_ne by done.
      rewrite <- (ri_outputs _ _ _ HI x Hx), <- Hout.
      destruct (recorded (output r)) as [o|]; [|done].
      by rewrite lookup_insert_ne.
Qed.

Lemma nodeLoop_run done order st st' :
  total = (done ++ order)%list → RunInv workflow done st →
  nodeLoop workflow order st = Some st' →
  RunInv workflow total st' ∨ stoppedAt workflow total st'.
Proof.
  revert done st. induction order as [|n rest IH]; intros done st Htotal HI; simpl.
  - intros [= <-]. left. by rewrite Htotal, app_nil_r.
  - destruct (aborted (ext (machine st))) eqn:Hab.
    { intros [= <-]. right. by exists done, n, rest, st. }
    destruct (Hfind n) as [node Hnode].
    { rewrite Htotal. apply elem_of_app. right. apply elem_of_cons. by left. }
    rewrite Hnode.
    assert (total = ((done ++ [n]) ++ rest)%list) as Htotal'
      by (by rewrite <- app_assoc).
    destruct (checkDependencies node (run_results st)) eqn:Hcheck; simpl.
    + destruct (executeNode node (machine st)) as [[r m']|] eqn:Hexec; [|done].
      apply (IH (done ++ [n])%list); [done|].
      by apply (RunInv_run done n rest node).
    + apply (IH (done ++ [n])%list); [done|].
      by apply (RunInv_skip done n rest node).
Qed.

End Loop.

(** The run of a valid workflow: the result is read off the state the node
    loop leaves, which went through the whole execution order or was
    cancelled on the way. *)
Lemma executeWorkflow_run workflow initialContext (e0 : Ext) :
  valid workflow →
  ∃ order st',
    NoDup order ∧ (∀ x, x ∈ order ↔ x ∈ id <$> nodes workflow)
    ∧ nodeLoop workflow order (initialState workflow initialContext e0)
      = Some st'
    ∧ executeWorkflow workflow initialContext e0
      = Some (Returned {| res_workflowId := wf_id workflow;
                          res_executionId := (uuidv4 e0).1;
                          res_status := run_status st';
                          nodeResults := run_results st';
                          context := ctx (machine st') |},
              emitEvent (workflow_complete (run_status st')) (machine st'))
    ∧ (RunInv workflow order st' ∨ stoppedAt workflow order st').
Proof.
  intros Hvalid.
  destruct (executionOrder_spec workflow Hvalid)
    as (order & Horder & Hnd & Hmem & Hprec).
  destruct (executeWorkflow_valid workflow initialContext e0 order Hvalid Horder)
    as (st' & Hloop & Hrun).
  destruct (valid_inv workflow Hvalid) as (Hids & _ & _).
  exists order, st'. split_and!; [done..|].
  eapply (nodeLoop_run workflow order Hnd) with (done := []); [| |done| |exact Hloop].
  - intros x (node & -> & Hin)%Hmem%list_elem_of_fmap. exists node.
    by apply findNode_unique.
  - intros l1 x l2 node d Heq Hnode Hd.
    apply findNode_Some in Hnode as [<- Hin].
    destruct (Hprec node d Hin Hd) as (a & b & c & Hsplit).
    rewrite Hsplit in Heq.
    assert ((a ++ d :: b ++ id node :: c)%list
            = ((a ++ d :: b) ++ id node :: c)%list) as Hassoc
      by (by rewrite <- app_assoc).
    rewrite Hassoc in Heq. rewrite Hsplit, Hassoc in Hnd.
    destruct (NoDup_split_unique _ _ _ _ _ Hnd Heq) as [<- _].
    apply elem_of_app. right. apply elem_of_cons. by left.
  - apply RunInv_initial.
Qed.

End RunFacts.

Section RunResults.
Context {Ext : Type} `{!World Ext}.
Implicit Types (st : RunState Ext) (workflow : WorkflowDefinition).

(** Cancelled or not, the results and the machine are those of a state that
    went through some of the execution order. *)
Lemma run_cases workflow order st' :
  RunInv workflow order st' ∨ stoppedAt workflow order st' →
  ∃ l st1, (∀ x, x ∈ l → x ∈ order) ∧ RunInv workflow l st1
           ∧ run_results st' = run_results st1 ∧ machine st' = machine st1.
Proof.
  intros [HI|(l1 & n & l2 & st1 & -> & HI & _ & ->)].
  - by exists order, st'.
  - exists l1, st1. split_and!; [|done..].
    intros x Hx. apply elem_of_app. by left.
Qed.


End RunResults.

(** X10. What the status of a valid workflow's run means. It is [success]
    exactly when every node of the workflow is recorded with status
    [success]; [partial] exactly when some node has no entry in
    [nodeResults] (the run was cancelled before reaching it); [failed]
    exactly when every node has an entry and one of them is [failed]. In
    particular a cancelled run is [partial] even if a node had failed. *)
Theorem X10_status_of_run {Ext : Type} `{!World Ext}
    (workflow : WorkflowDefinition) (initialContext : gmap string JSValue)
    (e0 : Ext) :
  valid workflow →
  ∃ r m,
    executeWorkflow workflow initialContext e0 = Some (Returned r, m)
    ∧ (res_status r = success
       ↔ ∀ node, node ∈ nodes workflow →
           ∃ res, nodeResults r !! id node = Some res ∧ status res = SUCCESS)
    ∧ (res_status r = partial
       ↔ ∃ node, node ∈ nodes workflow ∧ nodeResults r !! id node = None)
    ∧ (res_status r = failed
       ↔ (∀ node, node ∈ nodes workflow → is_Some (nodeResults r !! id node))
         ∧ ∃ node res, node ∈ nodes workflow
             ∧ nodeResults r !! id node = Some res ∧ status res = FAILED).
Proof.
  intros Hvalid.
  destruct (executeWorkflow_run workflow initialContext e0 Hvalid)
    as (order & st' & Hnd & Hmem & Hloop & Hrun & Hcases).
  eexists _, _. split; [exact Hrun|]. simpl.
  assert (∀ node, node ∈ nodes workflow → id node ∈ order) as Hin
    by (intros node Hnode; by apply Hmem, list_elem_of_fmap_2).
  destruct Hcases as [HI|(l1 & n & l2 & st1 & -> & HI & _ & ->)]; simpl.
  - assert (∀ node, node ∈ nodes workflow →
                    is_Some (run_results st' !! id node)) as Hall.
    { intros node Hnode. apply (ri_keys _ _ _ HI). by apply Hin. }
    destruct (ri_status _ _ _ HI) as [[Hs Hsucc]|[Hs (x & rx & Hx & Hf)]].
    + rewrite Hs. split_and!.
      * split; [|done]. intros _ node Hnode.
        destruct (Hall node Hnode) as [res Hres]. exists res.
        split; [done|]. by eapply Hsucc.
      * split; [done|]. intros (node & Hnode & Hnone).
        destruct (Hall node Hnode) as [res Hres]. congruence.
      * split; [done|]. intros (_ & node & res & _ & Hres & Hf).
        specialize (Hsucc _ _ Hres). congruence.
    + rewrite Hs. split_and!.
      * split; [done|]. intros Hsucc.
        assert (x ∈ order) as Hxo by (apply (ri_keys _ _ _ HI); by eexists).
        apply Hmem, list_elem_of_fmap in Hxo as (node & -> & Hnode).
        destruct (Hsucc node Hnode) as (res & Hres & Hok). congruence.
      * split; [done|]. intros (node & Hnode & Hnone).
        destruct (Hall node Hnode) as [res Hres]. congruence.
      * split; [|done]. intros _. split; [done|].
        assert (x ∈ order) as Hxo by (apply (ri_keys _ _ _ HI); by eexists).
        apply Hmem, list_elem_of_fmap in Hxo as (node & -> & Hnode).
        by exists node, rx.
  - assert (n ∈ (l1 ++ n :: l2)%list) as Hn
      by (apply elem_of_app; right; apply elem_of_cons; by left).
    apply Hmem, list_elem_of_fmap in Hn as (node & -> & Hnode).
    assert (run_results st1 !! id node = None) as Hnone.
    { apply eq_None_not_Some. rewrite (ri_keys _ _ _ HI).
      apply NoDup_app in Hnd as (_ & Hdisj & _).
      intros Hl1. apply (Hdisj _ Hl1), elem_of_cons. by left. }
    split_and!.
    + split; [done|]. intros Hsucc.
      destruct (Hsucc node Hnode) as (res & Hres & _). congruence.
    + split; [|done]. intros _. by exists node.
    + split; [done|]. intros (Hall & _).
      destruct (Hall node Hnode) as [res Hres]. congruence.
Qed.

Lemma X10_witness :
  ∃ r m,
    executeWorkflow chainWorkflow ∅ quiet = Some (Returned r, m)
    ∧ (res_status r = success
       ↔ ∀ node, node ∈ nodes chainWorkflow →
           ∃ res, nodeResults r !! id node = Some res ∧ status res = SUCCESS)
    ∧ (res_status r = partial
       ↔ ∃ node, node ∈ nodes chainWorkflow ∧ nodeResults r !! id node = None)
    ∧ (res_status r = failed
       ↔ (∀ node, node ∈ nodes chainWorkflow →
                  is_Some (nodeResults r !! id node))
         ∧ ∃ node res, node ∈ nodes chainWorkflow
             ∧ nodeResults r !! id node = Some res ∧ status res = FAILED).
Proof.
  apply (X10_status_of_run chainWorkflow ∅ quiet).
  vm_compute. reflexivity.
Defined.

(** X11. What [nodeResults] can hold, for any workflow and any world.
    [executeWorkflow] returns, and every entry is filed under the id of a
    node of the workflow and carries that id; it is [success], or [failed]
    with no output, or the skipped record (no output, no error, 0 attempts);
    no entry is left [pending] or [running]. A skipped node has, down its
    chain of dependencies, a node recorded as [failed]: nothing is skipped
    without a failure as its cause. *)
Theorem X11_nodeResults_entries {Ext : Type} `{!World Ext}
    (workflow : WorkflowDefinition) (initialContext : gmap string JSValue)
    (e0 : Ext) :
  ∃ r m,
    executeWorkflow workflow initialContext e0 = Some (Returned r, m)
    ∧ ∀ x res, nodeResults r !! x = Some res →
        x ∈ id <$> nodes workflow
        ∧ nodeId res = x
        ∧ (status res = SUCCESS
           ∨ (status res = FAILED ∧ output res = JUndefined)
           ∨ res = skippedResult x)
        ∧ (status res = SKIPPED →
           ∃ f rf, tc (dependsOn (nodes workflow)) x f
                   ∧ nodeResults r !! f = Some rf ∧ status rf = FAILED).
Proof.
  destruct (validateWorkflow_total workflow) as [[[]|e] Hv].
  - destruct (executeWorkflow_run workflow initialContext e0 Hv)
      as (order & st' & Hnd & Hmem & Hloop & Hrun & Hcases).
    eexists _, _. split; [exact Hrun|]. simpl.
    destruct (run_cases _ _ _ Hcases) as (l & st1 & Hsub & HI & -> & _).
    intros x res Hres. split_and!.
    + apply Hmem, Hsub, (ri_keys _ _ _ HI). by eexists.
    + destruct (ri_result _ _ _ HI x res Hres) as [->|Hp]; [done|].
      by apply producedBy_shape in Hp as (_ & ? & _).
    + destruct (ri_result _ _ _ HI x res Hres) as [->|Hp]; [by right; right|].
      apply producedBy_shape in Hp as (_ & _ & [?|?]); [by left|by right; left].
    + by apply (ri_skip _ _ _ HI).
  - eexists _, _. split; [by apply executeWorkflow_invalid|]. simpl.
    intros x res. by rewrite lookup_empty.
Qed.

(** X12. Events and results agree, for any workflow and any world: a
    [node_start] event for [x] is in the log exactly when [x] is recorded
    with a status other than [skipped], that is when the node was really
    run; no node is started twice; a [workflow_error] event is in the log
    exactly when the workflow failed validation (a failing node never
    produces one). *)
Theorem X12_events_match_results {Ext : Type} `{!World Ext}
    (workflow : WorkflowDefinition) (initialContext : gmap string JSValue)
    (e0 : Ext) :
  ∃ r m,
    executeWorkflow workflow initialContext e0 = Some (Returned r, m)
    ∧ (∀ x, node_start x ∈ events m
            ↔ ∃ res, nodeResults r !! x = Some res ∧ status res ≠ SKIPPED)
    ∧ NoDup (startedNodes (events m))
    ∧ ((∃ e, workflow_error e ∈ events m) ↔ ¬ valid workflow).
Proof.
  destruct (validateWorkflow_total workflow) as [[[]|e] Hv].
  - destruct (executeWorkflow_run workflow initialContext e0 Hv)
      as (order & st' & Hnd & Hmem & Hloop & Hrun & Hcases).
    eexists _, _. split; [exact Hrun|]. simpl.
    destruct (run_cases _ _ _ Hcases) as (l & st1 & Hsub & HI & Hr & Hmach).
    split_and!.
    + intros x. rewrite elem_of_app, list_elem_of_singleton, Hr, Hmach.
      rewrite <- (ri_started _ _ _ HI x). split; [|by left].
      by intros [?|?].
    + rewrite startedNodes_app, app_nil_r, Hmach. apply (ri_once _ _ _ HI).
    + split; [|done]. intros [err Herr].
      apply elem_of_app in Herr as [Herr|Herr%list_elem_of_singleton]; [|done].
      apply nodeLoop_events in Hloop as (evs & Heq & Hall).
      rewrite Heq, initialState_events in Herr.
      apply elem_of_cons in Herr as [?|Herr]; [done|].
      rewrite Forall_forall in Hall.
      by destruct (Hall _ Herr) as (k & ? & _).
  - eexists _, _. split; [by apply executeWorkflow_invalid|]. simpl.
    rewrite initialState_events. split_and!.
    + intros x. rewrite lookup_empty. split.
      * intros Hin. repeat (apply elem_of_cons in Hin as [?|Hin]; [done|]).
        by apply elem_of_nil in Hin.
      * by intros (res & ? & _).
    + apply NoDup_nil_2.
    + split.
      * intros _. unfold valid. congruence.
      * intros _. exists (toError e). apply elem_of_cons. right.
        apply elem_of_cons. by left.
Qed.

(** X13. [context.outputs] mirrors the results, for any workflow: provided
    no node body or expression writes [outputs[x]] itself, the returned
    context has [outputs[x]] exactly when [x] is recorded with an output
    other than [undefined], and then it is that output; failed and skipped
    nodes, and nodes returning [undefined], leave no entry. *)
Theorem X13_outputs_mirror_results {Ext : Type} `{!World Ext}
    (workflow : WorkflowDefinition) (initialContext : gmap string JSValue)
    (e0 : Ext) :
  ∃ r m,
    executeWorkflow workflow initialContext e0 = Some (Returned r, m)
    ∧ ∀ x, bodiesKeepOutput x →
        outputs (context r) !! x
        = nodeResults r !! x ≫= λ res, recorded (output res).
Proof.
  destruct (validateWorkflow_total workflow) as [[[]|e] Hv].
  - destruct (executeWorkflow_run workflow initialContext e0 Hv)
      as (order & st' & Hnd & Hmem & Hloop & Hrun & Hcases).
    eexists _, _. split; [exact Hrun|]. simpl.
    destruct (run_cases _ _ _ Hcases) as (l & st1 & Hsub & HI & -> & ->).
    apply (ri_outputs _ _ _ HI).
  - eexists _, _. split; [by apply executeWorkflow_invalid|]. simpl.
    intros x _. by rewrite initialState_outputs, !lookup_empty.
Qed.

Lemma bodiesKeepOutput_TestWorld (k : string) : bodiesKeepOutput k.
Proof. split; intros; reflexivity. Qed.

Lemma X13_witness :
  ∃ r m,
    executeWorkflow chainWorkflow ∅ quiet = Some (Returned r, m)
    ∧ outputs (context r) !! "node-1"
      = nodeResults r !! "node-1" ≫= λ res, recorded (output res).
Proof.
  destruct (X13_outputs_mirror_results chainWorkflow ∅ quiet)
    as (r & m & Hrun & Hout).
  exists r, m. split; [exact Hrun|].
  apply Hout, bodiesKeepOutput_TestWorld.
Defined.



(** ** What [validateWorkflow] accepts and what it reports *)

Lemma checkDuplicates_Thrown ns (seen : gset string) e :
  checkDuplicates ns seen = Thrown e →
  ∃ l1 node l2,
    ns = (l1 ++ node :: l2)%list ∧ NoDup (id <$> l1)
    ∧ (∀ x, x ∈ id <$> l1 → x ∉ seen)
    ∧ (id node ∈ seen ∨ id node ∈ id <$> l1)
    ∧ e = ErrorObj ("Duplicate node ID: " +:+ id node).
Proof.
  revert seen. induction ns as [|node rest IH]; intros seen; simpl; [done|].
  case_decide as Hin.
  - intros [= <-]. exists [], node, rest. split_and!; try done.
    + constructor.
    + by intros x ?%elem_of_nil.
    + by left.
  - intros (l1 & node' & l2 & -> & Hnd & Hfresh & Hdup & ->)%IH.
    exists (node :: l1), node', l2. split_and!; try done.
    + simpl. apply NoDup_cons. split; [|done].
      intros Hid. apply (Hfresh _ Hid). set_solver.
    + intros x [->|Hx]%elem_of_cons; [done|].
      specialize (Hfresh _ Hx). set_solver.
    + destruct Hdup as [[->%elem_of_singleton|?]%elem_of_union|?].
      * right. apply elem_of_cons. by left.
      * by left.
      * right. apply elem_of_cons. by right.
Qed.

Lemma checkNodeDependencies_Thrown (nodeIds : gset string) nid deps e :
  checkNodeDependencies nodeIds nid deps = Thrown e →
  ∃ d1 d d2,
    deps = (d1 ++ d :: d2)%list ∧ (∀ x, x ∈ d1 → x ∈ nodeIds) ∧ (d ∉ nodeIds)
    ∧ e = ErrorObj ("Node " +:+ nid +:+ " has invalid dependency: " +:+ d).
Proof.
  induction deps as [|d deps IH]; simpl; [done|].
  case_decide as Hin.
  - intros (d1 & d' & d2 & -> & Hd1 & Hd' & ->)%IH.
    exists (d :: d1), d', d2. split_and!; try done.
    by intros x [->|?]%elem_of_cons; [|apply Hd1].
  - intros [= <-]. exists [], d, deps. split_and!; try done.
    by intros x ?%elem_of_nil.
Qed.

Lemma checkInvalidDependencies_Thrown (nodeIds : gset string) ns e :
  checkInvalidDependencies nodeIds ns = Thrown e →
  ∃ l1 node l2 d1 d d2,
    ns = (l1 ++ node :: l2)%list
    ∧ (∀ n x, n ∈ l1 → x ∈ dependencies n → x ∈ nodeIds)
    ∧ dependencies node = (d1 ++ d :: d2)%list
    ∧ (∀ x, x ∈ d1 → x ∈ nodeIds) ∧ (d ∉ nodeIds)
    ∧ e = ErrorObj ("Node " +:+ id node +:+ " has invalid dependency: " +:+ d).
Proof.
  induction ns as [|node rest IH]; simpl; [done|].
  destruct (checkNodeDependencies nodeIds (id node) (dependencies node))
    as [[]|e'] eqn:Hdeps.
  - intros (l1 & node' & l2 & d1 & d & d2 & -> & Hl1 & Hd & Hd1 & Hbad & ->)%IH.
    exists (node :: l1), node', l2, d1, d, d2. split_and!; try done.
    intros n x [->|Hn]%elem_of_cons Hx.
    + by eapply checkNodeDependencies_Returned.
    + by eapply Hl1.
  - intros [= <-].
    apply checkNodeDependencies_Thrown in Hdeps as (d1 & d & d2 & Hd & Hd1 & Hbad & ->).
    exists [], node, rest, d1, d, d2. split_and!; try done.
    by intros n x ?%elem_of_nil.
Qed.

Lemma checkEntryNodes_Returned (nodeIds : gset string) entries :
  checkEntryNodes nodeIds entries = Returned () →
  ∀ x, x ∈ entries → x ∈ nodeIds.
Proof.
  induction entries as [|y entries IH]; simpl.
  - by intros _ x ?%elem_of_nil.
  - case_decide; [|done]. intros Heq x [->|Hx]%elem_of_cons; [done|].
    by apply IH.
Qed.

Lemma checkEntryNodes_Thrown (nodeIds : gset string) entries e :
  checkEntryNodes nodeIds entries = Thrown e →
  ∃ l1 x l2,
    entries = (l1 ++ x :: l2)%list ∧ (∀ y, y ∈ l1 → y ∈ nodeIds)
    ∧ (x ∉ nodeIds) ∧ e = ErrorObj ("Invalid entry node: " +:+ x).
Proof.
  induction entries as [|y entries IH]; simpl; [done|].
  case_decide as Hin.
  - intros (l1 & x & l2 & -> & Hl1 & Hx & ->)%IH.
    exists (y :: l1), x, l2. split_and!; try done.
    by intros z [->|?]%elem_of_cons; [|apply Hl1].
  - intros [= <-]. exists [], y, entries. split_and!; try done.
    by intros z ?%elem_of_nil.
Qed.

(** The four conditions [validateWorkflow] checks, in its order. *)
Lemma validateWorkflow_cases workflow :
  let ids := id <$> nodes workflow in
  (∃ l1 node l2,
     nodes workflow = (l1 ++ node :: l2)%list ∧ NoDup (id <$> l1)
     ∧ id node ∈ id <$> l1
     ∧ validateWorkflow workflow
       = Some (Thrown (ErrorObj ("Duplicate node ID: " +:+ id node))))
  ∨ (NoDup ids
     ∧ ((∃ l1 node l2 d1 d d2,
           nodes workflow = (l1 ++ node :: l2)%list
           ∧ (∀ n x, n ∈ l1 → x ∈ dependencies n → x ∈ ids)
           ∧ dependencies node = (d1 ++ d :: d2)%list
           ∧ (∀ x, x ∈ d1 → x ∈ ids) ∧ (d ∉ ids)
           ∧ validateWorkflow workflow
             = Some (Thrown (ErrorObj ("Node " +:+ id node
                                       +:+ " has invalid dependency: " +:+ d))))
        ∨ ((∀ node d, node ∈ nodes workflow → d ∈ dependencies node → d ∈ ids)
           ∧ ((hasCycle (nodes workflow)
               ∧ validateWorkflow workflow
                 = Some (Thrown (ErrorObj "Workflow contains circular dependencies")))
              ∨ (¬ hasCycle (nodes workflow)
                 ∧ ((∃ l1 x l2,
                       entryNodes workflow = (l1 ++ x :: l2)%list
                       ∧ (∀ y, y ∈ l1 → y ∈ ids) ∧ (x ∉ ids)
                       ∧ validateWorkflow workflow
                         = Some (Thrown (ErrorObj ("Invalid entry node: " +:+ x))))
                    ∨ ((∀ x, x ∈ entryNodes workflow → x ∈ ids)
                       ∧ validateWorkflow workflow = Some (Returned ())))))))).
Proof.
  intros ids. unfold validateWorkflow.
  destruct (checkDuplicates (nodes workflow) ∅) as [nodeIds|e] eqn:Hdup.
  2:{ left.
      apply checkDuplicates_Thrown in Hdup
        as (l1 & node & l2 & Hns & Hnd & _ & [?%elem_of_empty|Hin] & ->); [done|].
      by exists l1, node, l2. }
  right. apply checkDuplicates_Returned in Hdup as (Hnd & _ & Hids).
  split; [done|].
  assert (∀ x, x ∈ nodeIds ↔ x ∈ ids) as Hmem.
  { intros x. rewrite Hids. set_solver. }
  destruct (checkInvalidDependencies nodeIds (nodes workflow)) as [[]|e] eqn:Hdeps.
  2:{ left.
      apply checkInvalidDependencies_Thrown in Hdeps
        as (l1 & node & l2 & d1 & d & d2 & Hns & Hl1 & Hd & Hd1 & Hbad & ->).
      exists l1, node, l2, d1, d, d2. split_and!; try done.
      - intros n x Hn Hx. by apply Hmem, (Hl1 n).
      - intros x Hx. by apply Hmem, Hd1.
      - by rewrite <- Hmem. }
  right. split.
  { intros node d Hn Hd. apply Hmem.
    by eapply checkInvalidDependencies_Returned. }
  destruct (detectCycle_total (nodes workflow)) as (b & Hb & Hacyc).
  rewrite Hb. destruct b.
  { left. split; [by apply detectCycle_sound|done]. }
  right. split.
  { intros [x Hx]. apply (Hacyc eq_refl x). by apply dependsOn_cycle_edge. }
  destruct (checkEntryNodes nodeIds (entryNodes workflow)) as [[]|e] eqn:Hentry.
  - right. split; [|done]. intros x Hx. apply Hmem.
    by eapply checkEntryNodes_Returned.
  - left. apply checkEntryNodes_Thrown in Hentry as (l1 & x & l2 & He & Hl1 & Hx & ->).
    exists l1, x, l2. split_and!; try done.
    + intros y Hy. by apply Hmem, Hl1.
    + by rewrite <- Hmem.
Qed.

Lemma NoDup_app_repeat {A} (l1 l2 : list A) x :
  x ∈ l1 → ¬ NoDup (l1 ++ x :: l2).
Proof.
  intros Hx (_ & Hdisj & _)%NoDup_app. apply (Hdisj x Hx), elem_of_cons. by left.
Qed.

(** X15. [validateWorkflow] accepts exactly the well-formed workflows: the
    node ids are pairwise distinct, every dependency names a node of the
    workflow, the dependency relation has no cycle, and every entry node
    names a node of the workflow. *)
Theorem X15_validateWorkflow_accepts (workflow : WorkflowDefinition) :
  valid workflow
  ↔ NoDup (id <$> nodes workflow)
    ∧ (∀ node d, node ∈ nodes workflow → d ∈ dependencies node →
                 d ∈ id <$> nodes workflow)
    ∧ ¬ hasCycle (nodes workflow)
    ∧ (∀ x, x ∈ entryNodes workflow → x ∈ id <$> nodes workflow).
Proof.
  unfold valid.
  destruct (validateWorkflow_cases workflow)
    as [(l1 & node & l2 & Hns & _ & Hin & ->)
       |(Hnd & [(l1 & node & l2 & d1 & d & d2 & Hns & _ & Hd & _ & Hbad & ->)
               |(Hdeps & [(Hcyc & ->)
                         |(Hacyc & [(l1 & x & l2 & He & _ & Hx & ->)
                                   |(Hentry & ->)])])])].
  - split; [done|]. intros (Hnd & _). rewrite Hns, fmap_app in Hnd.
    by apply NoDup_app_repeat in Hnd.
  - split; [done|]. intros (_ & Hdeps & _). destruct Hbad.
    apply (Hdeps node).
    + rewrite Hns. apply elem_of_app. right. apply elem_of_cons. by left.
    + rewrite Hd. apply elem_of_app. right. apply elem_of_cons. by left.
  - split; [done|]. by intros (_ & _ & ? & _).
  - split; [done|]. intros (_ & _ & _ & Hentry). destruct Hx.
    apply Hentry. rewrite He. apply elem_of_app. right. apply elem_of_cons.
    by left.
  - done.
Qed.

(** X16. What [validateWorkflow] reports, and in which order. It always
    answers. If an id is repeated, the error names the first node whose id
    was already seen. Otherwise, if a dependency names no node, the error
    names the first such node and its first such dependency. Otherwise, if
    there is a cycle, the error is the circular-dependency one. Otherwise,
    if an entry node names no node, the error names the first such entry. *)
Theorem X16_validation_errors (workflow : WorkflowDefinition) :
  let ids := id <$> nodes workflow in
  let depsExist :=
    ∀ node d, node ∈ nodes workflow → d ∈ dependencies node → d ∈ ids in
  ∃ c, validateWorkflow workflow = Some c
    ∧ (¬ NoDup ids →
       ∃ l1 node l2,
         nodes workflow = (l1 ++ node :: l2)%list ∧ NoDup (id <$> l1)
         ∧ id node ∈ id <$> l1
         ∧ c = Thrown (ErrorObj ("Duplicate node ID: " +:+ id node)))
    ∧ (NoDup ids → ¬ depsExist →
       ∃ l1 node l2 d1 d d2,
         nodes workflow = (l1 ++ node :: l2)%list
         ∧ (∀ n x, n ∈ l1 → x ∈ dependencies n → x ∈ ids)
         ∧ dependencies node = (d1 ++ d :: d2)%list
         ∧ (∀ x, x ∈ d1 → x ∈ ids) ∧ (d ∉ ids)
         ∧ c = Thrown (ErrorObj ("Node " +:+ id node
                                 +:+ " has invalid dependency: " +:+ d)))
    ∧ (NoDup ids → depsExist → hasCycle (nodes workflow) →
       c = Thrown (ErrorObj "Workflow contains circular dependencies"))
    ∧ (NoDup ids → depsExist → ¬ hasCycle (nodes workflow) →
       ¬ (∀ x, x ∈ entryNodes workflow → x ∈ ids) →
       ∃ l1 x l2,
         entryNodes workflow = (l1 ++ x :: l2)%list
         ∧ (∀ y, y ∈ l1 → y ∈ ids) ∧ (x ∉ ids)
         ∧ c = Thrown (ErrorObj ("Invalid entry node: " +:+ x))).
Proof.
  intros ids depsExist.
  assert (∀ l1 (node : NodeConfig) l2 d1 d d2,
            nodes workflow = (l1 ++ node :: l2)%list →
            dependencies node = (d1 ++ d :: d2)%list → d ∉ ids → ¬ depsExist)
    as Hdangling.
  { intros l1 node l2 d1 d d2 Hns Hd Hbad Hall. apply Hbad, (Hall node).
    - rewrite Hns. apply elem_of_app. right. apply elem_of_cons. by left.
    - rewrite Hd. apply elem_of_app. right. apply elem_of_cons. by left. }
  assert (∀ l1 (node : NodeConfig) l2,
            nodes workflow = (l1 ++ node :: l2)%list → id node ∈ id <$> l1 →
            ¬ NoDup ids) as Hrepeat.
  { intros l1 node l2 Hns Hin. unfold ids. rewrite Hns, fmap_app. simpl.
    by apply NoDup_app_repeat. }
  destruct (validateWorkflow_cases workflow)
    as [(l1 & node & l2 & Hns & Hnd1 & Hin & Hv)
       |(Hnd & [(l1 & node & l2 & d1 & d & d2 & Hns & Hl1 & Hd & Hd1 & Hbad & Hv)
               |(Hdeps & [(Hcyc & Hv)
                         |(Hacyc & [(l1 & x & l2 & He & Hl1 & Hx & Hv)
                                   |(Hentry & Hv)])])])];
    eexists; (split; [exact Hv|]).
  - pose proof (Hrepeat _ _ _ Hns Hin). split_and!; try done.
    intros _. by exists l1, node, l2.
  - pose proof (Hdangling _ _ _ _ _ _ Hns Hd Hbad). split_and!; try done.
    intros _ _. by exists l1, node, l2, d1, d, d2.
  - split_and!; done.
  - split_and!; try done. intros _ _ _ _. by exists l1, x, l2.
  - split_and!; done.
Qed.

(** X17. The run of a workflow that validation rejects, whatever the
    reason: [executeWorkflow] returns (it does not throw) the status
    [failed], no node result, the initial context untouched, and the log is
    exactly [workflow_start], [workflow_error] with the validation message,
    [workflow_complete]. No node is started. *)
Theorem X17_rejected_workflow_run {Ext : Type} `{!World Ext}
    (workflow : WorkflowDefinition) (initialContext : gmap string JSValue)
    (e0 : Ext) :
  ¬ valid workflow →
  ∃ e r m,
    validateWorkflow workflow = Some (Thrown e)
    ∧ executeWorkflow workflow initialContext e0 = Some (Returned r, m)
    ∧ res_status r = failed
    ∧ nodeResults r = ∅
    ∧ data (context r) = initialContext
    ∧ outputs (context r) = ∅
    ∧ events m = [workflow_start (wf_id workflow);
                  workflow_error (toError e);
                  workflow_complete failed]
    ∧ ext m = (uuidv4 e0).2.
Proof.
  intros Hinvalid.
  destruct (validateWorkflow_total workflow) as [[[]|e] Hv]; [done|].
  exists e. eexists _, _. split; [done|].
  split; [by apply executeWorkflow_invalid|]. simpl.
  unfold initialState. destruct (uuidv4 e0) as [executionId e1]. simpl.
  split_and!; reflexivity.
Qed.

Lemma X17_witness :
  ∃ e r m,
    validateWorkflow danglingWorkflow = Some (Thrown e)
    ∧ executeWorkflow danglingWorkflow ∅ quiet = Some (Returned r, m)
    ∧ res_status r = failed
    ∧ nodeResults r = ∅
    ∧ data (context r) = ∅
    ∧ outputs (context r) = ∅
    ∧ events m = [workflow_start (wf_id danglingWorkflow);
                  workflow_error (toError e);
                  workflow_complete failed]
    ∧ ext m = (uuidv4 quiet).2.
Proof.
  apply (X17_rejected_workflow_run danglingWorkflow ∅ quiet).
  vm_compute. discriminate.
Defined.

(** ** The order of the log *)

Lemma startsAfterDependencies_quiet workflow (log evs : list ExecutionEvent) :
  startsAfterDependencies workflow log →
  Forall (λ ev, ∀ x, ev ≠ node_start x) evs →
  startsAfterDependencies workflow (log ++ evs).
Proof.
  intros Hlog Hall l1 b l2 node a Heq Hnode Ha.
  assert (node_start b ∉ evs) as Hno.
  { intros Hin. rewrite Forall_forall in Hall. by destruct (Hall _ Hin b). }
  symmetry in Heq.
  apply List.app_eq_app in Heq as [l [[-> Heq]|[-> Heq]]].
  - destruct Hno. rewrite Heq. apply elem_of_app. right. apply elem_of_cons.
    by left.
  - destruct l as [|ev l]; simpl in Heq.
    + destruct Hno. rewrite <- Heq. apply elem_of_cons. by left.
    + injection Heq as <- ->.
      destruct (Hlog l1 b l node a) as [o Ho]; [done..|]. by exists o.
Qed.

Lemma startsAfterDependencies_start workflow (log : list ExecutionEvent) n node :
  startsAfterDependencies workflow log →
  findNode workflow n = Some node →
  (∀ a, a ∈ dependencies node → ∃ o, node_complete a o ∈ log) →
  startsAfterDependencies workflow (log ++ [node_start n]).
Proof.
  intros Hlog Hnode Hdeps l1 b l2 node' a Heq Hnode' Ha.
  destruct l2 as [|ev l2 _] using rev_ind.
  - apply app_inj_tail in Heq as [-> [= ->]].
    rewrite Hnode in Hnode'. injection Hnode' as <-. by apply Hdeps.
  - rewrite app_comm_cons, app_assoc in Heq.
    apply app_inj_tail in Heq as [-> _]. by eapply Hlog.
Qed.

Section LogFacts.
Context {Ext : Type} `{!World Ext}.
Implicit Types (st : RunState Ext) (workflow : WorkflowDefinition).

Lemma checkDependenciesLoop_true deps (results : gmap string NodeExecutionResult) :
  checkDependenciesLoop deps results = true →
  ∀ d, d ∈ deps → ∃ r, results !! d = Some r ∧ status r = SUCCESS.
Proof.
  induction deps as [|d deps IH]; simpl.
  - by intros _ d ?%elem_of_nil.
  - destruct (results !! d) as [r|] eqn:Hd; [|done].
    case_decide as Hs; [|done]. intros Hrest d' [->|Hd']%elem_of_cons.
    + by exists r.
    + by apply IH.
Qed.

Lemma nodeLoop_log_order workflow order st st' :
  completionsLogged st →
  startsAfterDependencies workflow (events (machine st)) →
  nodeLoop workflow order st = Some st' →
  completionsLogged st'
  ∧ startsAfterDependencies workflow (events (machine st')).
Proof.
  revert st. induction order as [|n order IH]; intros st Hdone Hlog; simpl.
  - by intros [= <-].
  - destruct (aborted _); [by intros [= <-]|].
    destruct (findNode workflow n) as [node|] eqn:Hnode; [|by apply IH].
    destruct (checkDependencies node (run_results st)) eqn:Hcheck; simpl.
    + destruct (executeNode node (machine st)) as [[r m']|] eqn:Hexec; [|done].
      destruct (findNode_Some _ _ _ Hnode) as [Hid _].
      destruct (executeNode_shape _ _ _ _ Hexec)
        as (_ & _ & evs & Hevs & Hall & Hcomplete).
      apply IH; [unfold completionsLogged; simpl|simpl].
      * intros x r'. change (events _) with (events (storeOutput n r m')).
        rewrite storeOutput_events, Hevs.
        destruct (decide (x = n)) as [->|Hne].
        -- rewrite lookup_insert_eq. intros [= <-] Hs. exists (output r).
           apply elem_of_app. right. apply elem_of_cons. right.
           rewrite <- Hid. by apply Hcomplete.
        -- rewrite lookup_insert_ne by done. intros Hx Hs.
           destruct (Hdone x r' Hx Hs) as [o Ho]. exists o.
           apply elem_of_app. by left.
      * change (events _) with (events (storeOutput n r m')).
        rewrite storeOutput_events, Hevs.
        change (node_start (id node) :: evs)
          with ([node_start (id node)] ++ evs)%list.
        rewrite app_assoc, Hid.
        apply startsAfterDependencies_quiet; [|done].
        apply (startsAfterDependencies_start _ _ _ node); [done..|].
        intros a Ha.
        destruct (checkDependenciesLoop_true _ _ Hcheck a Ha) as (ra & Hra & Hs).
        by eapply Hdone.
    + apply IH; [unfold completionsLogged; simpl|done].
      intros x r'. destruct (decide (x = n)) as [->|Hne].
      * rewrite lookup_insert_eq. by intros [= <-] ?.
      * rewrite lookup_insert_ne by done. apply Hdone.
Qed.

End LogFacts.

(** X18. The engine never starts a node before its dependencies have
    completed, for any workflow and any world: in the returned log, every
    [node_start] event comes after a [node_complete] event of each
    dependency of the node that is run under that id. *)
Theorem X18_start_after_dependencies_complete {Ext : Type} `{!World Ext}
    (workflow : WorkflowDefinition) (initialContext : gmap string JSValue)
    (e0 : Ext) :
  ∃ r m,
    executeWorkflow workflow initialContext e0 = Some (Returned r, m)
    ∧ ∀ l1 b l2 node a,
        events m = (l1 ++ node_start b :: l2)%list →
        findNode workflow b = Some node → a ∈ dependencies node →
        ∃ o, node_complete a o ∈ l1.
Proof.
  destruct (validateWorkflow_total workflow) as [[[]|e] Hv].
  - destruct (executeWorkflow_run workflow initialContext e0 Hv)
      as (order & st' & Hnd & Hmem & Hloop & Hrun & Hcases).
    eexists _, _. split; [exact Hrun|]. simpl.
    apply nodeLoop_log_order in Hloop as [_ Hlog].
    + apply (startsAfterDependencies_quiet workflow _ [workflow_complete _]);
        [done|]. by repeat constructor.
    + intros x r. by rewrite initialState_results, lookup_empty.
    + rewrite initialState_events. intros l1 b l2 node a Heq.
      destruct l1 as [|ev [|ev' l1]]; done.
  - eexists _, _. split; [by apply executeWorkflow_invalid|]. simpl.
    rewrite initialState_events. intros l1 b l2 node a Heq.
    destruct l1 as [|ev1 [|ev2 [|ev3 [|ev4 l1]]]]; done.
Qed.

(** X19. The frame of the log, for any workflow and any world: it opens
    with the one [workflow_start] event and closes with the one
    [workflow_complete] event, which carries the returned status; in
    between are only events of nodes of the workflow or, for a workflow
    that failed validation, the single [workflow_error]. *)
Theorem X19_log_frame {Ext : Type} `{!World Ext}
    (workflow : WorkflowDefinition) (initialContext : gmap string JSValue)
    (e0 : Ext) :
  ∃ r m middle,
    executeWorkflow workflow initialContext e0 = Some (Returned r, m)
    ∧ events m = (workflow_start (wf_id workflow) :: middle
                  ++ [workflow_complete (res_status r)])%list
    ∧ ((valid workflow
        ∧ Forall (λ ev, ∃ n, eventNode ev = Some n
                             ∧ n ∈ id <$> nodes workflow) middle)
       ∨ (¬ valid workflow ∧ ∃ e, middle = [workflow_error e])).
Proof.
  destruct (validateWorkflow_total workflow) as [[[]|e] Hv].
  - destruct (executeWorkflow_run workflow initialContext e0 Hv)
      as (order & st' & Hnd & Hmem & Hloop & Hrun & Hcases).
    apply nodeLoop_events in Hloop as (evs & Heq & Hall).
    eexists _, _, evs. split; [exact Hrun|]. simpl.
    rewrite Heq, initialState_events. split; [done|]. left. split; [done|].
    eapply Forall_impl; [exact Hall|]. intros ev (n & Hn & Hin).
    exists n. split; [done|]. by apply Hmem.
  - eexists _, _, [workflow_error (toError e)].
    split; [by apply executeWorkflow_invalid|]. simpl.
    rewrite initialState_events. split; [done|]. right. split.
    + unfold valid. congruence.
    + by eexists.
Qed.

(** ** The dependency graph as a data structure *)

Section GraphShape.
Implicit Types (g : OrderedMap.t (list string)) (ns : list NodeConfig).

Lemma add_already (s : list string) k : k ∈ s → OrderedMap.add s k = s.
Proof. intros Hk. unfold OrderedMap.add. by rewrite decide_True. Qed.

Lemma add_fresh (s : list string) k : k ∉ s → OrderedMap.add s k = (s ++ [k])%list.
Proof. intros Hk. unfold OrderedMap.add. by rewrite decide_False. Qed.

Lemma keys_set_add {V} (m : OrderedMap.t V) k v :
  OrderedMap.keys (OrderedMap.set m k v) = OrderedMap.add (OrderedMap.keys m) k.
Proof.
  induction m as [|[k' v'] m IH].
  - rewrite add_fresh; [done|]. by intros ?%elem_of_nil.
  - cbn [OrderedMap.set]. destruct (decide (k' = k)) as [->|Hne].
    + rewrite add_already; [done|]. apply elem_of_cons. by left.
    + change (OrderedMap.keys ((k', v') :: OrderedMap.set m k v))
        with (k' :: OrderedMap.keys (OrderedMap.set m k v)).
      change (OrderedMap.keys ((k', v') :: m)) with (k' :: OrderedMap.keys m).
      rewrite IH. destruct (decide (k ∈ OrderedMap.keys m)) as [Hin|Hin].
      * rewrite !add_already; [done|by apply elem_of_cons; right|done].
      * rewrite !add_fresh; [done| |done].
        intros [->|?]%elem_of_cons; done.
Qed.

Lemma keys_ensureKey_add g k :
  OrderedMap.keys (ensureKey g k) = OrderedMap.add (OrderedMap.keys g) k.
Proof.
  unfold ensureKey, OrderedMap.has.
  destruct (OrderedMap.get g k) eqn:Hk; [|apply keys_set_add].
  apply get_Some_keys in Hk. by rewrite add_already.
Qed.

Lemma keys_addDependent_same g d n :
  OrderedMap.keys (addDependent g d n) = OrderedMap.keys g.
Proof.
  unfold addDependent. destruct (OrderedMap.get g d) as [ds|] eqn:Hg; [|done].
  rewrite keys_set_add. apply add_already. by eapply get_Some_keys.
Qed.

Lemma NoDup_add (s : list string) k : NoDup s → NoDup (OrderedMap.add s k).
Proof.
  intros Hs. unfold OrderedMap.add. case_decide; [done|].
  apply NoDup_app. split_and!; [done| |apply NoDup_singleton].
  by intros x Hx ->%list_elem_of_singleton.
Qed.

Lemma NoDup_foldl_add (s l : list string) :
  NoDup s → NoDup (foldl OrderedMap.add s l).
Proof.
  revert s. induction l as [|k l IH]; intros s Hs; simpl; [done|].
  by apply IH, NoDup_add.
Qed.

Lemma dependencies_fold_keys n deps g :
  OrderedMap.keys
    (foldl (λ g depId, addDependent (ensureKey g depId) depId n) g deps)
  = foldl OrderedMap.add (OrderedMap.keys g) deps.
Proof.
  revert g. induction deps as [|d deps IH]; intros g; simpl; [done|].
  by rewrite IH, keys_addDependent_same, keys_ensureKey_add.
Qed.

Lemma nodes_fold_keys ns g :
  OrderedMap.keys
    (foldl (λ graph node,
              foldl (λ g depId, addDependent (ensureKey g depId) depId (id node))
                    (ensureKey graph (id node)) (dependencies node)) g ns)
  = foldl OrderedMap.add (OrderedMap.keys g) (mentionedIds ns).
Proof.
  revert g. induction ns as [|node ns IH]; intros g; simpl; [done|].
  rewrite IH, dependencies_fold_keys, keys_ensureKey_add.
  unfold mentionedIds. simpl. by rewrite foldl_app.
Qed.

Lemma setsNoDup_ensureKey g k : setsNoDup g → setsNoDup (ensureKey g k).
Proof.
  intros Hg x ds. unfold ensureKey, OrderedMap.has.
  destruct (OrderedMap.get g k) eqn:Hk; [apply Hg|].
  rewrite get_set. case_decide; [|apply Hg]. intros [= <-]. apply NoDup_nil_2.
Qed.

Lemma setsNoDup_addDependent g d n : setsNoDup g → setsNoDup (addDependent g d n).
Proof.
  intros Hg x ds. unfold addDependent.
  destruct (OrderedMap.get g d) as [ds0|] eqn:Hd; [|apply Hg].
  rewrite get_set. case_decide; [|apply Hg]. intros [= <-].
  apply NoDup_add. by eapply Hg.
Qed.

Lemma setsNoDup_build ns : setsNoDup (buildDependencyGraph ns).
Proof.
  unfold buildDependencyGraph.
  assert (setsNoDup []) as Hnil by (by intros x ds).
  revert Hnil. generalize (@nil (string * list string)).
  induction ns as [|node ns IH]; intros g Hg; simpl; [done|].
  apply IH. generalize (setsNoDup_ensureKey g (id node) Hg).
  generalize (ensureKey g (id node)).
  induction (dependencies node) as [|d deps IHd]; intros g' Hg'; simpl; [done|].
  by apply IHd, setsNoDup_addDependent, setsNoDup_ensureKey.
Qed.

End GraphShape.

Lemma elem_of_concat {A} (x : A) (ls : list (list A)) :
  x ∈ concat ls ↔ ∃ l, x ∈ l ∧ l ∈ ls.
Proof.
  induction ls as [|l ls IH]; simpl.
  - split; [by intros ?%elem_of_nil|]. by intros (l & _ & ?%elem_of_nil).
  - rewrite elem_of_app, IH. split.
    + intros [Hx|(l' & Hx & Hl')].
      * exists l. split; [done|]. apply elem_of_cons. by left.
      * exists l'. split; [done|]. apply elem_of_cons. by right.
    + intros (l' & Hx & [->|Hl']%elem_of_cons); [by left|].
      right. by exists l'.
Qed.

(** X20. The graph [buildDependencyGraph] returns, for any list of nodes
    (valid or not). Its keys are the ids the nodes mention, each once, in
    the order of first mention (a node's id, then its dependencies, node
    after node): a dependency that names no node gets a key too. The
    dependents of [x] are exactly the ids of the nodes that list [x] as a
    dependency, each once. *)
Theorem X20_buildDependencyGraph_exact (ns : list NodeConfig) :
  let graph := buildDependencyGraph ns in
  OrderedMap.keys graph = foldl OrderedMap.add [] (mentionedIds ns)
  ∧ NoDup (OrderedMap.keys graph)
  ∧ (∀ x, x ∈ OrderedMap.keys graph ↔ x ∈ mentionedIds ns)
  ∧ (∀ x y, y ∈ default [] (OrderedMap.get graph x) ↔ dependsOn ns y x)
  ∧ (∀ x dependents, OrderedMap.get graph x = Some dependents → NoDup dependents).
Proof.
  intros graph.
  assert (OrderedMap.keys graph = foldl OrderedMap.add [] (mentionedIds ns))
    as Hkeys by apply (nodes_fold_keys ns []).
  split_and!.
  - done.
  - rewrite Hkeys. apply NoDup_foldl_add, NoDup_nil_2.
  - intros x. unfold graph. rewrite buildDependencyGraph_keys.
    unfold mentionedIds. rewrite elem_of_concat. split.
    + intros (node & Hnode & Hx). exists (id node :: dependencies node).
      split; [|by apply (list_elem_of_fmap_2 (λ n, id n :: dependencies n))].
      apply elem_of_cons. naive_solver.
    + intros (l & Hx & (node & -> & Hnode)%list_elem_of_fmap).
      exists node. split; [done|]. by apply elem_of_cons in Hx.
  - intros x y. apply buildDependencyGraph_edge.
  - apply setsNoDup_build.
Qed.

(** ** Reading the context by path *)

Lemma append_empty_r (s : string) : s +:+ EmptyString = s.
Proof.
  induction s as [|c s IH]; [reflexivity|].
  change (String c (s +:+ EmptyString) = String c s). by rewrite IH.
Qed.

Lemma append_char_l (s k : string) c :
  (s +:+ String c EmptyString) +:+ k = s +:+ String c k.
Proof.
  induction s as [|c' s IH]; [reflexivity|].
  change (String c' ((s +:+ String c EmptyString) +:+ k)
          = String c' (s +:+ String c k)).
  by rewrite IH.
Qed.

Lemma splitDots_noDot (k cur : string) :
  noDot k = true → splitDots k cur = [cur +:+ k].
Proof.
  revert cur. induction k as [|c k IH]; intros cur; simpl.
  - intros _. by rewrite append_empty_r.
  - intros [Hc Hk]%andb_prop.
    destruct (Ascii.eqb c ".") eqn:Heq; [done|].
    rewrite IH by exact Hk. by rewrite append_char_l.
Qed.

Lemma splitDots_dot (k q cur : string) :
  noDot k = true →
  splitDots (k +:+ String "." q) cur = (cur +:+ k) :: splitDots q EmptyString.
Proof.
  revert cur. induction k as [|c k IH]; intros cur.
  - intros _. change (EmptyString +:+ String "." q) with (String "." q).
    simpl. by rewrite append_empty_r.
  - intros [Hc Hk]%andb_prop.
    change (String c k +:+ String "." q) with (String c (k +:+ String "." q)).
    simpl. destruct (Ascii.eqb c ".") eqn:Heq; [done|].
    rewrite IH by exact Hk. by rewrite append_char_l.
Qed.

(** The parts of [sec.k] and of [sec.k.q]. *)
Lemma splitDots_section (sec k : string) :
  noDot sec = true → noDot k = true →
  splitDots (sec +:+ String "." k) EmptyString = [sec; k]
  ∧ ∀ q, splitDots (sec +:+ String "." (k +:+ String "." q)) EmptyString
         = sec :: k :: splitDots q EmptyString.
Proof.
  intros Hsec Hk. split; [|intros q]; rewrite (splitDots_dot sec _ _ Hsec).
  - by rewrite (splitDots_noDot k _ Hk).
  - by rewrite (splitDots_dot k _ _ Hk).
Qed.

Lemma lookupField_present (fields : list (string * JSValue)) k v :
  NoDup fields.*1 → (k, v) ∈ fields → lookupField fields k = v.
Proof.
  induction fields as [|[k' v'] fields IH]; simpl.
  - by intros _ ?%elem_of_nil.
  - intros [Hk' Hnd]%NoDup_cons [[= -> ->]|Hin]%elem_of_cons.
    + by rewrite String.eqb_refl.
    + destruct (String.eqb k' k) eqn:Heq; [|by apply IH].
      apply String.eqb_eq in Heq as ->. destruct Hk'.
      by apply (list_elem_of_fmap_2 fst _ (k, v)).
Qed.

Lemma lookupField_map (m : gmap string JSValue) k v :
  m !! k = Some v → lookupField (map_to_list m) k = v.
Proof.
  intros Hk. apply lookupField_present.
  - apply NoDup_fst_map_to_list.
  - by apply elem_of_map_to_list.
Qed.

(** X21. Reading the context by path. For a key [k] without a dot that the
    object holds, the paths [data.k], [variables.k] and [outputs.k] resolve
    to the value stored under [k], and a longer path [data.k.q] goes on from
    that value. (With a dot in [k], as in a node id [a.b], the path
    [outputs.a.b] is split at that dot as well and reads something else.) *)
Theorem X21_resolveContextPath_own_key (c : WorkflowContext) (k : string)
    (v : JSValue) :
  noDot k = true →
  (data c !! k = Some v →
   resolveContextPath ("data." +:+ k) c = v
   ∧ ∀ q, resolveContextPath ("data." +:+ k +:+ String "." q) c
          = resolveParts (splitDots q EmptyString) v)
  ∧ (variables c !! k = Some v →
     resolveContextPath ("variables." +:+ k) c = v
     ∧ ∀ q, resolveContextPath ("variables." +:+ k +:+ String "." q) c
            = resolveParts (splitDots q EmptyString) v)
  ∧ (outputs c !! k = Some v →
     resolveContextPath ("outputs." +:+ k) c = v
     ∧ ∀ q, resolveContextPath ("outputs." +:+ k +:+ String "." q) c
            = resolveParts (splitDots q EmptyString) v).
Proof.
  intros Hk. unfold resolveContextPath.
  destruct (splitDots_section "data" k eq_refl Hk) as [Hd Hdq].
  destruct (splitDots_section "variables" k eq_refl Hk) as [Hv Hvq].
  destruct (splitDots_section "outputs" k eq_refl Hk) as [Ho Hoq].
  split_and!; intros Hlookup; (split; [|intros q]).
  - change ("data." +:+ k) with ("data" +:+ String "." k).
    rewrite Hd. simpl. rewrite (lookupField_map _ k v Hlookup). by destruct v.
  - change ("data." +:+ k +:+ String "." q)
      with ("data" +:+ String "." (k +:+ String "." q)).
    rewrite Hdq. simpl. by rewrite (lookupField_map _ k v Hlookup).
  - change ("variables." +:+ k) with ("variables" +:+ String "." k).
    rewrite Hv. simpl. rewrite (lookupField_map _ k v Hlookup). by destruct v.
  - change ("variables." +:+ k +:+ String "." q)
      with ("variables" +:+ String "." (k +:+ String "." q)).
    rewrite Hvq. simpl. by rewrite (lookupField_map _ k v Hlookup).
  - change ("outputs." +:+ k) with ("outputs" +:+ String "." k).
    rewrite Ho. simpl. rewrite (lookupField_map _ k v Hlookup). by destruct v.
  - change ("outputs." +:+ k +:+ String "." q)
      with ("outputs" +:+ String "." (k +:+ String "." q)).
    rewrite Hoq. simpl. by rewrite (lookupField_map _ k v Hlookup).
Qed.

Lemma X21_witness :
  let c := withData {[ "items" := JArr [JNum 1; JNum 2] ]} emptyContext in
  (data c !! "items" = Some (JArr [JNum 1; JNum 2]) →
   resolveContextPath ("data." +:+ "items") c = JArr [JNum 1; JNum 2]
   ∧ ∀ q, resolveContextPath ("data." +:+ "items" +:+ String "." q) c
          = resolveParts (splitDots q EmptyString) (JArr [JNum 1; JNum 2]))
  ∧ (variables c !! "items" = Some (JArr [JNum 1; JNum 2]) →
     resolveContextPath ("variables." +:+ "items") c = JArr [JNum 1; JNum 2]
     ∧ ∀ q, resolveContextPath ("variables." +:+ "items" +:+ String "." q) c
            = resolveParts (splitDots q EmptyString) (JArr [JNum 1; JNum 2]))
  ∧ (outputs c !! "items" = Some (JArr [JNum 1; JNum 2]) →
     resolveContextPath ("outputs." +:+ "items") c = JArr [JNum 1; JNum 2]
     ∧ ∀ q, resolveContextPath ("outputs." +:+ "items" +:+ String "." q) c
            = resolveParts (splitDots q EmptyString) (JArr [JNum 1; JNum 2])).
Proof.
  apply (X21_resolveContextPath_own_key
           (withData {[ "items" := JArr [JNum 1; JNum 2] ]} emptyContext)
           "items" (JArr [JNum 1; JNum 2])).
  reflexivity.
Defined.

(** ** The choice of a model by tags *)

Lemma firstGreatest_unique {A} (count : A → nat) (l : list A) (a b : A) :
  firstGreatest count l a → firstGreatest count l b → a = b.
Proof.
  intros (l1 & l2 & -> & Hl1 & Hl2) (l1' & l2' & Heq & Hl1' & Hl2').
  revert l1' Heq Hl1 Hl1'. induction l1 as [|x l1 IH]; intros l1' Heq Hl1 Hl1'.
  - destruct l1' as [|x' l1']; simpl in Heq; [by injection Heq|].
    injection Heq as -> ->.
    assert (count x' < count b)%nat by (apply Hl1', elem_of_cons; by left).
    assert (count b ≤ count x')%nat.
    { apply Hl2, elem_of_app. right. apply elem_of_cons. by left. }
    lia.
  - destruct l1' as [|x' l1']; simpl in Heq.
    + injection Heq as -> <-.
      assert (count b < count a)%nat by (apply Hl1, elem_of_cons; by left).
      assert (count a ≤ count b)%nat.
      { apply Hl2', elem_of_app. right. apply elem_of_cons. by left. }
      lia.
    + injection Heq as -> Heq. apply (IH l1' Heq).
      * intros m Hm. apply Hl1, elem_of_cons. by right.
      * intros m Hm. apply Hl1', elem_of_cons. by right.
Qed.

Lemma filter_length_all {A} (f : A → bool) (l : list A) :
  length (List.filter f l) = length l ↔ forallb f l = true.
Proof.
  induction l as [|x l IH]; simpl; [done|].
  pose proof (List.filter_length_le f l) as Hle.
  destruct (f x); simpl.
  - rewrite <- IH. split; [by intros [= ?]|by intros ->].
  - split; [lia|done].
Qed.

Section SelectModelFacts.
Variable toLowerCase : string → string.
Variable tags : list string.

Lemma matchCount_le model : ((matchCount toLowerCase tags) model ≤ length tags)%nat.
Proof. apply List.filter_length_le. Qed.

Lemma matchCount_all model :
  (matchCount toLowerCase tags) model = length tags ↔ forallb (hasTag toLowerCase model) tags = true.
Proof. apply filter_length_all. Qed.

Lemma bestMatchLoop_inv (seen rest : list ModelInfo) best :
  bestSoFar (matchCount toLowerCase tags) seen best →
  bestSoFar (matchCount toLowerCase tags) (seen ++ rest)
    (foldl (λ '(bestMatch, maxMatches) model,
              let matches := (matchCount toLowerCase tags) model in
              if (maxMatches <? matches)%nat then (Some model, matches)
              else (bestMatch, maxMatches)) best rest).
Proof.
  revert seen best. induction rest as [|x rest IH]; intros seen best Hbest; simpl.
  - by rewrite app_nil_r.
  - replace (seen ++ x :: rest)%list with ((seen ++ [x]) ++ rest)%list
      by (by rewrite <- app_assoc).
    apply IH. destruct best as [best max]. unfold bestSoFar in *. simpl in *.
    destruct (Nat.ltb_spec max ((matchCount toLowerCase tags) x)) as [Hlt|Hge]; simpl.
    + split_and!; [done|lia|]. exists seen, []. split_and!; [done| |].
      * intros m Hm. destruct best as [b|].
        -- destruct Hbest as (-> & _ & l1 & l2 & -> & Hl1 & Hl2).
           apply elem_of_app in Hm as [Hm|[->|Hm]%elem_of_cons].
           ++ specialize (Hl1 m Hm). lia.
           ++ done.
           ++ specialize (Hl2 m Hm). lia.
        -- destruct Hbest as [-> Hzero]. rewrite (Hzero m Hm). done.
      * by intros m ?%elem_of_nil.
    + destruct best as [b|].
      * destruct Hbest as (-> & Hpos & l1 & l2 & -> & Hl1 & Hl2).
        split_and!; [done..|]. exists l1, (l2 ++ [x])%list.
        split_and!; [by rewrite <- app_assoc|done|].
        intros m [Hm| ->%list_elem_of_singleton]%elem_of_app; [by apply Hl2|done].
      * destruct Hbest as [-> Hzero]. split; [done|].
        intros m [Hm| ->%list_elem_of_singleton]%elem_of_app; [by apply Hzero|lia].
Qed.

Lemma bestMatchLoop_spec (models : list ModelInfo) :
  bestSoFar (matchCount toLowerCase tags) models (bestMatchLoop toLowerCase tags models).
Proof.
  apply (bestMatchLoop_inv [] models (None, 0%nat)). split; [done|].
  by intros m ?%elem_of_nil.
Qed.

Lemma find_first {A} (f : A → bool) (l : list A) x :
  List.find f l = Some x →
  ∃ l1 l2, l = (l1 ++ x :: l2)%list ∧ f x = true ∧ ∀ y, y ∈ l1 → f y = false.
Proof.
  induction l as [|y l IH]; simpl; [done|].
  destruct (f y) eqn:Hy.
  - intros [= <-]. exists [], l. split_and!; [done..|]. by intros z ?%elem_of_nil.
  - intros (l1 & l2 & -> & Hx & Hl1)%IH. exists (y :: l1), l2.
    split_and!; [done..|]. by intros z [->|?]%elem_of_cons; [|apply Hl1].
Qed.

Lemma selectModelByTags_Some models model :
  selectModelByTags toLowerCase models tags = Some model →
  firstGreatest (matchCount toLowerCase tags) models model ∧ ((0 < (matchCount toLowerCase tags) model)%nat ∨ tags = []).
Proof.
  unfold selectModelByTags.
  destruct (List.find _ models) as [found|] eqn:Hfind.
  - intros [= <-].
    apply (find_first (λ model, forallb (hasTag toLowerCase model) tags))
      in Hfind as (l1 & l2 & -> & Hall & Hl1).
    apply matchCount_all in Hall. split.
    + exists l1, l2. split_and!; [done| |].
      * intros m Hm. pose proof (matchCount_le m) as Hle.
        destruct (decide ((matchCount toLowerCase tags) m = length tags)) as [Heq|?]; [|lia].
        apply matchCount_all in Heq. rewrite (Hl1 m Hm) in Heq. done.
      * intros m _. rewrite Hall. apply matchCount_le.
    + rewrite Hall. destruct tags; [by right|left; simpl; lia].
  - pose proof (bestMatchLoop_spec models) as Hbest. unfold bestSoFar in Hbest.
    destruct (bestMatchLoop toLowerCase tags models).1 as [b|]; [|done].
    intros [= <-]. destruct Hbest as (_ & Hpos & Hfirst). split; [done|by left].
Qed.

Lemma selectModelByTags_None models :
  selectModelByTags toLowerCase models tags = None →
  ∀ m, m ∈ models → (matchCount toLowerCase tags) m = 0%nat ∧ tags ≠ [].
Proof.
  unfold selectModelByTags.
  destruct (List.find _ models) as [found|] eqn:Hfind; [done|].
  pose proof (bestMatchLoop_spec models) as Hbest. unfold bestSoFar in Hbest.
  destruct (bestMatchLoop toLowerCase tags models).1 as [b|]; [done|].
  intros _ m Hm. split; [by apply Hbest|]. intros Htags.
  apply list_elem_of_In in Hm.
  pose proof (List.find_none _ _ Hfind m Hm) as Hnone. simpl in Hnone.
  by rewrite Htags in Hnone.
Qed.

End SelectModelFacts.

(** X22. Which model [selectModelByTags] returns, whatever [toLowerCase]
    does. It returns [model] exactly when [model] is the first registered
    model with the greatest number of matching tags and matches at least one
    tag (or no tag was asked for: then the first registered model is
    returned). The two loops of the code amount to this one choice; the
    answer is [undefined] exactly when no model qualifies. *)
Theorem X22_selectModelByTags_first_best (toLowerCase : string → string)
    (models : list ModelInfo) (tags : list string) (model : ModelInfo) :
  let count := matchCount toLowerCase tags in
  (selectModelByTags toLowerCase models tags = Some model
   ↔ firstGreatest count models model ∧ ((0 < count model)%nat ∨ tags = []))
  ∧ (selectModelByTags toLowerCase models tags = None
     ↔ ∀ m, m ∈ models → count m = 0%nat ∧ tags ≠ []).
Proof.
  intros count. split; split.
  - apply selectModelByTags_Some.
  - intros [Hfirst Hpos].
    destruct (selectModelByTags toLowerCase models tags) as [found|] eqn:Hsel.
    + apply selectModelByTags_Some in Hsel as [Hfound _].
      f_equal. by eapply firstGreatest_unique.
    + destruct Hfirst as (l1 & l2 & -> & _).
      destruct (selectModelByTags_None _ _ _ Hsel model) as [Hzero Htags].
      { apply elem_of_app. right. apply elem_of_cons. by left. }
      fold count in Hzero. destruct Hpos; [lia|done].
  - apply selectModelByTags_None.
  - intros Hnone.
    destruct (selectModelByTags toLowerCase models tags) as [found|] eqn:Hsel;
      [|done].
    apply selectModelByTags_Some in Hsel as [(l1 & l2 & -> & _) Hpos].
    destruct (Hnone found) as [Hzero Htags].
    { apply elem_of_app. right. apply elem_of_cons. by left. }
    fold count in Hpos. destruct Hpos; [lia|done].
Qed.

(** ** The extension manager *)

Lemma lookup_foldl_insert_types (nts : list CustomNodeType)
    (m : gmap string CustomNodeType) t :
  t ∉ nt_type <$> nts →
  foldl (λ m nt, <[nt_type nt := nt]> m) m nts !! t = m !! t.
Proof.
  revert m. induction nts as [|nt nts IH]; intros m; simpl; [done|].
  intros [Hne Hin]%not_elem_of_cons. rewrite IH by done.
  by rewrite lookup_insert_ne.
Qed.

Lemma lookup_foldl_insert_type (nts : list CustomNodeType)
    (m : gmap string CustomNodeType) nt :
  NoDup (nt_type <$> nts) → nt ∈ nts →
  foldl (λ m nt, <[nt_type nt := nt]> m) m nts !! nt_type nt = Some nt.
Proof.
  revert m. induction nts as [|nt' nts IH]; intros m; simpl.
  - by intros _ ?%elem_of_nil.
  - intros [Hfresh Hnd]%NoDup_cons [->|Hin]%elem_of_cons.
    + rewrite lookup_foldl_insert_types by done. by rewrite lookup_insert_eq.
    + by apply IH.
Qed.

Lemma lookup_foldl_delete_types (nts : list CustomNodeType)
    (m : gmap string CustomNodeType) t :
  foldl (λ m nt, delete (nt_type nt) m) m nts !! t
  = if decide (t ∈ nt_type <$> nts) then None else m !! t.
Proof.
  revert m. induction nts as [|nt nts IH]; intros m.
  - destruct (decide (t ∈ nt_type <$> [])) as [Hin|_]; [|done].
    rewrite fmap_nil in Hin. by apply elem_of_nil in Hin.
  - cbn [foldl]. rewrite IH, fmap_cons.
    destruct (decide (t ∈ nt_type <$> nts)) as [Hin|Hin].
    + rewrite decide_True; [done|]. apply elem_of_cons. by right.
    + destruct (decide (t = nt_type nt)) as [->|Hne].
      * rewrite lookup_delete_eq, decide_True; [done|]. apply elem_of_cons. by left.
      * rewrite lookup_delete_ne by done. rewrite decide_False; [done|].
        by intros [?|?]%elem_of_cons.
Qed.

Lemma registerNodeTypes_Returned nts s s' :
  registerNodeTypes nts s = (Returned (), s') →
  extensions s' = extensions s
  ∧ NoDup (nt_type <$> nts)
  ∧ (∀ t, t ∈ nt_type <$> nts → customNodeTypes s !! t = None)
  ∧ customNodeTypes s'
    = foldl (λ m nt, <[nt_type nt := nt]> m) (customNodeTypes s) nts.
Proof.
  revert s. induction nts as [|nt nts IH]; intros s; simpl.
  - intros [= <-]. split_and!; [done|apply NoDup_nil_2| |done].
    by intros t ?%elem_of_nil.
  - unfold registerCustomNodeType.
    destruct (customNodeTypes s !! nt_type nt) eqn:Hnt; [done|].
    intros (Hext & Hnd & Hfresh & Htypes)%IH. simpl in *.
    split_and!; [done| | |done].
    + apply NoDup_cons. split; [|done]. intros Hin.
      specialize (Hfresh _ Hin). by rewrite lookup_insert_eq in Hfresh.
    + intros t [->|Hin]%elem_of_cons; [done|].
      specialize (Hfresh _ Hin).
      destruct (decide (nt_type nt = t)) as [<-|Hne].
      * by rewrite lookup_insert_eq in Hfresh.
      * by rewrite lookup_insert_ne in Hfresh.
Qed.

Lemma registerNodeTypes_Thrown nts s e s' :
  registerNodeTypes nts s = (Thrown e, s') →
  ∃ l1 nt l2,
    nts = (l1 ++ nt :: l2)%list
    ∧ registerNodeTypes l1 s = (Returned (), s')
    ∧ is_Some (customNodeTypes s' !! nt_type nt)
    ∧ e = ErrorObj ("Custom node type already registered: " +:+ nt_type nt).
Proof.
  revert s. induction nts as [|nt nts IH]; intros s; simpl; [done|].
  unfold registerCustomNodeType.
  destruct (customNodeTypes s !! nt_type nt) eqn:Hnt.
  - intros [= <- <-]. exists [], nt, nts. by split_and!.
  - intros (l1 & nt' & l2 & -> & Hl1 & Hclash & ->)%IH.
    exists (nt :: l1), nt', l2. split_and!; [done| |done..].
    simpl. unfold registerCustomNodeType. by rewrite Hnt.
Qed.

(** X23. Registering an extension and taking it back. When
    [registerExtension] succeeds, the extension is filed under its id, each
    of its node types can be looked up under its type name, every other
    type name is answered as before, and (if [dispose] does not throw)
    [unregisterExtension] on that id gives back exactly the manager as it
    was before the registration. *)
Theorem X23_register_unregister_round_trip (extension : PluginExtension)
    (s s' : ExtensionManager) :
  registerExtension extension s = (Returned (), s') →
  extensions s' !! ext_id extension = Some extension
  ∧ (∀ nt, nt ∈ default [] (nodeTypes extension) →
           getCustomNode (nt_type nt) s' = Some nt
           ∧ isCustomNodeType (nt_type nt) s' = true)
  ∧ (∀ t, t ∉ nt_type <$> default [] (nodeTypes extension) →
          getCustomNode t s' = getCustomNode t s)
  ∧ ((∀ e, dispose extension ≠ Some (Thrown e)) →
     unregisterExtension (ext_id extension) s' = (Returned (), s)).
Proof.
  unfold registerExtension.
  destruct (extensions s !! ext_id extension) eqn:Hid; [done|].
  assert (∀ s1,
    registerNodeTypes (default [] (nodeTypes extension)) s = (Returned (), s1) →
    let s2 := {| extensions := <[ext_id extension := extension]> (extensions s1);
                 customNodeTypes := customNodeTypes s1 |} in
    extensions s2 !! ext_id extension = Some extension
    ∧ (∀ nt, nt ∈ default [] (nodeTypes extension) →
             getCustomNode (nt_type nt) s2 = Some nt
             ∧ isCustomNodeType (nt_type nt) s2 = true)
    ∧ (∀ t, t ∉ nt_type <$> default [] (nodeTypes extension) →
            getCustomNode t s2 = getCustomNode t s)
    ∧ ((∀ e, dispose extension ≠ Some (Thrown e)) →
       unregisterExtension (ext_id extension) s2 = (Returned (), s))) as Hmain.
  { intros s1 (Hext & Hnd & Hfresh & Htypes)%registerNodeTypes_Returned s2.
    unfold getCustomNode, isCustomNodeType, s2. simpl. split_and!.
    - by rewrite lookup_insert_eq.
    - intros nt Hnt. rewrite Htypes, lookup_foldl_insert_type by done.
      split; [done|]. apply bool_decide_eq_true. by eexists.
    - intros t Ht. by rewrite Htypes, lookup_foldl_insert_types.
    - intros Hdispose. unfold unregisterExtension. simpl.
      rewrite lookup_insert_eq.
      assert (delete (ext_id extension)
                (<[ext_id extension := extension]> (extensions s1))
              = extensions s) as ->.
      { rewrite Hext. apply map_eq. intros k.
        destruct (decide (k = ext_id extension)) as [->|Hne].
        - by rewrite lookup_delete_eq.
        - by rewrite lookup_delete_ne, lookup_insert_ne. }
      assert (foldl (λ m nt, delete (nt_type nt) m) (customNodeTypes s1)
                (default [] (nodeTypes extension))
              = customNodeTypes s) as ->.
      { apply map_eq. intros t. rewrite lookup_foldl_delete_types.
        case_decide as Hin; [by rewrite Hfresh|].
        by rewrite Htypes, lookup_foldl_insert_types. }
      destruct (dispose extension) as [[[]|e]|]; [| |by destruct s].
      + by destruct s.
      + by destruct (Hdispose e). }
  destruct (initialize extension) as [[[]|e]|]; [|done|];
    destruct (registerNodeTypes _ s) as [[[]|e] s1] eqn:Hreg; try done;
    intros [= <-]; by apply Hmain.
Qed.

Lemma X23_witness :
  extensions (registerExtension (mkExtension "ext" [mkNodeType "a"; mkNodeType "b"])
                                emptyManager).2 !! "ext"
  = Some (mkExtension "ext" [mkNodeType "a"; mkNodeType "b"])
  ∧ unregisterExtension "ext"
      (registerExtension (mkExtension "ext" [mkNodeType "a"; mkNodeType "b"])
                         emptyManager).2
    = (Returned (), emptyManager).
Proof.
  destruct (X23_register_unregister_round_trip
              (mkExtension "ext" [mkNodeType "a"; mkNodeType "b"]) emptyManager
              (registerExtension (mkExtension "ext" [mkNodeType "a"; mkNodeType "b"])
                                 emptyManager).2)
    as (Hid & _ & _ & Hback).
  - reflexivity.
  - split; [exact Hid|]. apply Hback. intros e. discriminate.
Defined.

(** X24. A registration that fails is not undone. When [registerExtension]
    throws for an id that was free, the extension is not filed, but the
    node types registered before the failure stay registered (nothing that
    was there is lost), and [unregisterExtension] on that id does nothing:
    it cannot remove them. The failure is the one of [initialize], with the
    manager untouched, or a node type that was already registered, with the
    node types listed before it left behind. *)
Theorem X24_failed_registration_not_undone (extension : PluginExtension)
    (s s' : ExtensionManager) (e : Throwable) :
  registerExtension extension s = (Thrown e, s') →
  extensions s !! ext_id extension = None →
  extensions s' = extensions s
  ∧ customNodeTypes s ⊆ customNodeTypes s'
  ∧ unregisterExtension (ext_id extension) s' = (Returned (), s')
  ∧ ((initialize extension = Some (Thrown e) ∧ s' = s)
     ∨ ∃ l1 nt l2,
         default [] (nodeTypes extension) = (l1 ++ nt :: l2)%list
         ∧ e = ErrorObj ("Custom node type already registered: " +:+ nt_type nt)
         ∧ NoDup (nt_type <$> l1)
         ∧ (∀ nt', nt' ∈ l1 → customNodeTypes s !! nt_type nt' = None
                              ∧ getCustomNode (nt_type nt') s' = Some nt')).
Proof.
  unfold registerExtension. intros Hreg Hid. rewrite Hid in Hreg.
  assert (∀ s1 e1,
    registerNodeTypes (default [] (nodeTypes extension)) s = (Thrown e1, s1) →
    extensions s1 = extensions s
    ∧ customNodeTypes s ⊆ customNodeTypes s1
    ∧ unregisterExtension (ext_id extension) s1 = (Returned (), s1)
    ∧ ∃ l1 nt l2,
        default [] (nodeTypes extension) = (l1 ++ nt :: l2)%list
        ∧ e1 = ErrorObj ("Custom node type already registered: " +:+ nt_type nt)
        ∧ NoDup (nt_type <$> l1)
        ∧ (∀ nt', nt' ∈ l1 → customNodeTypes s !! nt_type nt' = None
                             ∧ getCustomNode (nt_type nt') s1 = Some nt')) as Hmain.
  { intros s1 e1 (l1 & nt & l2 & Hnts & Hl1 & _ & ->)%registerNodeTypes_Thrown.
    apply registerNodeTypes_Returned in Hl1 as (Hext & Hnd & Hfresh & Htypes).
    split_and!.
    - done.
    - apply map_subseteq_spec. intros t nt0 Ht. rewrite Htypes.
      rewrite lookup_foldl_insert_types; [done|].
      intros Hin. specialize (Hfresh _ Hin). congruence.
    - unfold unregisterExtension. by rewrite Hext, Hid.
    - exists l1, nt, l2. split_and!; [done..|].
      intros nt' Hnt'. split.
      + apply Hfresh. by apply list_elem_of_fmap_2.
      + unfold getCustomNode. rewrite Htypes. by apply lookup_foldl_insert_type. }
  destruct (initialize extension) as [[[]|e0]|].
  - destruct (registerNodeTypes _ s) as [[[]|e1] s1] eqn:Hnts; [done|].
    injection Hreg as <- <-.
    destruct (Hmain s1 e1 eq_refl) as (? & ? & ? & ?). split_and!; [done..|by right].
  - injection Hreg as <- <-. split_and!; [done|done| |by left].
    unfold unregisterExtension. by rewrite Hid.
  - destruct (registerNodeTypes _ s) as [[[]|e1] s1] eqn:Hnts; [done|].
    injection Hreg as <- <-.
    destruct (Hmain s1 e1 eq_refl) as (? & ? & ? & ?). split_and!; [done..|by right].
Qed.

Lemma X24_witness :
  let extension := mkExtension "ext" [mkNodeType "a"; mkNodeType "a"] in
  let s' := (registerExtension extension emptyManager).2 in
  let e := ErrorObj "Custom node type already registered: a" in
  (extensions s' = extensions emptyManager
   ∧ customNodeTypes emptyManager ⊆ customNodeTypes s'
   ∧ unregisterExtension (ext_id extension) s' = (Returned (), s')
   ∧ ((initialize extension = Some (Thrown e) ∧ s' = emptyManager)
      ∨ ∃ l1 nt l2,
          default [] (nodeTypes extension) = (l1 ++ nt :: l2)%list
          ∧ e = ErrorObj ("Custom node type already registered: " +:+ nt_type nt)
          ∧ NoDup (nt_type <$> l1)
          ∧ (∀ nt', nt' ∈ l1 → customNodeTypes emptyManager !! nt_type nt' = None
                               ∧ getCustomNode (nt_type nt') s' = Some nt')))
  ∧ getCustomNode "a" s' = Some (mkNodeType "a").
Proof.
  split.
  - apply (X24_failed_registration_not_undone
             (mkExtension "ext" [mkNodeType "a"; mkNodeType "a"]) emptyManager).
    + reflexivity.
    + reflexivity.
  - reflexivity.
Defined.

(** ** [topologicalSort] on any graph *)

Module SortAny.
Import TopologicalSort SortInv.

Section Graph.
Variable g : OrderedMap.t (list string).
Hypothesis closed : ∀ x y, edge g x y → y ∈ keySet g.

Lemma dependentsLoop_any rec ds st :
  (∀ d s, d ∈ ds → Inv g s → temp s = temp st →
          ∃ c, rec d s = Some c ∧ visitOutcome g d s c) →
  Inv g st →
  ∃ c, dependentsLoop rec ds st = Some c
    ∧ match c with
      | Returned st' =>
          Inv g st' ∧ temp st' = temp st ∧ visited st ⊆ visited st'
          ∧ ∀ d, d ∈ ds → d ∈ visited st'
      | Thrown e => e = ErrorObj "Circular dependency detected"
      end.
Proof.
  revert st. induction ds as [|d ds IH]; intros st Hrec HI; simpl.
  - exists (Returned st). split_and!; try done.
    intros d Hd. by apply elem_of_nil in Hd.
  - destruct (Hrec d st) as (c & Heq & Hc); [apply elem_of_cons; by left|done..|].
    rewrite Heq. destruct c as [s'|e]; [|by exists (Thrown e)].
    destruct Hc as (HI' & Ht & Hsub & Hd).
    destruct (IH s') as (c' & Heq' & Hc'); [|done|].
    { intros d' s Hd' HIs Hts. apply Hrec; [|done|congruence].
      apply elem_of_cons. by right. }
    exists c'. split; [done|]. destruct c' as [st'|e]; [|done].
    destruct Hc' as (HI'' & Ht' & Hsub' & Hds).
    split_and!; [done|congruence|set_solver|].
    intros d' [->|Hd']%elem_of_cons; [set_solver|by apply Hds].
Qed.

Lemma visit_any fuel nodeId st :
  (size (keySet g ∖ temp st) < fuel)%nat → Inv g st → nodeId ∈ keySet g →
  ∃ c, visit fuel g nodeId st = Some c ∧ visitOutcome g nodeId st c.
Proof.
  revert nodeId st.
  induction fuel as [|fuel IH]; intros nodeId st Hfuel HI HK; [lia|].
  simpl. destruct (decide (nodeId ∈ temp st)) as [Ht|Ht].
  { by eexists. }
  destruct (decide (nodeId ∈ visited st)) as [Hv|Hv].
  { exists (Returned st). split; [done|]. by split_and!. }
  set (st1 := {| result := result st; visited := visited st;
                 temp := {[nodeId]} ∪ temp st |}).
  assert (Inv g st1) as HI1.
  { destruct HI. split; simpl; try done. set_solver. }
  destruct (dependentsLoop_any (visit fuel g)
              (default [] (OrderedMap.get g nodeId)) st1)
    as (c & Heq & Hc); [|done|].
  { intros d s Hd HIs Hts. apply IH; [|done|by eapply closed].
    assert (keySet g ∖ temp s ⊂ keySet g ∖ temp st) as Hlt.
    { rewrite Hts. simpl. apply strict_spec_alt. split; [set_solver|].
      intros Heq. assert (nodeId ∈ keySet g ∖ temp st) as Hin by set_solver.
      rewrite <- Heq in Hin. set_solver. }
    apply subset_size in Hlt. lia. }
  rewrite Heq. destruct c as [st'|e]; [|by exists (Thrown e)].
  destruct Hc as (HI' & Ht' & Hsub & Hds).
  eexists. split; [done|]. simpl in Ht', Hsub.
  destruct HI' as [Hmem Hnd Hdisj Hsort Hkeys].
  assert (nodeId ∉ result st') as Hfresh.
  { rewrite <- Hmem. set_solver. }
  unfold visitOutcome, SortInv.post. split_and!; simpl.
  - split; simpl.
    + intros x. rewrite elem_of_app, elem_of_union, Hmem. set_solver.
    + apply NoDup_app. split_and!; [done| |apply NoDup_singleton].
      intros x Hx ->%list_elem_of_singleton. done.
    + set_solver.
    + rewrite reverse_snoc. simpl. split; [|done].
      intros y Hy. apply elem_of_reverse, Hmem. by apply Hds.
    + set_solver.
  - rewrite Ht'. set_solver.
  - set_solver.
  - set_solver.
Qed.

Lemma keysLoop_any fuel ks st :
  (size (keySet g) < fuel)%nat → (∀ k, k ∈ ks → k ∈ keySet g) →
  Inv g st → temp st = ∅ →
  ∃ c, keysLoop fuel g ks st = Some c
    ∧ match c with
      | Returned st' =>
          Inv g st' ∧ visited st ⊆ visited st' ∧ ∀ k, k ∈ ks → k ∈ visited st'
      | Thrown e => e = ErrorObj "Circular dependency detected"
      end.
Proof.
  intros Hfuel. revert st.
  induction ks as [|k ks IH]; intros st Hks HI Ht; simpl.
  - exists (Returned st). split_and!; try done. by intros k ?%elem_of_nil.
  - assert (∀ k', k' ∈ ks → k' ∈ keySet g) as Hks'.
    { intros k' Hk'. apply Hks, elem_of_cons. by right. }
    destruct (decide (k ∈ visited st)) as [Hv|Hv].
    + destruct (IH st) as (c & Heq & Hc); [done..|].
      exists c. split; [done|]. destruct c as [st'|e]; [|done].
      destruct Hc as (HI' & Hsub & Hall). split_and!; [done..|].
      intros k' [->|Hk']%elem_of_cons; [set_solver|by apply Hall].
    + destruct (visit_any fuel k st) as (c & Heq & Hc); [|done| |].
      { assert (size (keySet g ∖ temp st) ≤ size (keySet g))%nat
          by (apply subseteq_size; set_solver). lia. }
      { apply Hks, elem_of_cons. by left. }
      rewrite Heq. destruct c as [s'|e]; [|by exists (Thrown e)].
      destruct Hc as (HI' & Ht' & Hsub & Hk).
      destruct (IH s') as (c' & Heq' & Hc'); [done..|congruence|].
      exists c'. split; [done|]. destruct c' as [st'|e]; [|done].
      destruct Hc' as (HI'' & Hsub' & Hall). split_and!; [done|set_solver|].
      intros k' [->|Hk']%elem_of_cons; [set_solver|by apply Hall].
Qed.

Lemma topologicalSort_any :
  ∃ c, topologicalSort g = Some c
    ∧ match c with
      | Returned order =>
          NoDup order ∧ topoSorted g order
          ∧ ∀ x, x ∈ OrderedMap.keys g → x ∈ order
      | Thrown e => e = ErrorObj "Circular dependency detected"
      end.
Proof.
  unfold topologicalSort.
  destruct (keysLoop_any (S (length g)) (OrderedMap.keys g)
              {| result := []; visited := ∅; temp := ∅ |})
    as (c & Heq & Hc).
  - unfold keySet. pose proof (size_list_to_set_le (OrderedMap.keys g)).
    rewrite length_set_keys in *. lia.
  - intros k Hk. unfold keySet. by apply elem_of_list_to_set.
  - split; simpl; try done; [set_solver|apply NoDup_nil_2].
  - done.
  - rewrite Heq. destruct c as [st'|e]; [|by exists (Thrown e)].
    destruct Hc as ([Hmem Hnd Hdisj Hsort Hkeys] & _ & Hall).
    eexists. split; [done|]. split_and!; [by apply NoDup_reverse|done|].
    intros x Hx. apply elem_of_reverse, Hmem. by apply Hall.
Qed.

End Graph.
End SortAny.

Lemma topoSorted_edge g order x y :
  topoSorted g order → x ∈ order → edge g x y → y ∈ order.
Proof.
  induction order as [|z rest IH]; simpl; [by intros _ ?%elem_of_nil|].
  intros [Hz Hrest] [->|Hx]%elem_of_cons Hxy; apply elem_of_cons; right.
  - by apply Hz.
  - by apply IH.
Qed.

Lemma topoSorted_reach g order x y :
  topoSorted g order → x ∈ order → tc (edge g) x y → y ∈ order.
Proof.
  intros Hsorted Hx Hxy. induction Hxy as [x y Hxy|x z y Hxz _ IH].
  - by eapply topoSorted_edge.
  - apply IH. by eapply topoSorted_edge.
Qed.

(** An order that puts every vertex before its successors leaves no room
    for a cycle through one of its vertices. *)
Lemma topoSorted_acyclic g order x :
  NoDup order → topoSorted g order → x ∈ order → ¬ tc (edge g) x x.
Proof.
  induction order as [|z rest IH]; simpl; [by intros _ _ ?%elem_of_nil|].
  intros [Hz Hnd]%NoDup_cons [Hsucc Hrest] [->|Hx]%elem_of_cons; [|by apply IH].
  intros (w & Hzw & Hwz)%tc_first_step. apply Hz.
  apply rtc_tc in Hwz as [<-|Hwz]; [by apply Hsucc|].
  eapply topoSorted_reach; [done|by apply Hsucc|done].
Qed.

(** X25. [topologicalSort] on any graph whose dependents are keys (as in the
    graphs [buildDependencyGraph] makes). If the graph has no cycle, it
    returns an order that lists every key once and puts every key before
    its dependents. If the graph has a cycle, it throws
    ['Circular dependency detected'] and returns no order. *)
Theorem X25_topologicalSort_exact (graph : OrderedMap.t (list string)) :
  (∀ x y, edge graph x y → y ∈ OrderedMap.keys graph) →
  ((∀ x, ¬ tc (edge graph) x x) →
   ∃ order,
     TopologicalSort.topologicalSort graph = Some (Returned order)
     ∧ NoDup order
     ∧ (∀ x, x ∈ order ↔ x ∈ OrderedMap.keys graph)
     ∧ ∀ x y, edge graph x y → precedes x y order)
  ∧ ((∃ x, tc (edge graph) x x) →
     TopologicalSort.topologicalSort graph
     = Some (Thrown (ErrorObj "Circular dependency detected"))).
Proof.
  intros Hclosed.
  assert (∀ x y, edge graph x y → y ∈ keySet graph) as Hclosed'.
  { intros x y Hxy. unfold keySet. apply elem_of_list_to_set. by eapply Hclosed. }
  split.
  - intros Hacyc.
    destruct (SortFacts.topologicalSort_spec graph Hacyc Hclosed')
      as (order & Heq & Hnd & Hsorted & Hmem).
    exists order. split_and!; [done..|].
    intros x y Hxy. eapply SortFacts.topoSorted_precedes; [done| |done].
    apply Hmem. by eapply edge_key.
  - intros [x Hcyc].
    destruct (SortAny.topologicalSort_any graph Hclosed') as (c & Heq & Hc).
    rewrite Heq. destruct c as [order|e]; [|by rewrite Hc].
    destruct Hc as (Hnd & Hsorted & Hall).
    destruct (topoSorted_acyclic graph order x Hnd Hsorted); [|done].
    apply Hall. apply tc_first_step in Hcyc as (w & Hxw & _).
    by eapply edge_key.
Qed.

Lemma X25_witness :
  let graph := [("a", ["b"]); ("b", ["a"])] in
  ((∀ x, ¬ tc (edge graph) x x) →
   ∃ order,
     TopologicalSort.topologicalSort graph = Some (Returned order)
     ∧ NoDup order
     ∧ (∀ x, x ∈ order ↔ x ∈ OrderedMap.keys graph)
     ∧ ∀ x y, edge graph x y → precedes x y order)
  ∧ ((∃ x, tc (edge graph) x x) →
     TopologicalSort.topologicalSort graph
     = Some (Thrown (ErrorObj "Circular dependency detected"))).
Proof.
  apply (X25_topologicalSort_exact [("a", ["b"]); ("b", ["a"])]).
  intros x y. unfold edge. simpl.
  repeat case_decide; simpl; intros Hy;
    repeat (apply elem_of_cons in Hy as [->|Hy]);
    try (by apply elem_of_nil in Hy);
    repeat (first [apply elem_of_cons; by left | apply elem_of_cons; right]).
Defined.

(** ** Overrides and the shared context *)

Section OverrideFacts.
Context {Ext : Type} `{!World Ext}.
Implicit Types (m : Machine Ext) (node : NodeConfig).



End OverrideFacts.



(** ** When every node succeeds *)

Section SuccessFacts.
Context {Ext : Type} `{!World Ext}.
Implicit Types (m : Machine Ext) (node : NodeConfig).

Lemma executeNode_first_attempt node m r m' :
  (∀ e : Ext, aborted e = false) →
  (∀ m0, ∃ v m1, executeWithTimeout node m0 = (Returned v, m1)) →
  (∀ policy, retryPolicy node = Some policy → (0 ≤ maxAttempts policy)%Z) →
  executeNode node m = Some (r, m') →
  status r = SUCCESS ∧ attempts r = 1.
Proof.
  intros Hcalm Hreturns Hpolicy. unfold executeNode.
  set (n := orDefault (maxAttempts <$> retryPolicy node) 1).
  assert (1 ≤ n)%Z as Hn.
  { unfold n. destruct (retryPolicy node) as [policy|]; simpl; [|lia].
    specialize (Hpolicy policy eq_refl).
    destruct (Z.eqb_spec (maxAttempts policy) 0); lia. }
  destruct (Z.to_nat n) as [|fuel] eqn:Hfuel; [lia|]. simpl.
  rewrite decide_True by lia. unfold attempt at 1. rewrite Hcalm.
  match goal with |- context [executeWithTimeout node ?m0] =>
    destruct (Hreturns m0) as (v & m1 & ->) end.
  by intros [= <- <-].
Qed.

End SuccessFacts.

(** X27. When nothing goes wrong, the workflow succeeds: for a valid
    workflow in a world where cancellation never happens, if every node body
    returns (no error, no lost timeout) and no retry policy has a negative
    [maxAttempts], the status is [success] and every node is recorded as
    [success] after exactly one attempt. *)
Theorem X27_all_nodes_succeed {Ext : Type} `{!World Ext}
    (workflow : WorkflowDefinition) (initialContext : gmap string JSValue)
    (e0 : Ext) :
  valid workflow →
  (∀ e : Ext, aborted e = false) →
  (∀ node m0, node ∈ nodes workflow →
              ∃ v m1, executeWithTimeout node m0 = (Returned v, m1)) →
  (∀ node policy, node ∈ nodes workflow → retryPolicy node = Some policy →
                  (0 ≤ maxAttempts policy)%Z) →
  ∃ r m,
    executeWorkflow workflow initialContext e0 = Some (Returned r, m)
    ∧ res_status r = success
    ∧ ∀ node, node ∈ nodes workflow →
        ∃ res, nodeResults r !! id node = Some res
               ∧ status res = SUCCESS ∧ attempts res = 1.
Proof.
  intros Hvalid Hcalm Hreturns Hpolicy.
  destruct (executeWorkflow_run workflow initialContext e0 Hvalid)
    as (order & st' & Hnd & Hmem & Hloop & Hrun & Hcases).
  eexists _, _. split; [exact Hrun|]. simpl.
  destruct Hcases as [HI|(l1 & n & l2 & st1 & _ & _ & Hab & _)];
    [|by rewrite Hcalm in Hab].
  assert (∀ x res, run_results st' !! x = Some res → status res ≠ FAILED →
                   status res = SUCCESS ∧ attempts res = 1) as Hgood.
  { intros x res Hres Hnf.
    destruct (ri_result _ _ _ HI x res Hres)
      as [->|(node & m0 & m1 & Hin & _ & Hexec)].
    - destruct (ri_skip _ _ _ HI x _ Hres eq_refl) as (f & rf & _ & Hf & Hfailed).
      destruct (ri_result _ _ _ HI f rf Hf)
        as [->|(node & m0 & m1 & Hin & _ & Hexec)]; [done|].
      apply executeNode_first_attempt in Hexec as [Hs _]; eauto. congruence.
    - apply executeNode_first_attempt in Hexec; eauto. }
  assert (∀ x res, run_results st' !! x = Some res → status res ≠ FAILED)
    as Hnofail.
  { intros x res Hres Hfailed.
    destruct (ri_result _ _ _ HI x res Hres)
      as [->|(node & m0 & m1 & Hin & _ & Hexec)]; [done|].
    apply executeNode_first_attempt in Hexec as [Hs _]; eauto. congruence. }
  split.
  - destruct (ri_status _ _ _ HI) as [[Hs _]|[_ (x & res & Hres & Hfailed)]];
      [done|]. by destruct (Hnofail x res Hres).
  - intros node Hnode.
    assert (is_Some (run_results st' !! id node)) as [res Hres].
    { apply (ri_keys _ _ _ HI), Hmem. by apply list_elem_of_fmap_2. }
    exists res. split; [done|]. apply (Hgood (id node)); [done|].
    by apply (Hnofail (id node)).
Qed.

Lemma X27_witness :
  ∃ r m,
    @executeWorkflow unit CalmWorld chainWorkflow ∅ tt
    = Some (Returned r, m)
    ∧ res_status r = success
    ∧ ∀ node, node ∈ nodes chainWorkflow →
        ∃ res, nodeResults r !! id node = Some res
               ∧ status res = SUCCESS ∧ attempts res = 1.
Proof.
  apply (@X27_all_nodes_succeed unit CalmWorld chainWorkflow ∅ tt).
  - vm_compute. reflexivity.
  - reflexivity.
  - intros node m0 Hnode.
    repeat (apply elem_of_cons in Hnode as [->|Hnode]);
      [by eexists _, _..|by apply elem_of_nil in Hnode].
  - intros node policy Hnode.
    repeat (apply elem_of_cons in Hnode as [->|Hnode]);
      [done..|by apply elem_of_nil in Hnode].
Defined.
